(** * imgtool.js: a batch image-compression orchestrator

    A shallow embedding of [src/imgtool.js], the properties its
    specification states about it, and further properties of the code.

    Conventions of the embedding.
    - JavaScript strings are [string]s, one [ascii] for each code unit;
      [toLowerCase] maps the letters [A] to [Z] and nothing else, which is
      what JavaScript does on a string of code units below 128
      ([ascii_only]).
    - Node's [path] module is modelled in its POSIX flavour
      ([path.sep = "/"]), on the [/]-separated segments of a path, as
      [path.posix] computes them.
    - JavaScript numbers that hold file sizes and elapsed times are
      non-negative integers ([N]); the percentage of [pct] is computed in
      binary64 with the kernel's primitive floats, and [toFixed(2)] is
      modelled for values below [10^21] in absolute value.
    - The asynchronous calls of the program ([fsp.stat], [fsp.mkdir],
      [fsp.copyFile], [execFile], [fsp.appendFile]) are calls to an
      environment that answers them, each answer a function of the calls
      made before; the program is a function of the environment and yields
      the list of the calls it made.
    - The workers of [main] are a transition system: a worker takes a turn
      for each stretch of code it runs between two [await]s. *)

From Stdlib Require Import Strings.String Strings.Ascii ZArith NArith List.
From Stdlib Require Import Floats.
From stdpp Require Import base decidable option list strings gmap pretty.

Set Warnings "-register-all,-inexact-float".

Open Scope string_scope.
Open Scope list_scope.

(** ** JavaScript string methods *)

Module JsString.

Definition slash : ascii := "/"%char.
Definition dot : ascii := "."%char.

(** [c.toLowerCase()] on one ASCII code unit; a code unit from 128 on is
    left as it is. *)
Definition lower_char (c : ascii) : ascii :=
  let n := N_of_ascii c in
  if ((65 <=? n) && (n <=? 90))%N then ascii_of_N (n + 32) else c.

(** [s.toLowerCase()] *)
Fixpoint toLowerCase (s : string) : string :=
  match s with
  | EmptyString => EmptyString
  | String c s' => String (lower_char c) (toLowerCase s')
  end.

(** [s.startsWith(p)] *)
Fixpoint startsWith (p s : string) : bool :=
  match p, s with
  | EmptyString, _ => true
  | String a p', String b s' => if decide (a = b) then startsWith p' s' else false
  | String _ _, EmptyString => false
  end.

(** [s.includes(pat)]: [pat] occurs in [s] as a contiguous substring. *)
Fixpoint includes (pat s : string) : bool :=
  startsWith pat s ||
  match s with
  | EmptyString => false
  | String _ s' => includes pat s'
  end.

(** [s.endsWith(suf)] *)
Fixpoint endsWith (suf s : string) : bool :=
  bool_decide (s = suf) ||
  match s with
  | EmptyString => false
  | String _ s' => endsWith suf s'
  end.

(** [s.slice(1)] *)
Definition slice1 (s : string) : string :=
  match s with
  | EmptyString => EmptyString
  | String _ s' => s'
  end.

(** [s.slice(0, n)] for [0 <= n]. *)
Fixpoint slice0 (n : nat) (s : string) : string :=
  match n, s with
  | S n', String c s' => String c (slice0 n' s')
  | _, _ => EmptyString
  end.

(** [s.split(c)] for a one-character separator: never the empty list. *)
Fixpoint split (c : ascii) (s : string) : list string :=
  match s with
  | EmptyString => [EmptyString]
  | String a s' =>
      if decide (a = c) then EmptyString :: split c s'
      else match split c s' with
           | x :: xs => String a x :: xs
           | [] => [String a EmptyString]
           end
  end.

(** [l.join(sep)] *)
Definition join (sep : string) (l : list string) : string := String.concat sep l.

(** [s.replaceAll(c, r)] for a one-character pattern. *)
Fixpoint replaceAll (c : ascii) (r : string) (s : string) : string :=
  match s with
  | EmptyString => EmptyString
  | String a s' =>
      if decide (a = c) then r +:+ replaceAll c r s'
      else String a (replaceAll c r s')
  end.

(** [s] contains the code unit [c]. *)
Fixpoint has_char (c : ascii) (s : string) : bool :=
  match s with
  | EmptyString => false
  | String a s' => bool_decide (a = c) || has_char c s'
  end.

(** [s.replace(/\r?\n/g, ' ')]: every LF, and every CR LF pair, becomes
    one space; a CR that no LF follows stays. *)
Fixpoint replaceNewlines (s : string) : string :=
  match s with
  | EmptyString => EmptyString
  | String a s' =>
      if decide (a = "010"%char) then String " " (replaceNewlines s')
      else if decide (a = "013"%char) then
        match s' with
        | String b s'' =>
            if decide (b = "010"%char) then String " " (replaceNewlines s'')
            else String a (replaceNewlines s')
        | EmptyString => String a EmptyString
        end
      else String a (replaceNewlines s')
  end.

(** The line feed. *)
Definition LF : string := String "010"%char "".

End JsString.

(** ** Node's [path] module, POSIX flavour

    The program calls [path.extname], [path.basename], [path.dirname],
    [path.join], [path.resolve] and [path.relative].  They are library
    code, modelled here after [path.posix] of Node's [lib/path.js], on the
    [/]-separated segments of a path.  The current working directory, which
    [path.resolve] reads when no argument is absolute, is the explicit
    argument [cwd]; [process.cwd()] is an absolute path. *)

Module Path.

(** [path.sep] *)
Definition sep : ascii := JsString.slash.

(** The segments between separators that are not empty. *)
Definition segments (p : string) : list string :=
  filter (λ s, s ≠ "") (JsString.split sep p).

(** The component at which the right-to-left scans of [extname] and
    [basename] stop: the last segment that is not empty (separators at the
    end are skipped), the empty string when there is none. *)
Definition last_component (p : string) : string := List.last (segments p) "".

Fixpoint all_seps (p : string) : bool :=
  match p with
  | EmptyString => true
  | String a p' => bool_decide (a = sep) && all_seps p'
  end.

(** The separators at the end of [p]. *)
Fixpoint trailing_seps (p : string) : string :=
  match p with
  | EmptyString => EmptyString
  | String _ p' => if all_seps p then p else trailing_seps p'
  end.

(** Splits a component at its last dot: what is before it, and the rest
    from the dot on. *)
Fixpoint last_dot (c : string) : option (string * string) :=
  match c with
  | EmptyString => None
  | String a c' =>
      match last_dot c' with
      | Some (stem, ext) => Some (String a stem, ext)
      | None => if decide (a = JsString.dot) then Some (EmptyString, c) else None
      end
  end.

(** [path.extname(p)]: from the last dot of the last component to its end;
    empty when there is no dot, when the only dot is the component's first
    character, and when the component is [".."]. *)
Definition extname (p : string) : string :=
  let c := last_component p in
  match last_dot c with
  | None => ""
  | Some (stem, ext) =>
      if bool_decide (stem = "") || bool_decide (c = "..") then "" else ext
  end.

(** [Some stem] when [s = stem ++ suf]. *)
Fixpoint strip_suffix (suf s : string) : option string :=
  if decide (s = suf) then Some EmptyString
  else match s with
       | EmptyString => None
       | String a s' => String a <$> strip_suffix suf s'
       end.

(** [path.basename(p, suffix)]; [suffix = ""] stands for a call without
    the second argument (the two behave alike).  A suffix is removed from
    the last component when the component ends with it and is more than
    it. *)
Definition basename (p suffix : string) : string :=
  let c := last_component p in
  if bool_decide (suffix ≠ "") && (String.length suffix <=? String.length p)%nat then
    if decide (suffix = p) then ""
    else match strip_suffix suffix c with
         | Some EmptyString => c
         | Some stem => stem
         | None =>
             (* the scan met the start of the component before the suffix
                was matched or refuted: [end] stays at [path.length] *)
             if JsString.endsWith c suffix then c +:+ trailing_seps p else c
         end
  else c.

Fixpoint drop_seps (r : string) : string :=
  match r with
  | String a r' => if decide (a = sep) then drop_seps r' else r
  | EmptyString => EmptyString
  end.

Fixpoint drop_non_seps (r : string) : string :=
  match r with
  | String a r' => if decide (a = sep) then r else drop_non_seps r'
  | EmptyString => EmptyString
  end.

(** [path.dirname(p)]: the scan runs over the indices [length p - 1] down
    to [1], skips the separators at the end, then the last component, and
    stops at the separator before it. *)
Definition dirname (p : string) : string :=
  match p with
  | EmptyString => "."
  | String c0 rest =>
      let hasRoot := bool_decide (c0 = sep) in
      match drop_non_seps (drop_seps (String.rev rest)) with
      | EmptyString => if hasRoot then "/" else "."
      | String _ r =>
          if hasRoot && bool_decide (r = "") then "//"
          else String c0 (String.rev r)
      end
  end.

Definition isAbsolute (p : string) : bool :=
  match p with
  | String c _ => bool_decide (c = sep)
  | EmptyString => false
  end.

(** The loop of [normalizeString], one segment at a time; [res] holds the
    segments kept so far, the last one first. *)
Fixpoint normalizeSegs (allowAboveRoot : bool) (res segs : list string) : list string :=
  match segs with
  | [] => rev res
  | s :: segs' =>
      if decide (s = "" ∨ s = ".") then normalizeSegs allowAboveRoot res segs'
      else if decide (s = "..") then
        match res with
        | top :: res' =>
            if decide (top = "..")
            then normalizeSegs allowAboveRoot (if allowAboveRoot then ".." :: res else res) segs'
            else normalizeSegs allowAboveRoot res' segs'
        | [] => normalizeSegs allowAboveRoot (if allowAboveRoot then [".."] else []) segs'
        end
      else normalizeSegs allowAboveRoot (s :: res) segs'
  end.

Definition normalizeString (path : string) (allowAboveRoot : bool) : string :=
  JsString.join "/" (normalizeSegs allowAboveRoot [] (JsString.split sep path)).

(** [path.normalize(p)] *)
Definition normalize (path : string) : string :=
  if decide (path = "") then "."
  else
    let isAbs := isAbsolute path in
    let trailingSeparator := JsString.endsWith "/" path in
    let path' := normalizeString path (negb isAbs) in
    if decide (path' = "") then
      if isAbs then "/" else if trailingSeparator then "./" else "."
    else
      let path'' := if trailingSeparator then path' +:+ "/" else path' in
      if isAbs then "/" +:+ path'' else path''.

(** [path.join(...args)] *)
Definition join (args : list string) : string :=
  match filter (λ a, a ≠ "") args with
  | [] => "."
  | parts => normalize (JsString.join "/" parts)
  end.

(** The loop of [path.resolve]: the arguments from the last to the first,
    then the working directory, until an absolute one is met. *)
Fixpoint resolve_go (paths : list string) (resolvedPath : string) : string * bool :=
  match paths with
  | [] => (resolvedPath, false)
  | p :: rest =>
      if decide (p = "") then resolve_go rest resolvedPath
      else
        let resolvedPath' := p +:+ "/" +:+ resolvedPath in
        if isAbsolute p then (resolvedPath', true) else resolve_go rest resolvedPath'
  end.

(** [path.resolve(...args)] *)
Definition resolve (cwd : string) (args : list string) : string :=
  let '(resolvedPath, resolvedAbsolute) := resolve_go (rev args ++ [cwd]) "" in
  let n := normalizeString resolvedPath (negb resolvedAbsolute) in
  if resolvedAbsolute then "/" +:+ n
  else if decide (n = "") then "." else n.

Fixpoint strip_common (a b : list string) : list string * list string :=
  match a, b with
  | x :: a', y :: b' => if decide (x = y) then strip_common a' b' else (a, b)
  | _, _ => (a, b)
  end.

(** [path.relative(from, to)]: both resolved, their common leading
    segments dropped, one [".."] for each segment left of [from], then the
    segments left of [to]. *)
Definition relative (cwd from to : string) : string :=
  if decide (from = to) then ""
  else
    let from' := resolve cwd [from] in
    let to' := resolve cwd [to] in
    if decide (from' = to') then ""
    else
      let '(up, down) := strip_common (segments from') (segments to') in
      JsString.join "/" (((λ _, "..") <$> up) ++ down).

End Path.

(** ** The configuration document ([config.json]) *)

(** An element of a profile's argument array: JSON strings and numbers. *)
Inductive arg : Type :=
| AStr (s : string)
| ANum (n : Z).

Global Instance arg_eq_dec : EqDecision arg.
Proof. solve_decision. Defined.

(** One entry of [cfg.pipeline].  [suffix] may be absent ([step.suffix || ""]). *)
Record Step : Type := {
  name : string;
  enabled : bool;
  matchExt : list string;
  suffix : option string;
  profile : string;
}.

Record Config : Type := {
  inputDir : string;                                  (* cfg.paths.inputDir *)
  outputDir : string;                                 (* cfg.paths.outputDir *)
  tools : gmap string string;                         (* cfg.paths.tools *)
  includeExt : list string;                           (* cfg.selection.includeExt *)
  excludePatterns : list string;                      (* cfg.selection.excludePatterns *)
  pipeline : list Step;
  profiles : option (gmap string (gmap string (list arg)));
  recursive : bool;                                   (* cfg.options.recursive *)
  preserveTree : bool;                                (* cfg.options.preserveTree *)
  dryRun : bool;                                      (* cfg.options.dryRun *)
  concurrency : option Z;                             (* cfg.options.concurrency *)
  writePerFile : bool;                                (* cfg.logging.writePerFile *)
  csvPath : string;                                   (* cfg.logging.csvPath *)
}.

(** ** Discovery and path derivation (lines 19-44) *)

(** The entries [fsp.readdir] lists, with the entries of the directories
    below them. *)
Inductive dirent : Type :=
| File (entry_name : string)
| Dir (entry_name : string) (entries : list dirent).

(** What [walk] yields for one entry of [dir]. *)
Fixpoint walk_entry (dir : string) (recursive : bool) (e : dirent) : list string :=
  match e with
  | File n => [Path.join [dir; n]]
  | Dir n sub =>
      if recursive then flat_map (walk_entry (Path.join [dir; n]) recursive) sub else []
  end.

(** [walk(dir, recursive)], [entries] being what [readdir(dir)] lists. *)
Definition walk (dir : string) (recursive : bool) (entries : list dirent) : list string :=
  flat_map (walk_entry dir recursive) entries.

(** [walk] takes [readdir] to fulfil.  The generator with a [readdir] that
    may reject (line 20) is [walk_gen] below: an entry is a file, or a
    directory with what [readdir] lists of it, [None] when it rejects. *)
Inductive dirnode : Type :=
| FileNode (entry_name : string)
| DirNode (entry_name : string) (listing : option (list dirnode)).

(** The loop of line 21 over generators: the paths yielded one after the
    other, and [true] when every one returned, [false] when one rejected,
    which ends the loop. *)
Definition yield_each {A : Type} (f : A → list string * bool)
    : list A → list string * bool :=
  fix go (l : list A) : list string * bool :=
    match l with
    | [] => ([], true)
    | x :: l' =>
        let (ys, returned) := f x in
        if returned then let (zs, returned') := go l' in (ys ++ zs, returned')
        else (ys, false)
    end.

(** What [walk] yields for one entry of [dir], and whether it got through
    it. *)
Fixpoint walk_node (dir : string) (recursive : bool) (e : dirnode) : list string * bool :=
  match e with
  | FileNode n => ([Path.join [dir; n]], true)
  | DirNode n listing =>
      if recursive then
        match listing with
        | Some sub => yield_each (walk_node (Path.join [dir; n]) recursive) sub
        | None => ([], false)
        end
      else ([], true)
  end.

(** [walk(dir, recursive)] with the answer of [readdir(dir)]: the paths
    yielded, and [true] for a generator that returned, [false] for one that
    rejected.  [main] (line 137) goes on only when it returned. *)
Definition walk_gen (dir : string) (recursive : bool) (listing : option (list dirnode))
    : list string * bool :=
  match listing with
  | Some entries => yield_each (walk_node dir recursive) entries
  | None => ([], false)
  end.

(** The tree of a [readdir] that fulfils everywhere. *)
Fixpoint readable (e : dirent) : dirnode :=
  match e with
  | File n => FileNode n
  | Dir n sub => DirNode n (Some (readable <$> sub))
  end.

(** [extOf(p)] *)
Definition extOf (p : string) : string :=
  JsString.toLowerCase (JsString.slice1 (Path.extname p)).

(** [baseNameNoExt(p)] *)
Definition baseNameNoExt (p : string) : string := Path.basename p (Path.extname p).

(** [matchFile(relPath, cfg)] *)
Definition matchFile (relPath : string) (cfg : Config) : bool :=
  let ext := extOf relPath in
  if negb (bool_decide (ext ∈ includeExt cfg)) then false
  else negb (existsb (λ pat, JsString.includes pat relPath) (excludePatterns cfg)).

(** [a || b] on a string that may be [null] or [undefined]: the empty
    string is falsy. *)
Definition js_or (a : option string) (b : string) : string :=
  match a with
  | Some s => if decide (s = "") then b else s
  | None => b
  end.

(** [outPathForStep(inputAbs, inRoot, outRoot, preserveTree, stepSuffix, forcedExt)] *)
Definition outPathForStep (cwd inputAbs inRoot outRoot : string) (preserveTree : bool)
    (stepSuffix : string) (forcedExt : option string) : string :=
  let rel := Path.relative cwd inRoot inputAbs in
  let dir := if preserveTree then Path.dirname rel else "" in
  let name := JsString.join "__" (JsString.split Path.sep (baseNameNoExt rel)) in
  let ext := js_or forcedExt (extOf rel) in
  let filename := name +:+ stepSuffix +:+ "." +:+ ext in
  Path.join [outRoot; dir; filename].

(** The task list [main] builds (lines 135-140). *)
Definition discover (cwd : string) (cfg : Config) (entries : list dirent) : list string :=
  let inRoot := Path.resolve cwd [inputDir cfg] in
  filter (λ abs, matchFile (Path.relative cwd inRoot abs) cfg = true)
         (walk inRoot (recursive cfg) entries).

(** ** Numbers and their text *)

Module JsNumber.

(** The binary64 value of a size.  Sizes are integers below [2^53]
    ([Number.MAX_SAFE_INTEGER]), which binary64 holds exactly. *)
Definition of_N (n : N) : float := PrimFloat.of_uint63 (Uint63.of_Z (Z.of_N n)).

(** ["" + n] for an integer. *)
Definition show_N (n : N) : string := pretty n.
Definition show_Z (z : Z) : string := pretty z.

Fixpoint zeros (k : nat) : string :=
  match k with
  | O => EmptyString
  | S k' => String "0" (zeros k')
  end.

(** The decimal digits of [n] hundredths, with the point before the last
    two: steps 8 to 10 of [Number.prototype.toFixed] for two digits. *)
Definition hundredths (n : N) : string :=
  let m := show_N n in
  let m' := zeros (3 - String.length m) +:+ m in
  let k := String.length m' in
  String.substring 0 (k - 2) m' +:+ "." +:+ String.substring (k - 2) 2 m'.

(** The integer [n] for which [n / 100] is closest to [m * 2^e], the
    larger one when two are as close. *)
Definition nearest_hundredth (m : positive) (e : Z) : N :=
  let scaled := (Z.pos m * 100)%Z in
  if (0 <=? e)%Z then Z.to_N (scaled * 2 ^ e)
  else
    let d := (2 ^ (- e))%Z in
    let q := (scaled / d)%Z in
    let r := (scaled mod d)%Z in
    Z.to_N (if (d <=? 2 * r)%Z then q + 1 else q).

(** [x.toFixed(2)], for [x] below [10^21] in absolute value. *)
Definition toFixed2 (x : float) : string :=
  match Prim2SF x with
  | S754_nan => "NaN"
  | S754_infinity s => if s then "-Infinity" else "Infinity"
  | S754_zero _ => "0.00"
  | S754_finite s m e =>
      (if s then "-" else "") +:+ hundredths (nearest_hundredth m e)
  end.

End JsNumber.

(** [pct(a, b)] (line 51); [a] may be [null], [b] is a number where the
    program calls it. *)
Definition pct (a : option N) (b : N) : string :=
  match a with
  | None => ""
  | Some a' =>
      if decide (a' = 0%N) then ""
      else
        let fa := JsNumber.of_N a' in
        let fb := JsNumber.of_N b in
        JsNumber.toFixed2 (PrimFloat.mul (PrimFloat.div (PrimFloat.sub fb fa) fa) 100%float)
  end.

(** ** The calls to the outside and the program's monad *)

(** The value a rejected call throws: [e.stderr] and [e.message], either of
    which may be missing. *)
Record js_error : Type := {
  stderr : option string;
  message : option string;
}.

(** [new Error(msg)] *)
Definition Error (msg : string) : js_error := {| stderr := None; message := Some msg |}.

(** The calls the program makes to the file system and to the tools. *)
Inductive call : Type :=
| Stat (p : string)                                   (* fsp.stat(p) *)
| Mkdir (p : string)                                  (* fsp.mkdir(p, {recursive: true}) *)
| CopyFile (src dst : string)                         (* fsp.copyFile(src, dst) *)
| ExecFile (cmd : option string) (args : list arg)    (* execFile(cmd, args, ...) *)
| AppendFile (p data : string).                       (* fsp.appendFile(p, data, "utf8") *)

(** The outside world: what each call answers, given the calls made before
    it.  [stat] answers a size or fails; [execFile] answers the elapsed time
    or the error it rejects with; the others succeed or fail. *)
Record Env : Type := {
  on_stat : list call → string → option N;
  on_mkdir : list call → string → option js_error;
  on_copyFile : list call → string → string → option js_error;
  on_execFile : list call → option string → list arg → N + js_error;
  on_appendFile : list call → string → string → option js_error;
}.

Inductive outcome (A : Type) : Type :=
| Returned (a : A)
| Thrown (e : js_error).
Arguments Returned {A} a.
Arguments Thrown {A} e.

(** An asynchronous computation: from the calls made so far to its outcome
    and the calls made once it settles. *)
Definition Async (A : Type) : Type := list call → outcome A * list call.

Global Instance Async_ret : MRet Async := λ A a h, (Returned a, h).
Global Instance Async_bind : MBind Async := λ A B f m h,
  match m h with
  | (Returned a, h') => f a h'
  | (Thrown e, h') => (Thrown e, h')
  end.

(** [throw e] *)
Definition throw {A : Type} (e : js_error) : Async A := λ h, (Thrown e, h).

(** [try { m } catch (e) { handler e }] *)
Definition try_catch {A : Type} (m : Async A) (handler : js_error → Async A) : Async A :=
  λ h, match m h with
       | (Returned a, h') => (Returned a, h')
       | (Thrown e, h') => handler e h'
       end.

(** [for (const x of l) body x] *)
Fixpoint for_of {A : Type} (l : list A) (body : A → Async unit) : Async unit :=
  match l with
  | [] => mret tt
  | x :: l' => body x ≫= λ _, for_of l' body
  end.

(** A call that succeeds or rejects. *)
Definition settle (c : call) (answer : option js_error) : Async unit :=
  λ h, match answer with
       | None => (Returned tt, h ++ [c])
       | Some e => (Thrown e, h ++ [c])
       end.

(** ** Metrics rows (lines 46-51, 112-125) *)

Definition hex_digit (n : N) : ascii :=
  match n with
  | 10 => "a" | 11 => "b" | 12 => "c" | 13 => "d" | 14 => "e" | 15 => "f"
  | _ => pretty_N_char n
  end%N%char.

Definition quote : ascii := "034"%char.
Definition backslash : ascii := "092"%char.

(** The escape of one code unit inside a JSON string. *)
Definition json_escape (c : ascii) : string :=
  let n := N_of_ascii c in
  if decide (c = quote) then String backslash (String quote "")
  else if decide (c = backslash) then String backslash (String backslash "")
  else if decide (n = 8%N) then String backslash "b"
  else if decide (n = 9%N) then String backslash "t"
  else if decide (n = 10%N) then String backslash "n"
  else if decide (n = 12%N) then String backslash "f"
  else if decide (n = 13%N) then String backslash "r"
  else if (n <? 32)%N then
    String backslash "u00" +:+ String (hex_digit (n / 16)) (String (hex_digit (n mod 16)) "")
  else String c "".

Fixpoint json_body (s : string) : string :=
  match s with
  | EmptyString => EmptyString
  | String c s' => json_escape c +:+ json_body s'
  end.

(** [JSON.stringify(s)] for a string. *)
Definition JSON_stringify (s : string) : string :=
  String quote (json_body s) +:+ String quote "".

(** The fields of a row: every one with its commas turned into spaces, then
    joined by commas ([.map(v => ("" + v).replaceAll(",", " ")).join(",")]). *)
Definition csv_row (fields : list string) : string :=
  JsString.join "," (JsString.replaceAll ","%char " " <$> fields).

(** The line [writeCsvHeader] writes (line 48). *)
Definition csv_header : string :=
  "file,stage,src_size,out_size,delta,delta_pct,elapsed_ms,status,message" +:+ JsString.LF.

(** The calls of [writeCsvHeader]. *)
Inductive header_call : Type :=
| ExistsSync (p : string)              (* fs.existsSync(p) *)
| WriteFile (p data : string).         (* fsp.writeFile(p, data, "utf8") *)

(** [writeCsvHeader(csvPath)] (lines 46-49), with its calls; [existsSync]
    and [on_writeFile] are what the file system answers. *)
Definition writeCsvHeader (existsSync : string → bool)
    (on_writeFile : string → string → option js_error) (csvPath : string)
    : outcome unit * list header_call :=
  if existsSync csvPath then (Returned tt, [ExistsSync csvPath])
  else
    match on_writeFile csvPath csv_header with
    | None => (Returned tt, [ExistsSync csvPath; WriteFile csvPath csv_header])
    | Some e => (Thrown e, [ExistsSync csvPath; WriteFile csvPath csv_header])
    end.

(** [n ?? ""] as text. *)
Definition show_size (n : option N) : string :=
  match n with
  | Some k => JsNumber.show_N k
  | None => ""
  end.

(** The outcome of one step on one file: the variables [before], [after],
    [status], [message] and [elapsedMs] of the loop body. *)
Record StepOutcome : Type := {
  so_outFile : string;
  so_stage : string;
  so_before : option N;
  so_after : option N;
  so_elapsedMs : N;
  so_status : string;
  so_message : string;
}.

(** [delta] (line 113) *)
Definition delta_field (before after : option N) : string :=
  match after, before with
  | Some a, Some b => JsNumber.show_Z (Z.of_N a - Z.of_N b)
  | _, _ => ""
  end.

(** [deltaPct] (line 114) *)
Definition deltaPct_field (before after : option N) : string :=
  match after, before with
  | Some a, Some _ => pct before a
  | _, _ => ""
  end.

(** The nine fields of a step's row (lines 115-117), before the commas are
    replaced. *)
Definition step_fields (o : StepOutcome) : list string :=
  [ so_outFile o; so_stage o; show_size (so_before o); show_size (so_after o);
    delta_field (so_before o) (so_after o); deltaPct_field (so_before o) (so_after o);
    JsNumber.show_N (so_elapsedMs o); so_status o; JSON_stringify (js_or (Some (so_message o)) "") ].

(** The nine fields of the row of the original file (lines 122-124). *)
Definition original_fields (inputAbs : string) (origSize : option N) : list string :=
  [ inputAbs; "ORIGINAL"; show_size origSize; show_size origSize;
    JsNumber.show_Z 0; "0.00"; ""; "ok"; "" ].

(** The text the [catch] of line 107 keeps of an error (line 109). *)
Definition diagnostic (e : js_error) : string :=
  JsString.slice0 300
    (JsString.replaceNewlines (js_or (stderr e) (js_or (message e) ""))).

(** ** Processing one file (lines 53-126) *)

(** [forcedExt] (line 63) *)
Definition forcedExt_of (step : Step) : option string :=
  if decide (name step = "mozjpeg") then Some "jpg" else None.

(** [(cfg.profiles?.[step.profile]?.key) || []] *)
Definition profile_args (cfg : Config) (step : Step) (key : string) : list arg :=
  match profiles cfg with
  | Some ps =>
      match ps !! profile step with
      | Some p => default [] (p !! key)
      | None => []
      end
  | None => []
  end.

(** [typeof a === "string" && a.endsWith(":")]: the string, when the test
    holds. *)
Definition format_prefix_of (a : arg) : option string :=
  match a with
  | AStr s => if JsString.endsWith ":" s then Some s else None
  | ANum _ => None
  end.

(** The loop of lines 94-97 from the state [(formatPrefix, cleanArgs)]. *)
Fixpoint scan_prefix (profileArgs : list arg) (formatPrefix : option string)
    (cleanArgs : list arg) : option string * list arg :=
  match profileArgs with
  | [] => (formatPrefix, cleanArgs)
  | a :: rest =>
      match format_prefix_of a with
      | Some p => scan_prefix rest (Some p) cleanArgs
      | None => scan_prefix rest formatPrefix (cleanArgs ++ [a])
      end
  end.

(** [formatPrefix ? formatPrefix + outFile : outFile] (line 99) *)
Definition outTarget_of (formatPrefix : option string) (outFile : string) : string :=
  match formatPrefix with
  | Some p => if decide (p = "") then outFile else p +:+ outFile
  | None => outFile
  end.

Section Program.
Variable cwd : string.
Variable env : Env.
Variable cfg : Config.

(** [fileSize(p)] (line 18): the size, [null] when [stat] fails. *)
Definition fileSize (p : string) : Async (option N) :=
  λ h, (Returned (on_stat env h p), h ++ [Stat p]).

(** [ensureDirFor(filePath)] (line 35) *)
Definition ensureDirFor (filePath : string) : Async unit :=
  λ h, settle (Mkdir (Path.dirname filePath)) (on_mkdir env h (Path.dirname filePath)) h.

(** [fsp.copyFile(src, dst)] *)
Definition copyFile (src dst : string) : Async unit :=
  λ h, settle (CopyFile src dst) (on_copyFile env h src dst) h.

(** [execFileAsync(cmd, args)] (lines 7-16), resolved to [r.elapsedMs]. *)
Definition execFileAsync (cmd : option string) (args : list arg) : Async N :=
  λ h, match on_execFile env h cmd args with
       | inl elapsedMs => (Returned elapsedMs, h ++ [ExecFile cmd args])
       | inr e => (Thrown e, h ++ [ExecFile cmd args])
       end.

(** [appendCsv(csvPath, row)] (line 50) *)
Definition appendCsv (csvPath row : string) : Async unit :=
  λ h, settle (AppendFile csvPath (row +:+ JsString.LF))
              (on_appendFile env h csvPath (row +:+ JsString.LF)) h.

(** The branches of lines 76-104: the tool of the step is run and the
    elapsed time returned. *)
Definition runTool (step : Step) (inExt outFile srcForStep : string) : Async N :=
  if decide (name step = "pngquant") then
    let profile := profile_args cfg step "pngquant" in
    let args := profile ++ [AStr "--output"; AStr outFile; AStr srcForStep] in
    execFileAsync (tools cfg !! "pngquant") args
  else if decide (name step = "mozjpeg") then
    let profile := profile_args cfg step "mozjpeg" in
    let args := profile ++ [AStr "-outfile"; AStr outFile; AStr srcForStep] in
    execFileAsync (tools cfg !! "mozjpeg") args
  else if decide (name step = "imagemagick_compress") then
    let profileArgs :=
      if decide (inExt = "png") then profile_args cfg step "imagemagick_png"
      else profile_args cfg step "imagemagick_jpg" in
    let '(formatPrefix, cleanArgs) := scan_prefix profileArgs None [] in
    let outTarget := outTarget_of formatPrefix outFile in
    execFileAsync (tools cfg !! "magick")
      ([AStr "convert"; AStr srcForStep] ++ cleanArgs ++ [AStr outTarget])
  else throw (Error ("Unknown step: " +:+ name step)).

(** The [try] block of lines 71-106: the pair [(after, elapsedMs)]. *)
Definition attempt (step : Step) (inExt outFile srcForStep : string) : Async (option N * N) :=
  elapsedMs ← (if dryRun cfg then copyFile srcForStep outFile ≫= λ _, mret 0%N
               else runTool step inExt outFile srcForStep);
  after ← fileSize outFile;
  mret (after, elapsedMs).

(** Lines 62-110: the step is run on the file and its outcome classified. *)
Definition runStep (inputAbs inRoot outRoot : string) (step : Step) : Async StepOutcome :=
  let inExt := extOf inputAbs in
  let forcedExt := forcedExt_of step in
  let outFile := outPathForStep cwd inputAbs inRoot outRoot (preserveTree cfg)
                   (js_or (suffix step) "") forcedExt in
  _ ← ensureDirFor outFile;
  let srcForStep := inputAbs in
  before ← fileSize srcForStep;
  try_catch
    ('(after, elapsedMs) ← attempt step inExt outFile srcForStep;
     mret {| so_outFile := outFile; so_stage := name step; so_before := before;
             so_after := after; so_elapsedMs := elapsedMs; so_status := "ok";
             so_message := "" |})
    (λ e,
     mret {| so_outFile := outFile; so_stage := name step; so_before := before;
             so_after := None; so_elapsedMs := 0; so_status := "error";
             so_message := diagnostic e |}).

(** Whether the loop body goes past its two [continue]s (lines 59-61). *)
Definition applicable (inputAbs : string) (step : Step) : bool :=
  enabled step && bool_decide (extOf inputAbs ∈ matchExt step).

(** The body of the loop of line 58. *)
Definition stepBody (inputAbs inRoot outRoot : string) (step : Step) : Async unit :=
  if negb (enabled step) then mret tt
  else if negb (bool_decide (extOf inputAbs ∈ matchExt step)) then mret tt
  else
    o ← runStep inputAbs inRoot outRoot step;
    if writePerFile cfg then appendCsv (csvPath cfg) (csv_row (step_fields o))
    else mret tt.

(** [processOne(inputAbs, cfg)] *)
Definition processOne (inputAbs : string) : Async unit :=
  let inRoot := Path.resolve cwd [inputDir cfg] in
  let outRoot := Path.resolve cwd [outputDir cfg] in
  origSize ← fileSize inputAbs;
  _ ← for_of (pipeline cfg) (stepBody inputAbs inRoot outRoot);
  appendCsv (csvPath cfg) (csv_row (original_fields inputAbs origSize)).

End Program.

(** ** The scheduler (lines 142-153) *)

(** [conc] (line 142): [Math.max(1, Number(cfg.options.concurrency || 2))],
    for a [concurrency] that is an integer or is missing. *)
Definition conc_of (cfg : Config) : nat :=
  Z.to_nat (Z.max 1 (match concurrency cfg with
                     | Some c => if decide (c = 0%Z) then 2%Z else c
                     | None => 2%Z
                     end)).

(** Where a [worker()] is between two turns of the event loop. *)
Inductive worker_state : Type :=
| Claiming                  (* about to run [const i = idx++] *)
| Processing (i : nat)      (* awaiting [processOne(tasks[i], cfg)] *)
| Exited (i : nat).         (* left the loop on [i >= tasks.length] *)

Global Instance worker_state_eq_dec : EqDecision worker_state.
Proof. solve_decision. Defined.

(** The state the workers share: the index [idx], the workers, and the
    record of the run: the indices [processOne] was called on, in the order
    of the calls, and the calls that settled, with whether they fulfilled. *)
Record Sched : Type := {
  idx : nat;
  workers : list worker_state;
  started : list nat;
  settled : list (nat * bool);
}.

(** [Array.from({ length: conc }, () => worker())] *)
Definition sched_init (conc : nat) : Sched :=
  {| idx := 0; workers := replicate conc Claiming; started := []; settled := [] |}.

(** One turn of worker [w] for a task list of length [n].  A claiming worker
    reads and increments [idx] in one turn, and leaves the loop or calls
    [processOne]; a processing worker sees its call settle ([fulfilled] tells
    how, and the [try]/[catch] of lines 148-149 goes on in both cases). *)
Definition worker_turn (n : nat) (w : nat) (fulfilled : bool) (st : Sched) : option Sched :=
  match workers st !! w with
  | Some Claiming =>
      let i := idx st in
      if decide (n ≤ i)%nat then
        Some {| idx := S i; workers := <[w := Exited i]> (workers st);
                started := started st; settled := settled st |}
      else
        Some {| idx := S i; workers := <[w := Processing i]> (workers st);
                started := started st ++ [i]; settled := settled st |}
  | Some (Processing i) =>
      Some {| idx := idx st; workers := <[w := Claiming]> (workers st);
              started := started st; settled := settled st ++ [(i, fulfilled)] |}
  | Some (Exited _) | None => None
  end.

(** The turns a list of choices [(w, fulfilled)] takes, in order; a choice
    that names a worker with nothing to do is not a run. *)
Fixpoint sched_run (n : nat) (choices : list (nat * bool)) (st : Sched) : option Sched :=
  match choices with
  | [] => Some st
  | (w, fulfilled) :: rest =>
      match worker_turn n w fulfilled st with
      | Some st' => sched_run n rest st'
      | None => None
      end
  end.

(** [await Promise.all(...)] is over: every worker has left its loop. *)
Definition all_exited (st : Sched) : Prop :=
  ∀ w s, workers st !! w = Some s → ∃ i, s = Exited i.

(** The files [processOne] was called on, in the order of the calls. *)
Definition processed_files (tasks : list string) (st : Sched) : list string :=
  omap (λ i, tasks !! i) (started st).

(** The loop of [worker] (lines 144-151) when it is the only worker: the
    tasks one after the other, a rejection of [processOne] caught; what it
    writes to the console is left out. *)
Definition worker_alone (cwd : string) (env : Env) (cfg : Config) (tasks : list string)
    : Async unit :=
  for_of tasks (λ f, try_catch (processOne cwd env cfg f) (λ _, mret tt)).

(** ** Notions the statements use *)

(** *** Path derivation *)

(** The path the specification describes, with the extension left open:
    the output root joined with the directory of the input relative to the
    input root (empty when the tree is not preserved), joined with the base
    name of the input without its extension, separators in it replaced by
    the joiner, then the suffix, a dot and the extension. *)
Definition described_path (cwd inputAbs inRoot outRoot : string) (preserveTree : bool)
    (stepSuffix ext : string) : string :=
  let rel := Path.relative cwd inRoot inputAbs in
  let dir := if preserveTree then Path.dirname rel else "" in
  let base := Path.last_component rel in
  let stem := default base (Path.strip_suffix (Path.extname rel) base) in
  let name := JsString.replaceAll Path.sep "__" stem in
  Path.join [outRoot; dir; name +:+ stepSuffix +:+ "." +:+ ext].

(** The specification's words: the forced extension if given, else the
    original extension of the input. *)
Definition outPathForStep_spec (cwd inputAbs inRoot outRoot : string) (preserveTree : bool)
    (stepSuffix : string) (forcedExt : option string) : string :=
  described_path cwd inputAbs inRoot outRoot preserveTree stepSuffix
    (default (JsString.slice1 (Path.extname (Path.relative cwd inRoot inputAbs))) forcedExt).

(** The same with the extension the program takes: the forced extension if
    given and not empty, else the extension of the input in lower case. *)
Definition outPathForStep_lowercase (cwd inputAbs inRoot outRoot : string) (preserveTree : bool)
    (stepSuffix : string) (forcedExt : option string) : string :=
  described_path cwd inputAbs inRoot outRoot preserveTree stepSuffix
    (js_or forcedExt
       (JsString.toLowerCase
          (JsString.slice1 (Path.extname (Path.relative cwd inRoot inputAbs))))).

(** [outFile] of line 64, as [processOne] computes it for a step. *)
Definition step_outFile (cwd : string) (cfg : Config) (inputAbs : string) (step : Step) : string :=
  outPathForStep cwd inputAbs (Path.resolve cwd [inputDir cfg]) (Path.resolve cwd [outputDir cfg])
    (preserveTree cfg) (js_or (suffix step) "") (forcedExt_of step).

(** A name with no separator in it. *)
Definition plain_name (s : string) : bool :=
  negb (bool_decide (s = "")) && negb (JsString.has_char Path.sep s).

(** A name a directory can list: not empty, no separator, neither ["."]
    nor [".."]. *)
Definition valid_name (s : string) : bool :=
  plain_name s && negb (bool_decide (s = ".")) && negb (bool_decide (s = "..")).

Fixpoint valid_entry (e : dirent) : bool :=
  match e with
  | File n => valid_name n
  | Dir n sub => valid_name n && forallb valid_entry sub
  end.

Abbreviation valid_names := (Forall (λ s, valid_name s = true)).
Abbreviation plain_names := (Forall (λ s, plain_name s = true)).

(** The absolute path of the given segments. *)
Definition rooted (segs : list string) : string := String Path.sep (JsString.join "/" segs).

(** *** Tool invocations *)

(** The executable and the arguments of the branches of lines 76-101, the
    loop of lines 94-97 written as a filter and a last element; [None] for
    a name none of the branches knows. *)
Definition tool_invocation (cfg : Config) (step : Step) (inExt outFile src : string)
    : option (option string * list arg) :=
  if decide (name step = "pngquant") then
    Some (tools cfg !! "pngquant",
          profile_args cfg step "pngquant" ++ [AStr "--output"; AStr outFile; AStr src])
  else if decide (name step = "mozjpeg") then
    Some (tools cfg !! "mozjpeg",
          profile_args cfg step "mozjpeg" ++ [AStr "-outfile"; AStr outFile; AStr src])
  else if decide (name step = "imagemagick_compress") then
    let profileArgs :=
      profile_args cfg step
        (if decide (inExt = "png") then "imagemagick_png" else "imagemagick_jpg") in
    Some (tools cfg !! "magick",
          [AStr "convert"; AStr src]
          ++ filter (λ a, format_prefix_of a = None) profileArgs
          ++ [AStr (from_option (λ p, p +:+ outFile) outFile
                      (last (omap format_prefix_of profileArgs)))])
  else None.

(** The key under which a step looks its arguments up in a profile. *)
Definition profile_key_of (step : Step) (inExt : string) : option string :=
  if decide (name step = "pngquant") then Some "pngquant"
  else if decide (name step = "mozjpeg") then Some "mozjpeg"
  else if decide (name step = "imagemagick_compress") then
    Some (if decide (inExt = "png") then "imagemagick_png" else "imagemagick_jpg")
  else None.

(** The arguments of a tool that come from no profile. *)
Definition path_arguments (step : Step) (outFile src : string) : list arg :=
  if decide (name step = "pngquant") then [AStr "--output"; AStr outFile; AStr src]
  else if decide (name step = "mozjpeg") then [AStr "-outfile"; AStr outFile; AStr src]
  else [AStr "convert"; AStr src; AStr outFile].

(** The configuration has no profiles, or none of the step's profile name,
    or that profile has no entry under [key]. *)
Definition profile_missing (cfg : Config) (step : Step) (key : string) : Prop :=
  match profiles cfg with
  | None => True
  | Some ps =>
      match ps !! profile step with
      | None => True
      | Some p => p !! key = None
      end
  end.

(** The call reads the file [inputAbs]: a copy copies it, a tool gets it as
    its last argument (pngquant, mozjpeg) or as the argument after
    ["convert"] (magick). *)
Definition reads_original (inputAbs : string) (c : call) : Prop :=
  match c with
  | CopyFile src _ => src = inputAbs
  | ExecFile _ args =>
      (∃ profile flag out, args = profile ++ [AStr flag; AStr out; AStr inputAbs]) ∨
      (∃ clean target, args = [AStr "convert"; AStr inputAbs] ++ clean ++ [AStr target])
  | _ => True
  end.

(** *** Outcomes and rows *)

Definition error_outcome (outFile stage : string) (before : option N) (e : js_error)
    : StepOutcome :=
  {| so_outFile := outFile; so_stage := stage; so_before := before; so_after := None;
     so_elapsedMs := 0; so_status := "error"; so_message := diagnostic e |}.

Definition ok_outcome (outFile stage : string) (before after : option N) (elapsedMs : N)
    : StepOutcome :=
  {| so_outFile := outFile; so_stage := stage; so_before := before; so_after := after;
     so_elapsedMs := elapsedMs; so_status := "ok"; so_message := "" |}.

(** The percentage the specification describes, with the case of a missing
    output size added: empty when a size is missing or the source size is
    zero, else [((out - src) / src) * 100] with two decimals. *)
Definition delta_pct_described (src out : option N) : string :=
  match src, out with
  | Some s, Some o =>
      if decide (s = 0%N) then ""
      else JsNumber.toFixed2
             (PrimFloat.mul
                (PrimFloat.div (PrimFloat.sub (JsNumber.of_N o) (JsNumber.of_N s))
                   (JsNumber.of_N s))
                100%float)
  | _, _ => ""
  end.

(** The directories the calls made. *)
Definition mkdirs (calls : list call) : list string :=
  omap (λ c, match c with Mkdir p => Some p | _ => None end) calls.

(** The lines the calls appended, with the file of each. *)
Definition appended (calls : list call) : list (string * string) :=
  omap (λ c, match c with AppendFile p d => Some (p, d) | _ => None end) calls.

(** The computation only adds calls, and every call it adds satisfies [P]. *)
Definition extends {A : Type} (P : call → Prop) (m : Async A) : Prop :=
  ∀ h, ∃ calls, (m h).2 = h ++ calls ∧ Forall P calls.

(** A line appended is a step's row or the row of the original, with the
    [delta_pct] field (the sixth) as described. *)
Definition row_delta_pct (inputAbs : string) (c : call) : Prop :=
  ∀ p d, c = AppendFile p d →
    (∃ o, d = csv_row (step_fields o) +:+ JsString.LF ∧
          step_fields o !! 5%nat = Some (delta_pct_described (so_before o) (so_after o))) ∨
    (∃ sz, d = csv_row (original_fields inputAbs sz) +:+ JsString.LF ∧
           original_fields inputAbs sz !! 5%nat = Some "0.00").

(** A line appended before the last is the row of an applicable step of the
    pipeline, and steps are logged. *)
Definition step_call (cfg : Config) (inputAbs : string) (c : call) : Prop :=
  ∀ p d, c = AppendFile p d →
    writePerFile cfg = true ∧ p = csvPath cfg ∧
    ∃ step o, step ∈ pipeline cfg ∧ applicable inputAbs step = true ∧
              so_stage o = name step ∧ d = csv_row (step_fields o) +:+ JsString.LF.

(** *** The scheduler's accounts *)

Definition in_flight_of (s : worker_state) : option nat :=
  match s with
  | Processing i => Some i
  | _ => None
  end.

(** The indices whose [processOne] has not settled. *)
Definition in_flight (ws : list worker_state) : list nat := omap in_flight_of ws.

Definition exit_of (s : worker_state) : nat :=
  match s with
  | Exited _ => 1
  | _ => 0
  end.

Definition weight (s : worker_state) : nat :=
  match s with
  | Claiming => 1
  | Processing _ => 2
  | Exited _ => 0
  end.

(** The number of turns the workers still take. *)
Definition turns_left (n : nat) (st : Sched) : nat :=
  (sum_list (weight <$> workers st) + 2 * (n - idx st))%nat.

(** What every state of a run of [conc] workers over [n] tasks satisfies. *)
Record sched_inv (n conc : nat) (st : Sched) : Prop := {
  inv_workers : length (workers st) = conc;
  inv_started : started st = seq 0 (min (idx st) n);
  inv_idx : idx st = (min (idx st) n + sum_list (exit_of <$> workers st))%nat;
  inv_exited : ∀ w i, workers st !! w = Some (Exited i) → (n ≤ i)%nat;
  inv_account : started st ≡ₚ (settled st).*1 ++ in_flight (workers st);
}.

(** *** Directory trees *)

(** The number of files in the tree below an entry. *)
Fixpoint count_files (e : dirent) : nat :=
  match e with
  | File _ => 1
  | Dir _ sub => sum_list (count_files <$> sub)
  end.

(** The name under which a directory lists an entry. *)
Definition name_of (e : dirent) : string :=
  match e with
  | File n => n
  | Dir n _ => n
  end.

(** No directory of the tree lists a name twice. *)
Fixpoint distinct_names (e : dirent) : bool :=
  match e with
  | File _ => true
  | Dir _ sub => bool_decide (NoDup (name_of <$> sub)) && forallb distinct_names sub
  end.

(** The path [walk] yields for an entry of [dir] that is a file. *)
Definition direct_file (dir : string) (e : dirent) : option string :=
  match e with
  | File n => Some (Path.join [dir; n])
  | Dir _ _ => None
  end.

(** The files of the tree below an entry, each as the names from the entry
    down to the file, in the order of the listings. *)
Fixpoint files_below (e : dirent) : list (list string) :=
  match e with
  | File n => [[n]]
  | Dir n sub => (n ::.) <$> flat_map files_below sub
  end.

(** The name of an entry that is a file. *)
Definition file_name (e : dirent) : option string :=
  match e with
  | File n => Some n
  | Dir _ _ => None
  end.

(** Every code unit of the string is below 128. *)
Fixpoint ascii_only (s : string) : bool :=
  match s with
  | EmptyString => true
  | String c s' => (N_of_ascii c <? 128)%N && ascii_only s'
  end.

(** *** Lines of the log and calls *)

(** A line of the log with the columns of the header: it goes to the log
    of the configuration and is fields without a comma, as many as the
    header names, joined by commas and ended by a line feed. *)
Definition row_of_columns (cfg : Config) (c : call) : Prop :=
  ∀ p d, c = AppendFile p d →
    p = csvPath cfg ∧
    ∃ fields,
      d = JsString.join "," fields +:+ JsString.LF ∧
      Forall (λ f, JsString.has_char ","%char f = false) fields ∧
      JsString.split ","%char (JsString.join "," fields) = fields ∧
      length (JsString.split ","%char d) = length (JsString.split ","%char csv_header).

(** The rows of the steps, in the order of the outcomes. *)
Definition step_rows (cfg : Config) (os : list StepOutcome) : list (string * string) :=
  (λ o, (csvPath cfg, csv_row (step_fields o) +:+ JsString.LF)) <$> os.

(** The lines of the log for one file: the rows of its applicable steps, in
    the order of the pipeline, when the rows of steps are enabled, and the
    row of the original. *)
Definition rows_of_file (cwd : string) (cfg : Config) (f : string)
    (group : list (string * string)) : Prop :=
  ∃ os sz,
    Forall2 (λ o step, so_stage o = name step ∧ so_outFile o = step_outFile cwd cfg f step)
      os (filter (λ s, applicable f s = true) (pipeline cfg)) ∧
    group = (if writePerFile cfg then step_rows cfg os else [])
            ++ [(csvPath cfg, csv_row (original_fields f sz) +:+ JsString.LF)].

(** What a call of [processOne] on [inputAbs] may be: a [stat] of the input
    or of the output of an applicable step, the making of the directory of
    such an output, in a dry run a copy of the input to such an output,
    outside a dry run the tool of such a step, or an append to the log. *)
Definition footprint (cwd : string) (cfg : Config) (inputAbs : string) (c : call) : Prop :=
  let output_of (p : string) (step : Step) :=
    step ∈ pipeline cfg ∧ applicable inputAbs step = true ∧
    p = step_outFile cwd cfg inputAbs step in
  match c with
  | Stat p => p = inputAbs ∨ ∃ step, output_of p step
  | Mkdir d => ∃ p step, output_of p step ∧ d = Path.dirname p
  | CopyFile src dst => dryRun cfg = true ∧ src = inputAbs ∧ ∃ step, output_of dst step
  | ExecFile cmd args =>
      dryRun cfg = false ∧
      ∃ p step, output_of p step ∧
                tool_invocation cfg step (extOf inputAbs) p inputAbs = Some (cmd, args)
  | AppendFile p _ => p = csvPath cfg
  end.

(** The argument at the place of the source among the arguments of the
    tool of [step]: the last one for pngquant and mozjpeg (lines 79 and
    85), the one after ["convert"] for magick (line 98). *)
Definition source_argument (step : Step) (args : list arg) : option arg :=
  if decide (name step = "pngquant") then last args
  else if decide (name step = "mozjpeg") then last args
  else if decide (name step = "imagemagick_compress") then args !! 1%nat
  else None.

(** A copy or a run of the tool of [step] that takes the file [p] as its
    source. *)
Definition takes_source (step : Step) (p : string) (c : call) : Prop :=
  match c with
  | CopyFile src _ => src = p
  | ExecFile _ args => source_argument step args = Some (AStr p)
  | _ => False
  end.

(** A copy to the output path of [step] for [inputAbs], or a run of the
    tool of [step] with that output path, whatever the source. *)
Definition made_for (cwd : string) (cfg : Config) (inputAbs : string) (step : Step)
    (c : call) : Prop :=
  match c with
  | CopyFile _ dst => dst = step_outFile cwd cfg inputAbs step
  | ExecFile cmd args =>
      ∃ src, tool_invocation cfg step (extOf inputAbs) (step_outFile cwd cfg inputAbs step) src
             = Some (cmd, args)
  | _ => False
  end.

(** A copy or a run of a tool is made for an applicable step of the
    pipeline, and the file it takes as its source is [inputAbs] and no
    other file. *)
Definition transforms_original (cwd : string) (cfg : Config) (inputAbs : string)
    (c : call) : Prop :=
  match c with
  | CopyFile _ _ | ExecFile _ _ =>
      ∃ step, step ∈ pipeline cfg ∧ applicable inputAbs step = true ∧
              made_for cwd cfg inputAbs step c ∧
              ∀ p, takes_source step p c ↔ p = inputAbs
  | _ => True
  end.

(** [cfg] with another pipeline. *)
Definition with_pipeline (cfg : Config) (steps : list Step) : Config :=
  {| inputDir := inputDir cfg; outputDir := outputDir cfg; tools := tools cfg;
     includeExt := includeExt cfg; excludePatterns := excludePatterns cfg;
     pipeline := steps; profiles := profiles cfg; recursive := recursive cfg;
     preserveTree := preserveTree cfg; dryRun := dryRun cfg; concurrency := concurrency cfg;
     writePerFile := writePerFile cfg; csvPath := csvPath cfg |}.

(** The call [c], made after the calls [h], failed with [e], and it is the
    making of a directory or an append to the log. *)
Definition failed_call (env : Env) (h : list call) (c : call) (e : js_error) : Prop :=
  match c with
  | Mkdir p => on_mkdir env h p = Some e
  | AppendFile p d => on_appendFile env h p d = Some e
  | _ => False
  end.

(** The computation only adds calls, and when it throws, it throws what
    its last call failed with, a [mkdir] or an append. *)
Definition blames {A : Type} (env : Env) (m : Async A) : Prop :=
  ∀ h, match m h with
       | (Returned _, h') => ∃ calls, h' = h ++ calls
       | (Thrown e, h') => ∃ calls c, h' = h ++ calls ++ [c] ∧ failed_call env (h ++ calls) c e
       end.

(** With one worker: what has started is what has settled followed by the
    file in flight, if there is one. *)
Definition one_at_a_time (st : Sched) : Prop :=
  ∃ s, workers st = [s] ∧ started st = (settled st).*1 ++ in_flight [s].

(** The state in which the first [j] workers each process a file and the
    others have not claimed yet. *)
Definition all_claimed (conc j : nat) : Sched :=
  {| idx := j; workers := (Processing <$> seq 0 j) ++ replicate (conc - j) Claiming;
     started := seq 0 j; settled := [] |}.

(** *** A configuration and environments to run the program on *)

Definition example_step (nm sfx : string) (exts : list string) : Step :=
  {| name := nm; enabled := true; matchExt := exts; suffix := Some sfx; profile := "default" |}.

Definition example_cfg (steps : list Step) (dry log : bool) : Config :=
  {| inputDir := "/in"; outputDir := "/out";
     tools := <["pngquant" := "pngquant"]> (<["mozjpeg" := "cjpeg"]> (<["magick" := "magick"]> ∅));
     includeExt := ["png"; "jpg"; "jpeg"]; excludePatterns := ["skip/"];
     pipeline := steps;
     profiles := Some (<["default" :=
                   <["pngquant" := [AStr "--quality"; AStr "60-80"]]>
                   (<["imagemagick_png" := [AStr "PNG8:"; AStr "-strip"; ANum 8]]> ∅)]> ∅);
     recursive := true; preserveTree := false; dryRun := dry; concurrency := Some 2%Z;
     writePerFile := log; csvPath := "metrics.csv" |}.

(** An environment in which [/in/a.png] has [srcSize] bytes and every other
    file [outSize]; directories cannot be made when [mkdir_fails], and every
    tool fails when [tool_fails]. *)
Definition example_env (mkdir_fails tool_fails : bool) (srcSize outSize : N) : Env :=
  {| on_stat := λ _ p, if decide (p = "/in/a.png") then Some srcSize else Some outSize;
     on_mkdir := λ _ _, if mkdir_fails then Some (Error "EACCES: permission denied") else None;
     on_copyFile := λ _ _ _, None;
     on_execFile := λ _ _ _,
       if tool_fails
       then inr {| stderr := Some ("error: cannot decode" +:+ JsString.LF +:+ "image");
                   message := Some "Command failed" |}
       else inl 5%N;
     on_appendFile := λ _ _ _, None |}.

(** * Properties *)

#[local] Arguments String.append !s1 s2 : simpl nomatch.

(** ** The model on the examples of Node's documentation and test suite *)

Module PathExamples.
Import Path.

Example extname_examples :
  extname "index.html" = ".html" ∧ extname "index.coffee.md" = ".md" ∧
  extname "index." = "." ∧ extname "index" = "" ∧ extname ".index" = "" ∧
  extname ".index.md" = ".md" ∧ extname ".." = "" ∧ extname "..." = "." ∧
  extname "..x" = ".x" ∧ extname "/a.b/c" = "" ∧ extname "a.png//" = ".png" ∧
  extname "" = "" ∧ extname "/" = "".
Proof. vm_compute. repeat split. Qed.

Example basename_examples :
  basename "/foo/bar/baz/asdf/quux.html" "" = "quux.html" ∧
  basename "/foo/bar/baz/asdf/quux.html" ".html" = "quux" ∧
  basename "aaa/bbb" "bbb" = "bbb" ∧ basename "aaa/bbb//" "bbb" = "bbb" ∧
  basename "aaa/bbb" "bb" = "b" ∧ basename "aaa/bbb" "a/bbb" = "bbb" ∧
  basename "/aaa/" "" = "aaa" ∧ basename "//" "" = "" ∧ basename "" "" = "" ∧
  basename "a.png/" ".png" = "a" ∧ basename "..x" ".x" = ".".
Proof. vm_compute. repeat split. Qed.

Example dirname_examples :
  dirname "/foo/bar/baz/asdf/quux" = "/foo/bar/baz/asdf" ∧
  dirname "/a/b/" = "/a" ∧ dirname "/a" = "/" ∧ dirname "" = "." ∧
  dirname "/" = "/" ∧ dirname "////" = "/" ∧ dirname "//a" = "//" ∧
  dirname "foo" = "." ∧ dirname "a/b" = "a" ∧ dirname "a//b" = "a/".
Proof. vm_compute. repeat split. Qed.

Example normalize_examples :
  normalize "/foo/bar//baz/asdf/quux/.." = "/foo/bar/baz/asdf" ∧
  normalize "./fixtures///b/../b/c.js" = "fixtures/b/c.js" ∧
  normalize "/foo/../../../bar" = "/bar" ∧ normalize "a//b//../b" = "a/b" ∧
  normalize "a//b//./c" = "a/b/c" ∧ normalize "a//b//." = "a/b" ∧
  normalize "/a/b/c/../../../x/y/z" = "/x/y/z" ∧ normalize "///..//./foo/.//bar" = "/foo/bar" ∧
  normalize "bar/foo../../" = "bar/" ∧ normalize "../foo../../../bar" = "../../bar" ∧
  normalize "../.../.././.../../../bar" = "../../bar" ∧ normalize "" = "." ∧
  normalize "./" = "./" ∧ normalize "foo/.." = ".".
Proof. vm_compute. repeat split. Qed.

Example join_examples :
  join ["/foo"; "bar"; "baz/asdf"; "quux"; ".."] = "/foo/bar/baz/asdf" ∧
  join ["."; "x/b"; ".."; "/b/c.js"] = "x/b/c.js" ∧ join [] = "." ∧
  join ["/foo"; "../../../bar"] = "/bar" ∧ join [""; ""] = "." ∧
  join ["/"; ".."; ".."] = "/" ∧ join [" "; "."] = " " ∧ join [""; "/foo"] = "/foo" ∧
  join ["/out"; ""; "a_q.png"] = "/out/a_q.png" ∧ join ["/out"; "."; "a_q.png"] = "/out/a_q.png".
Proof. vm_compute. repeat split. Qed.

Example resolve_examples :
  resolve "/home/u" ["/foo/bar"; "./baz"] = "/foo/bar/baz" ∧
  resolve "/home/u" ["/foo/bar"; "/tmp/file/"] = "/tmp/file" ∧
  resolve "/home/u" ["wwwroot"; "static_files/png/"; "../gif/image.gif"]
    = "/home/u/wwwroot/static_files/gif/image.gif" ∧
  resolve "/home/u" ["."] = "/home/u" ∧ resolve "/home/u" [""] = "/home/u" ∧
  resolve "/home/u" ["/some/dir"; "."; "/absolute/"] = "/absolute" ∧
  resolve "/" [".."] = "/".
Proof. vm_compute. repeat split. Qed.

Example relative_examples :
  relative "/" "/data/orandea/test/aaa" "/data/orandea/impl/bbb" = "../../impl/bbb" ∧
  relative "/" "/var/lib" "/var" = ".." ∧ relative "/" "/var/lib" "/bin" = "../../bin" ∧
  relative "/" "/var/lib" "/var/lib" = "" ∧ relative "/" "/var/lib" "/var/apache" = "../apache" ∧
  relative "/" "/var/" "/var/lib" = "lib" ∧ relative "/" "/" "/var/lib" = "var/lib" ∧
  relative "/" "/foo/test" "/foo/test/bar/package.json" = "bar/package.json" ∧
  relative "/" "/Users/a/web/b/test/mails" "/Users/a/web/b" = "../.." ∧
  relative "/" "/foo/bar/baz-quux" "/foo/bar/baz" = "../baz" ∧
  relative "/" "/baz-quux" "/baz" = "../baz" ∧ relative "/" "/page1/page2/foo" "/" = "../../..".
Proof. vm_compute. repeat split. Qed.

Example extname_examples_more :
  extname "...ext" = ".ext" ∧ extname ".file." = "." ∧ extname "../" = "" ∧ extname "./" = "" ∧
  extname "file.ext//" = ".ext" ∧ extname "file./" = "." ∧ extname ".file.." = "." ∧
  extname "file..ext.." = "." ∧ extname "...." = "." ∧ extname "/.file.ext" = ".ext" ∧
  extname "a.b/.." = "".
Proof. vm_compute. repeat split. Qed.

Example basename_examples_more :
  basename ".js" ".js" = "" ∧ basename "js" ".js" = "js" ∧ basename "file.js" ".ts" = "file.js" ∧
  basename "file.js.old" ".js.old" = "file" ∧ basename "aaa/bbb" "/bbb" = "bbb" ∧
  basename "aaa/bbb" "b" = "bb" ∧ basename "/aaa/bbb" "bbb" = "bbb" ∧ basename "//a" "" = "a" ∧
  basename "a" "a" = "" ∧ basename "/aaa/b" "" = "b" ∧ basename "basename.ext//" "" = "basename.ext".
Proof. vm_compute. repeat split. Qed.

Example normalize_examples_more :
  normalize "bar/foo../.." = "bar" ∧ normalize "bar/foo../../baz" = "bar/baz" ∧
  normalize "bar/foo../" = "bar/foo../" ∧ normalize "bar/foo.." = "bar/foo.." ∧
  normalize "../../../foo/../../../bar" = "../../../../../bar" ∧
  normalize "../../../foo/../../../bar/../../" = "../../../../../../" ∧
  normalize "../foobar/barfoo/foo/../../../bar/../../" = "../../" ∧
  normalize "/../../../foo/../../../bar/../../" = "/" ∧
  normalize "a/b/../../../../c" = "../../c".
Proof. vm_compute. repeat split. Qed.

Example join_examples_more :
  join ["./"] = "./" ∧ join ["."; "./"] = "./" ∧ join [""; "."] = "." ∧
  join ["foo"; "../../bar"] = "../bar" ∧ join ["foo/"; "../../bar"] = "../bar" ∧
  join [" "; "foo"] = " /foo" ∧ join ["/"; "//foo"] = "/foo" ∧ join ["/"; ""; "/foo"] = "/foo" ∧
  join [""; "/"; "foo"] = "/foo" ∧ join [""; "/"; "/foo"] = "/foo" ∧ join ["/."; "."] = "/" ∧
  join ["./"; ".."; "/foo"] = "../foo" ∧ join ["./"; ".."; ".."; "/foo"] = "../../foo" ∧
  join ["foo"; ""; "/bar"] = "foo/bar" ∧ join ["/"; "."] = "/" ∧
  join ["foo/x"; "./bar"] = "foo/x/bar" ∧ join ["."; "."; "."] = "." ∧ join ["/"; "/"] = "/".
Proof. vm_compute. repeat split. Qed.

End PathExamples.

Module NumberExamples.
Import JsNumber.

Example toFixed2_examples :
  toFixed2 (-40)%float = "-40.00" ∧ toFixed2 3.125%float = "3.13" ∧
  toFixed2 1.005%float = "1.00" ∧ toFixed2 0.5%float = "0.50" ∧
  toFixed2 (-0.001)%float = "-0.00" ∧ toFixed2 1234.5678%float = "1234.57" ∧
  toFixed2 0.045%float = "0.04" ∧ toFixed2 10.235%float = "10.23" ∧
  toFixed2 2.5%float = "2.50" ∧ toFixed2 0.009%float = "0.01".
Proof. vm_compute. repeat split. Qed.

End NumberExamples.

(** ** The program on examples *)

Example outPathForStep_flat :
  outPathForStep "/w" "/in/sub/Photo.PNG" "/in" "/out" false "_q" None = "/out/Photo_q.png".
Proof. vm_compute. reflexivity. Qed.

Example outPathForStep_tree :
  outPathForStep "/w" "/in/sub/Photo.PNG" "/in" "/out" true "_m" (Some "jpg")
  = "/out/sub/Photo_m.jpg".
Proof. vm_compute. reflexivity. Qed.

Example walk_example :
  walk "/in" true [File "a.png"; Dir "sub" [File "b.JPG"; Dir "t" [File "c"]]; File "d.txt"]
  = ["/in/a.png"; "/in/sub/b.JPG"; "/in/sub/t/c"; "/in/d.txt"] ∧
  walk "/in" false [File "a.png"; Dir "sub" [File "b.JPG"]; File "d.txt"]
  = ["/in/a.png"; "/in/d.txt"].
Proof. vm_compute. split; reflexivity. Qed.

Example pct_examples :
  pct (Some 100%N) 60 = "-40.00" ∧ pct (Some 100%N) 100 = "0.00" ∧
  pct (Some 3%N) 4 = "33.33" ∧ pct (Some 32%N) 33 = "3.13" ∧
  pct (Some 0%N) 7 = "" ∧ pct None 7 = "" ∧ pct (Some 7%N) 0 = "-100.00" ∧
  pct (Some 1000%N) 999 = "-0.10" ∧ pct (Some 3%N) 1 = "-66.67".
Proof. vm_compute. repeat split. Qed.

Example sched_run_example :
  sched_run 3 [(0, true); (1, true); (1, false); (1, true); (0, true); (0, true); (1, true); (1, true)]
            (sched_init 2)
  = Some {| idx := 5; workers := [Exited 3; Exited 4]; started := [0; 1; 2];
            settled := [(1, false); (0, true); (2, true)] |}.
Proof. vm_compute. reflexivity. Qed.

(** The first scenario of the specification: one file of 100 bytes, one
    [pngquant] step, a tool that leaves 60 bytes. *)
Example processOne_scenario :
  processOne "/w" (example_env false false 100 60)
    (example_cfg [example_step "pngquant" "_q" ["png"]] false true) "/in/a.png" []
  = (Returned tt,
     [ Stat "/in/a.png"; Mkdir "/out"; Stat "/in/a.png";
       ExecFile (Some "pngquant")
         [AStr "--quality"; AStr "60-80"; AStr "--output"; AStr "/out/a_q.png"; AStr "/in/a.png"];
       Stat "/out/a_q.png";
       AppendFile "metrics.csv"
         ("/out/a_q.png,pngquant,100,60,-40,-40.00,5,ok,"
          +:+ String quote (String quote JsString.LF));
       AppendFile "metrics.csv" ("/in/a.png,ORIGINAL,100,100,0,0.00,,ok," +:+ JsString.LF) ]).
Proof. vm_compute. reflexivity. Qed.

(** A tool that fails, then a step no branch knows: both rows say so, and
    the row of the original follows. *)
Example processOne_failure_scenario :
  processOne "/w" (example_env false true 100 60)
    (example_cfg [example_step "imagemagick_compress" "_im" ["png"];
                  example_step "nosuchtool" "_x" ["png"]] false true) "/in/a.png" []
  = (Returned tt,
     [ Stat "/in/a.png"; Mkdir "/out"; Stat "/in/a.png";
       ExecFile (Some "magick")
         [AStr "convert"; AStr "/in/a.png"; AStr "-strip"; ANum 8; AStr "PNG8:/out/a_im.png"];
       AppendFile "metrics.csv"
         ("/out/a_im.png,imagemagick_compress,100,,,,0,error,"
          +:+ String quote ("error: cannot decode image" +:+ String quote JsString.LF));
       Mkdir "/out"; Stat "/in/a.png";
       AppendFile "metrics.csv"
         ("/out/a_x.png,nosuchtool,100,,,,0,error,"
          +:+ String quote ("Unknown step: nosuchtool" +:+ String quote JsString.LF));
       AppendFile "metrics.csv" ("/in/a.png,ORIGINAL,100,100,0,0.00,,ok," +:+ JsString.LF) ]).
Proof. vm_compute. reflexivity. Qed.

(** A dry run copies the file, whatever the step is called. *)
Example processOne_dry_run :
  processOne "/w" (example_env false true 100 100)
    (example_cfg [example_step "nosuchtool" "_x" ["png"]] true false) "/in/a.png" []
  = (Returned tt,
     [ Stat "/in/a.png"; Mkdir "/out"; Stat "/in/a.png";
       CopyFile "/in/a.png" "/out/a_x.png"; Stat "/out/a_x.png";
       AppendFile "metrics.csv" ("/in/a.png,ORIGINAL,100,100,0,0.00,,ok," +:+ JsString.LF) ]).
Proof. vm_compute. reflexivity. Qed.

Example discover_example :
  discover "/w" (example_cfg [] false true)
    [File "a.png"; File "b.txt"; Dir "skip" [File "c.png"]; Dir "sub" [File "Photo.PNG"]]
  = ["/in/a.png"; "/in/sub/Photo.PNG"].
Proof. vm_compute. reflexivity. Qed.

(** ** Facts about strings *)

Module StringFacts.
Import JsString.

Lemma append_nil_r (s : string) : s +:+ "" = s.
Proof. induction s; simpl; by f_equal. Qed.

Lemma append_assoc (a b c : string) : a +:+ b +:+ c = (a +:+ b) +:+ c.
Proof. induction a; simpl; by f_equal. Qed.

Lemma length_append (a b : string) :
  String.length (a +:+ b) = (String.length a + String.length b)%nat.
Proof. induction a; simpl; by f_equal. Qed.

(** [startsWith] is being a prefix. *)
Lemma startsWith_spec p s : startsWith p s = true ↔ ∃ post, s = p +:+ post.
Proof.
  revert s. induction p as [|a p IH]; intros s; simpl.
  - split; [eauto|done].
  - destruct s as [|b s].
    + split; [done|]. by intros [post ?].
    + case_decide as Hab.
      * subst b. rewrite IH. split; intros [post Hpost]; exists post; simpl in *; congruence.
      * split; [done|]. intros [post Hpost]. simpl in Hpost. congruence.
Qed.

(** [includes] is occurring as a substring. *)
Lemma includes_spec pat s :
  includes pat s = true ↔ ∃ pre post, s = pre +:+ pat +:+ post.
Proof.
  induction s as [|a s IH]; simpl.
  - rewrite orb_false_r, startsWith_spec. split.
    + intros [post ->]. by exists "", post.
    + intros (pre & post & H). destruct pre; simpl in H; [eauto|done].
  - rewrite orb_true_iff, startsWith_spec, IH. split.
    + intros [[post ->]|(pre & post & ->)].
      * by exists "", post.
      * by exists (String a pre), post.
    + intros (pre & post & H). destruct pre as [|b pre]; simpl in H.
      * left. eauto.
      * right. exists pre, post. congruence.
Qed.

(** [endsWith] is being a suffix. *)
Lemma endsWith_spec suf s : endsWith suf s = true ↔ ∃ pre, s = pre +:+ suf.
Proof.
  induction s as [|a s IH]; simpl.
  - rewrite orb_false_r, bool_decide_eq_true. split.
    + intros <-. by exists "".
    + intros [pre H]. destruct pre; simpl in H; [done|done].
  - rewrite orb_true_iff, bool_decide_eq_true, IH. split.
    + intros [<-|[pre ->]]; [by exists ""|by exists (String a pre)].
    + intros [pre H]. destruct pre as [|b pre]; simpl in H; [by left|].
      right. exists pre. congruence.
Qed.

Lemma toLowerCase_slice1 s : toLowerCase (slice1 s) = slice1 (toLowerCase s).
Proof. by destruct s. Qed.

Lemma split_nonnil c s : split c s ≠ [].
Proof. destruct s as [|a s]; simpl; [done|]. case_decide; [done|]. by destruct (split c s). Qed.

(** Splitting at a character and joining with [r] replaces the character
    by [r]. *)
Lemma join_split_replaceAll c r s : join r (split c s) = replaceAll c r s.
Proof.
  induction s as [|a s IH]; simpl; [done|].
  pose proof (split_nonnil c s) as Hne.
  case_decide.
  - unfold join in *. simpl. destruct (split c s) eqn:Hs; [done|]. simpl. by rewrite <- IH.
  - unfold join in *. destruct (split c s) as [|x xs] eqn:Hs; [done|].
    rewrite <- IH. simpl. by destruct xs.
Qed.

Lemma has_char_app c a b : has_char c (a +:+ b) = has_char c a || has_char c b.
Proof. induction a; simpl; [done|]. by rewrite IHa, orb_assoc. Qed.

Lemma split_has_char c s x : x ∈ split c s → has_char c x = false.
Proof.
  revert x. induction s as [|a s IH]; intros x; simpl.
  - by intros ->%list_elem_of_singleton.
  - case_decide as Hac.
    + intros [->|?]%elem_of_cons; [done|by apply IH].
    + pose proof (split_nonnil c s). destruct (split c s) as [|y ys]; [done|].
      intros [->|?]%elem_of_cons.
      * simpl. rewrite bool_decide_eq_false_2 by done. apply IH. left.
      * apply IH. by right.
Qed.

Lemma split_length c s x : x ∈ split c s → (String.length x ≤ String.length s)%nat.
Proof.
  revert x. induction s as [|a s IH]; intros x; simpl.
  - by intros ->%list_elem_of_singleton.
  - case_decide as Hac.
    + intros [->|Hx]%elem_of_cons; [simpl; lia|]. specialize (IH x Hx). lia.
    + pose proof (split_nonnil c s). destruct (split c s) as [|y ys]; [done|].
      intros [->|Hx]%elem_of_cons.
      * simpl. specialize (IH y (list_elem_of_here _ _)). lia.
      * specialize (IH x (list_elem_of_further _ _ _ Hx)). lia.
Qed.

(** A string without the separator is its only segment. *)
Lemma split_no_char c s : has_char c s = false → split c s = [s].
Proof.
  induction s as [|a s IH]; simpl; [done|].
  intros [Ha Hs]%orb_false_iff. apply bool_decide_eq_false in Ha.
  rewrite decide_False by done. by rewrite IH.
Qed.

Lemma replaceAll_absent c r s : has_char c s = false → replaceAll c r s = s.
Proof.
  induction s as [|a s IH]; simpl; [done|].
  intros [Ha ?]%orb_false_iff. apply bool_decide_eq_false in Ha.
  rewrite decide_False by done. by rewrite IH.
Qed.

Lemma toLowerCase_empty e : toLowerCase e = "" → e = "".
Proof. by destruct e. Qed.

End StringFacts.

(** ** Facts about paths *)

Module PathFacts.
Import JsString StringFacts.

(** A segment is not empty, has no separator and is no longer than the
    path. *)
Lemma segments_elem p x :
  x ∈ Path.segments p →
  x ≠ "" ∧ has_char Path.sep x = false ∧ (String.length x ≤ String.length p)%nat.
Proof.
  unfold Path.segments. rewrite list_elem_of_filter. intros [Hne Hx].
  eauto using split_has_char, split_length.
Qed.

Lemma last_elem_of {A} (l : list A) d : l ≠ [] → List.last l d ∈ l.
Proof.
  induction l as [|a [|b l] IH]; [done|left|].
  intros _. right. by apply IH.
Qed.

Lemma last_component_cases p :
  (Path.segments p = [] ∧ Path.last_component p = "") ∨
  Path.last_component p ∈ Path.segments p.
Proof.
  unfold Path.last_component. destruct (Path.segments p) eqn:Hs; [by left|].
  right. by apply last_elem_of.
Qed.

Lemma last_component_no_sep p : has_char Path.sep (Path.last_component p) = false.
Proof.
  destruct (last_component_cases p) as [[_ ->]|H]; [done|].
  by apply segments_elem in H as (_ & ? & _).
Qed.

Lemma last_component_length p :
  (String.length (Path.last_component p) ≤ String.length p)%nat.
Proof.
  destruct (last_component_cases p) as [[_ ->]|H]; [simpl; lia|].
  by apply segments_elem in H as (_ & _ & ?).
Qed.

Lemma last_component_plain s :
  s ≠ "" → has_char Path.sep s = false → Path.last_component s = s.
Proof.
  intros Hne Hs. unfold Path.last_component, Path.segments.
  rewrite (split_no_char _ _ Hs). by rewrite filter_cons_True, filter_nil.
Qed.

(** What [last_dot] splits off starts with a dot and has no other. *)
Lemma last_dot_Some c stem ext :
  Path.last_dot c = Some (stem, ext) →
  c = stem +:+ ext ∧ ∃ e, ext = String dot e ∧ has_char dot e = false.
Proof.
  revert stem ext. induction c as [|a c IH]; intros stem ext; simpl; [done|].
  destruct (Path.last_dot c) as [[stem' ext']|] eqn:Hc.
  - intros [= <- <-]. destruct (IH _ _ eq_refl) as [-> He]. done.
  - case_decide as Ha; [|done]. intros [= <- <-]. subst a. split; [done|].
    exists c. split; [done|]. clear -Hc.
    induction c as [|b c IH]; simpl in *; [done|].
    destruct (Path.last_dot c) as [[??]|]; [done|].
    destruct (decide (b = Path.sep)) as [| _]; destruct (decide (b = dot)) as [|Hb]; try done;
      rewrite (bool_decide_eq_false_2 _ Hb); by apply IH.
Qed.

Lemma strip_suffix_app suf a : Path.strip_suffix suf (a +:+ suf) = Some a.
Proof.
  induction a as [|x a IH]; simpl.
  - destruct suf; simpl; [done|]. by rewrite decide_True.
  - rewrite decide_False.
    + by rewrite IH.
    + intros H. apply (f_equal String.length) in H. simpl in H.
      rewrite length_append in H. lia.
Qed.

Lemma strip_suffix_empty s : Path.strip_suffix "" s = Some s.
Proof.
  induction s as [|x s IH]; simpl; [done|]. by rewrite IH.
Qed.

(** [baseNameNoExt] is the last component without its extension. *)
Lemma baseNameNoExt_stem p :
  baseNameNoExt p =
  default (Path.last_component p) (Path.strip_suffix (Path.extname p) (Path.last_component p)).
Proof.
  unfold baseNameNoExt, Path.basename, Path.extname.
  set (c := Path.last_component p).
  destruct (Path.last_dot c) as [[stem ext]|] eqn:Hd; simpl.
  2:{ by rewrite strip_suffix_empty. }
  destruct (bool_decide (stem = "") || bool_decide (c = "..")) eqn:Hq; simpl.
  { by rewrite strip_suffix_empty. }
  apply orb_false_iff in Hq as [Hstem Hdd].
  apply bool_decide_eq_false in Hstem.
  destruct (last_dot_Some _ _ _ Hd) as [Hc (e & -> & He)].
  rewrite bool_decide_eq_true_2 by done. simpl.
  pose proof (last_component_length p) as Hlen. fold c in Hlen.
  rewrite Hc in Hlen. rewrite length_append in Hlen. simpl in Hlen.
  destruct p as [|p0 p']; [simpl in Hlen; lia|].
  cbn [String.length].
  destruct (String.length e <=? _)%nat eqn:Hle.
  2:{ apply Nat.leb_gt in Hle. simpl in *; lia. }
  rewrite decide_False.
  2:{ intros Heq. 
      assert (Path.last_component (String p0 p') = String dot e) as Hlc.
      { rewrite <- Heq. apply last_component_plain; [done|].
        pose proof (last_component_no_sep (String p0 p')) as Hns. fold c in Hns.
        rewrite Hc, has_char_app in Hns. by apply orb_false_iff in Hns as [_ ?]. }
      fold c in Hlc. rewrite Hc in Hlc.
      apply (f_equal String.length) in Hlc. rewrite length_append in Hlc. simpl in Hlc.
      destruct stem; simpl in *; [done|lia]. }
  rewrite Hc, strip_suffix_app. simpl. by destruct stem.
Qed.

(** There is no separator in [baseNameNoExt p]: the [split] and [join] of
    line 40 change nothing. *)
Lemma baseNameNoExt_no_sep p : has_char Path.sep (baseNameNoExt p) = false.
Proof.
  rewrite baseNameNoExt_stem.
  pose proof (last_component_no_sep p) as Hc.
  destruct (Path.strip_suffix _ _) as [stem|] eqn:Hs; simpl; [|done].
  clear -Hs Hc. revert stem Hs Hc. generalize (Path.extname p) as suf.
  induction (Path.last_component p) as [|a c IH]; intros suf stem; simpl.
  - case_decide; [by intros [= <-]|done].
  - case_decide; [by intros [= <-]|].
    destruct (Path.strip_suffix suf c) as [st|] eqn:Hst; [|done].
    simpl. intros [= <-] [Ha Hc]%orb_false_iff. simpl. rewrite Ha. by eapply IH.
Qed.

Lemma resolve_absolute cwd cwd' p :
  Path.isAbsolute p = true → Path.resolve cwd [p] = Path.resolve cwd' [p].
Proof.
  intros Hp. unfold Path.resolve. simpl.
  destruct p as [|a p]; [done|]. rewrite decide_False by done. by rewrite Hp.
Qed.

(** [path.relative] of absolute paths does not read the working directory. *)
Lemma relative_absolute cwd cwd' from to :
  Path.isAbsolute from = true → Path.isAbsolute to = true →
  Path.relative cwd from to = Path.relative cwd' from to.
Proof.
  intros Hf Ht. unfold Path.relative.
  by rewrite (resolve_absolute cwd cwd' from Hf), (resolve_absolute cwd cwd' to Ht).
Qed.

End PathFacts.

Module SegmentFacts.
Import JsString StringFacts PathFacts.

(** Splitting distributes over a separator. *)
Lemma split_app_sep c a b : split c (a +:+ String c b) = split c a ++ split c b.
Proof.
  induction a as [|x a IH]; simpl.
  - by rewrite decide_True.
  - case_decide; [by rewrite IH|].
    rewrite IH. pose proof (split_nonnil c a). by destruct (split c a).
Qed.

Lemma segments_app_sep a b :
  Path.segments (a +:+ String Path.sep b) = Path.segments a ++ Path.segments b.
Proof. unfold Path.segments. by rewrite split_app_sep, filter_app. Qed.

Lemma segments_root s : Path.segments (String Path.sep s) = Path.segments s.
Proof. apply (segments_app_sep "" s). Qed.

Lemma plain_name_spec s : plain_name s = true ↔ s ≠ "" ∧ has_char Path.sep s = false.
Proof.
  unfold plain_name. rewrite andb_true_iff, !negb_true_iff, bool_decide_eq_false. done.
Qed.

Lemma valid_name_spec s :
  valid_name s = true ↔ plain_name s = true ∧ s ≠ "." ∧ s ≠ "..".
Proof.
  unfold valid_name. rewrite !andb_true_iff, !negb_true_iff, !bool_decide_eq_false. tauto.
Qed.

Lemma segments_plain s : plain_name s = true → Path.segments s = [s].
Proof.
  intros [Hne Hs]%plain_name_spec. unfold Path.segments.
  rewrite (split_no_char _ _ Hs). by rewrite filter_cons_True, filter_nil.
Qed.

Lemma join_cons x y l : join "/" (x :: y :: l) = x +:+ String Path.sep (join "/" (y :: l)).
Proof. done. Qed.

(** The segments of names joined by separators are the names. *)
Lemma segments_join l :
  Forall (λ s, plain_name s = true) l → Path.segments (join "/" l) = l.
Proof.
  induction 1 as [|x l Hx Hl IH]; [done|].
  destruct l as [|y l]; [by apply segments_plain|].
  rewrite join_cons, segments_app_sep, IH. by rewrite segments_plain.
Qed.

Lemma segments_plain_elems p : Forall (λ s, plain_name s = true) (Path.segments p).
Proof.
  apply Forall_forall. intros x (? & ? & _)%segments_elem. by apply plain_name_spec.
Qed.

(** Empty segments do not count. *)
Lemma normalizeSegs_filter b acc l :
  Path.normalizeSegs b acc l = Path.normalizeSegs b acc (filter (λ s, s ≠ "") l).
Proof.
  revert acc. induction l as [|s l IH]; intros acc; [done|].
  destruct (decide (s = "")) as [->|Hs].
  - rewrite filter_cons_False by naive_solver. simpl. apply IH.
  - rewrite filter_cons_True by done. simpl.
    repeat case_decide; try done; destruct acc; try case_decide; try done; apply IH.
Qed.

(** Names are kept as they come. *)
Lemma normalizeSegs_valid b acc l :
  Forall (λ s, valid_name s = true) l → Path.normalizeSegs b acc l = rev acc ++ l.
Proof.
  intros Hl. revert acc. induction Hl as [|s l Hs Hl IH]; intros acc; simpl.
  - by rewrite app_nil_r.
  - apply valid_name_spec in Hs as (Hp & Hd & Hdd).
    apply plain_name_spec in Hp as [Hne _].
    rewrite decide_False by (intros [?|?]; done). rewrite decide_False by done.
    rewrite IH. simpl. by rewrite <- app_assoc.
Qed.

(** Without [allowAboveRoot] only names stay. *)
Lemma normalizeSegs_root acc l :
  Forall (λ s, valid_name s = true) acc →
  Forall (λ s, plain_name s = true) l →
  Forall (λ s, valid_name s = true) (Path.normalizeSegs false acc l).
Proof.
  intros Hacc Hl. revert acc Hacc. induction Hl as [|s l Hs Hl IH]; intros acc Hacc; simpl.
  - by apply Forall_rev.
  - case_decide; [by apply IH|]. case_decide.
    + destruct acc as [|top acc]; [by apply IH|].
      apply Forall_cons in Hacc as [Htop Hacc].
      case_decide; [|by apply IH].
      subst top. by apply valid_name_spec in Htop as (_ & _ & ?).
    + apply IH. apply Forall_cons_2; [|done]. apply valid_name_spec. naive_solver.
Qed.


Lemma join_nonempty l f : join "/" (l ++ [f]) = "" → f = "".
Proof.
  induction l as [|x l IH]; simpl; [done|].
  destruct (l ++ [f]) eqn:Hl; [by destruct l|].
  destruct x; simpl; [done|done].
Qed.

Lemma last_component_join l f :
  Forall (λ s, plain_name s = true) l → plain_name f = true →
  Path.last_component (join "/" (l ++ [f])) = f ∧
  Path.last_component (String Path.sep (join "/" (l ++ [f]))) = f.
Proof.
  intros Hl Hf. unfold Path.last_component. rewrite segments_root.
  rewrite segments_join by (apply Forall_app; split; [done|by apply Forall_cons_2]).
  by rewrite last_last.
Qed.

End SegmentFacts.

Module ResolveFacts.
Import JsString StringFacts PathFacts SegmentFacts.

Lemma valid_plain l : valid_names l → plain_names l.
Proof. intros H. eapply Forall_impl; [done|]. by intros s [? _]%valid_name_spec. Qed.

Lemma normalizeString_root p :
  ∃ S, valid_names S ∧ Path.normalizeString p false = join "/" S.
Proof.
  unfold Path.normalizeString. eexists. split; [|done].
  rewrite normalizeSegs_filter. apply normalizeSegs_root; [done|].
  apply segments_plain_elems.
Qed.

(** [path.resolve] yields the absolute path of a list of names. *)
Lemma resolve_rooted cwd p :
  Path.isAbsolute cwd = true → ∃ S, valid_names S ∧ Path.resolve cwd [p] = rooted S.
Proof.
  intros Hcwd. unfold Path.resolve. simpl.
  assert (cwd ≠ "") as Hne by (by destruct cwd).
  assert (∀ q, ∃ S, valid_names S ∧
            String "/" (Path.normalizeString q (negb true)) = rooted S) as Hq.
  { intros q. destruct (normalizeString_root q) as (S & HS & HSeq).
    exists S. split; [done|]. simpl. by rewrite HSeq. }
  destruct (decide (p = "")) as [->|Hp]; simpl.
  - rewrite decide_False by done. rewrite Hcwd. apply Hq.
  - destruct (Path.isAbsolute p); [apply Hq|].
    rewrite decide_False by done. rewrite Hcwd. apply Hq.
Qed.

Lemma rooted_inj S T : plain_names S → plain_names T → rooted S = rooted T → S = T.
Proof.
  intros HS HT H. apply (f_equal Path.segments) in H. unfold rooted in H.
  by rewrite !segments_root, !segments_join in H.
Qed.

(** [path.resolve] leaves such a path as it is. *)
Lemma resolve_idem cwd S : valid_names S → Path.resolve cwd [rooted S] = rooted S.
Proof.
  intros HS. unfold Path.resolve, rooted. simpl.
  unfold Path.normalizeString. rewrite normalizeSegs_filter.
  change (filter (λ s, s ≠ "") (split Path.sep (String Path.sep (join "/" S +:+ "/"))))
    with (Path.segments (String Path.sep (join "/" S +:+ String Path.sep ""))).
  rewrite segments_root, segments_app_sep, segments_join by by apply valid_plain.
  change (Path.segments "") with (@nil string). rewrite List.app_nil_r.
  by rewrite normalizeSegs_valid.
Qed.

Lemma endsWith_sep_plain a n :
  plain_name n = true → endsWith "/" (a +:+ n) = false.
Proof.
  intros [Hne Hn]%plain_name_spec. induction a as [|x a IH]; simpl.
  - clear Hne. induction n as [|y n IH]; [done|]. simpl in *.
    apply orb_false_iff in Hn as [Hy Hn]. apply bool_decide_eq_false in Hy.
    rewrite IH by done. rewrite bool_decide_eq_false_2; [done|]. by intros [= -> _].
  - rewrite IH. rewrite bool_decide_eq_false_2; [done|]. intros [= _ H].
    by destruct a, n.
Qed.




(** [path.join(dir, name)] adds the name to the path of [dir]. *)
Lemma join_under S n :
  valid_names S → valid_name n = true → Path.join [rooted S; n] = rooted (S ++ [n]).
Proof.
  intros HS Hn. destruct (proj1 (valid_name_spec n) Hn) as [Hp _].
  destruct (proj1 (plain_name_spec n) Hp) as [Hne _].
  unfold Path.join. rewrite !filter_cons_True, filter_nil by done.
  change (join "/" [rooted S; n]) with (rooted S +:+ String Path.sep n).
  unfold Path.normalize. rewrite decide_False by done.
  change (Path.isAbsolute (rooted S +:+ String Path.sep n)) with true.
  assert (endsWith "/" (rooted S +:+ String Path.sep n) = false) as ->.
  { change (String Path.sep n) with ("/" +:+ n). rewrite append_assoc.
    by apply endsWith_sep_plain. }
  unfold Path.normalizeString. rewrite normalizeSegs_filter.
  change (filter (λ s, s ≠ "") (split Path.sep ?p)) with (Path.segments p).
  unfold rooted. rewrite segments_app_sep, segments_root, segments_join by by apply valid_plain.
  rewrite (segments_plain n Hp).
  rewrite normalizeSegs_valid by (apply Forall_app; split; [done|by apply Forall_cons_2]).
  simpl. rewrite decide_False by (intros H; by apply join_nonempty in H). done.
Qed.

Lemma strip_common_prefix S names : Path.strip_common S (S ++ names) = ([], names).
Proof.
  induction S as [|x S IH]; simpl; [by destruct names|]. by rewrite decide_True.
Qed.

(** The path of a file below a directory, relative to the directory, is
    the names that lead to it. *)
Lemma relative_under cwd S names :
  valid_names S → valid_names names → names ≠ [] →
  Path.relative cwd (rooted S) (rooted (S ++ names)) = join "/" names.
Proof.
  intros HS Hn Hne.
  assert (rooted S ≠ rooted (S ++ names)) as Hdiff.
  { intros H. apply rooted_inj in H; [|by apply valid_plain|].
    - apply (f_equal length) in H. rewrite length_app in H. destruct names; simpl in *; [done|lia].
    - apply valid_plain, Forall_app. done. }
  unfold Path.relative. rewrite decide_False by done.
  rewrite !resolve_idem by (try apply Forall_app; done).
  rewrite decide_False by done.
  unfold rooted. rewrite !segments_root, !segments_join
    by (apply valid_plain; try apply Forall_app; done).
  by rewrite strip_common_prefix.
Qed.

End ResolveFacts.

Module ExtFacts.
Import JsString StringFacts PathFacts SegmentFacts ResolveFacts.

Lemma lower_char_not_letter c a :
  (N_of_ascii c < 97)%N → lower_char a = c ↔ a = c ∧ ¬ (65 ≤ N_of_ascii c ≤ 90)%N.
Proof.
  intros Hc. unfold lower_char.
  destruct ((65 <=? N_of_ascii a)%N && (N_of_ascii a <=? 90)%N) eqn:Hr.
  - apply andb_true_iff in Hr as [H1%N.leb_le H2%N.leb_le]. split.
    + intros <-. rewrite N_ascii_embedding in Hc by lia. lia.
    + intros [-> ?]. lia.
  - apply andb_false_iff in Hr. split.
    + intros ->. split; [done|]. destruct Hr as [H%N.leb_gt|H%N.leb_gt]; lia.
    + by intros [-> _].
Qed.

Lemma has_char_toLowerCase c s :
  (N_of_ascii c < 65)%N → has_char c (toLowerCase s) = has_char c s.
Proof.
  intros Hc. induction s as [|a s IH]; simpl; [done|]. rewrite IH. f_equal.
  apply bool_decide_ext. rewrite lower_char_not_letter by lia. split; [by intros [? _]|].
  intros ->. split; [done|lia].
Qed.

(** Lower-casing twice is lower-casing once. *)
Lemma lower_char_idem a : lower_char (lower_char a) = lower_char a.
Proof. by destruct a as [[] [] [] [] [] [] [] []]. Qed.

Lemma toLowerCase_idem s : toLowerCase (toLowerCase s) = toLowerCase s.
Proof. induction s as [|a s IH]; simpl; [done|]. by rewrite lower_char_idem, IH. Qed.

Lemma last_dot_None e : has_char dot e = false → Path.last_dot e = None.
Proof.
  induction e as [|a e IH]; simpl; [done|].
  intros [Ha He]%orb_false_iff. rewrite IH by done.
  apply bool_decide_eq_false in Ha. by rewrite decide_False.
Qed.

Lemma last_dot_app a e :
  has_char dot e = false → Path.last_dot (a +:+ String dot e) = Some (a, String dot e).
Proof.
  intros He. induction a as [|x a IH]; simpl.
  - by rewrite last_dot_None.
  - by rewrite IH.
Qed.


Lemma extname_same_component p q :
  Path.last_component p = Path.last_component q → Path.extname p = Path.extname q.
Proof. unfold Path.extname. by intros ->. Qed.

(** The stem and the extension of a file name: the name is the one followed
    by the other, the stem is not empty, the extension has no dot after its
    first and no separator. *)
Lemma name_stem_ext p f :
  Path.last_component p = f → valid_name f = true →
  ∃ stem e,
    baseNameNoExt p = stem ∧ stem ≠ "" ∧ has_char Path.sep stem = false ∧
    has_char dot e = false ∧ has_char Path.sep e = false ∧
    extOf p = toLowerCase e ∧
    (stem = "." → e ≠ "").
Proof.
  intros Hc Hf. apply valid_name_spec in Hf as (Hp & Hd & Hdd).
  apply plain_name_spec in Hp as [Hne Hsep].
  pose proof (baseNameNoExt_stem p) as Hb. rewrite Hc in Hb.
  unfold extOf. unfold Path.extname in *. rewrite Hc in *.
  destruct (Path.last_dot f) as [[st ext]|] eqn:Hld.
  - destruct (last_dot_Some _ _ _ Hld) as [Hf (e & -> & He)].
    destruct (bool_decide (st = "") || bool_decide (f = "..")) eqn:Hq.
    + rewrite strip_suffix_empty in Hb. exists f, "". simpl. repeat split; try done.
    + apply orb_false_iff in Hq as [Hst%bool_decide_eq_false _].
      rewrite Hf, strip_suffix_app in Hb. simpl in Hb.
      rewrite Hf, has_char_app in Hsep. apply orb_false_iff in Hsep as [Hs1 Hs2].
      simpl in Hs2.
      exists st, e. repeat split; try done.
      intros -> ->. by rewrite Hf in Hdd.
  - rewrite strip_suffix_empty in Hb. exists f, "". simpl. repeat split; done.
Qed.

End ExtFacts.

(** ** Facts about discovery and path derivation *)

Module DiscoveryFacts.
Import JsString StringFacts PathFacts SegmentFacts ResolveFacts ExtFacts.

(** Induction on directory entries, with the hypothesis for every entry of
    a directory. *)
Lemma dirent_rect' (P : dirent → Prop) :
  (∀ n, P (File n)) → (∀ n sub, Forall P sub → P (Dir n sub)) → ∀ e, P e.
Proof.
  intros Hf Hd. fix IH 1. intros [n|n sub]; [apply Hf|]. apply Hd.
  induction sub as [|e sub IHsub]; [apply Forall_nil_2|]. apply Forall_cons_2; [apply IH|apply IHsub].
Qed.

Lemma walk_entry_under rec e :
  ∀ S p, valid_entry e = true → valid_names S →
    p ∈ walk_entry (rooted S) rec e →
    ∃ names, names ≠ [] ∧ valid_names names ∧ p = rooted (S ++ names).
Proof.
  induction e as [n|n sub IH] using dirent_rect'; intros S p Hv HS; simpl in *.
  - intros ->%list_elem_of_singleton. exists [n]. rewrite join_under by done.
    split; [done|]. split; [by apply Forall_cons_2|done].
  - apply andb_true_iff in Hv as [Hn Hsub]. destruct rec; [|by intros ?%elem_of_nil].
    rewrite join_under by done.
    intros (e & Hp & He)%list_elem_of_In%in_flat_map.
    rewrite Forall_forall in IH. apply list_elem_of_In in He.
    rewrite forallb_forall in Hsub.
    destruct (IH e (proj2 (list_elem_of_In _ _) Hp) (S ++ [n]) p) as (names & Hne & Hnames & ->).
    + by apply Hsub.
    + apply Forall_app. split; [done|by apply Forall_cons_2].
    + done.
    + exists (n :: names). split; [done|]. split; [by apply Forall_cons_2|].
      by rewrite <- List.app_assoc.
Qed.

(** What [walk] yields from a directory is below it: its path is the path
    of the directory followed by names. *)
Lemma walk_under rec entries S p :
  forallb valid_entry entries = true → valid_names S →
  p ∈ walk (rooted S) rec entries →
  ∃ names, names ≠ [] ∧ valid_names names ∧ p = rooted (S ++ names).
Proof.
  intros Hv HS (e & Hp & He)%list_elem_of_In%in_flat_map.
  rewrite forallb_forall in Hv.
  eapply walk_entry_under; [by apply Hv|done|by apply list_elem_of_In].
Qed.

(** The file name [outPathForStep] builds is a name. *)
Lemma filename_valid stem sfx e' :
  stem ≠ "" → has_char Path.sep stem = false → has_char Path.sep sfx = false →
  has_char Path.sep e' = false → (stem = "." → e' ≠ "") →
  valid_name ((stem +:+ sfx) +:+ String dot e') = true ∧
  (stem +:+ sfx) +:+ String dot e' ≠ "..".
Proof.
  intros Hne Hs1 Hs2 Hs3 Hdot.
  assert ((stem +:+ sfx) +:+ String dot e' ≠ "..") as Hdd.
  { intros H. pose proof (f_equal String.length H) as HL.
    rewrite !length_append in HL. simpl in HL.
    destruct stem as [|c [|? ?]]; simpl in HL; [done| |lia].
    destruct sfx; simpl in HL; [|lia]. destruct e'; simpl in HL; [|lia].
    simpl in H. injection H as ->. by apply Hdot. }
  split; [|done]. apply valid_name_spec. split; [apply plain_name_spec; split|split].
  - by destruct stem.
  - rewrite !has_char_app. simpl. by rewrite Hs1, Hs2, Hs3.
  - intros H. apply (f_equal String.length) in H. rewrite !length_append in H.
    simpl in H. destruct stem; simpl in *; [done|lia].
  - done.
Qed.

(** [outPathForStep] computes the described path, with the extension in
    lower case. *)
Lemma outPathForStep_described cwd inputAbs inRoot outRoot pt sfx forced :
  outPathForStep cwd inputAbs inRoot outRoot pt sfx forced
  = outPathForStep_lowercase cwd inputAbs inRoot outRoot pt sfx forced.
Proof.
  unfold outPathForStep, outPathForStep_lowercase, described_path, extOf.
  by rewrite join_split_replaceAll, baseNameNoExt_stem.
Qed.

(** [matchFile] in terms of membership and substrings. *)
Lemma matchFile_spec relPath cfg :
  matchFile relPath cfg = true ↔
  toLowerCase (slice1 (Path.extname relPath)) ∈ includeExt cfg ∧
  ∀ pat, pat ∈ excludePatterns cfg → ¬ ∃ pre post, relPath = pre +:+ pat +:+ post.
Proof.
  unfold matchFile, extOf.
  destruct (bool_decide _) eqn:Hin; simpl.
  - apply bool_decide_eq_true in Hin. rewrite negb_true_iff.
    split.
    + intros Hex. split; [done|]. intros pat Hpat Hsub.
      apply includes_spec in Hsub.
      assert (existsb (λ pat, includes pat relPath) (excludePatterns cfg) = true) as Ht; [|congruence].
      apply existsb_exists. exists pat. split; [by apply list_elem_of_In|done].
    + intros [_ Hnone]. apply not_true_iff_false. intros (pat & Hpat & Hinc)%existsb_exists.
      apply (Hnone pat); [by apply list_elem_of_In|]. by apply includes_spec.
  - apply bool_decide_eq_false in Hin. split; [done|]. by intros [? _].
Qed.

End DiscoveryFacts.

(** ** Facts about numbers and diagnostics *)

Module NumberFacts.
Import JsString JsNumber.

Lemma has_char_substring c n m s :
  has_char c s = false → has_char c (String.substring n m s) = false.
Proof.
  revert n m. induction s as [|a s IH]; intros [|n] [|m]; simpl; try done.
  - intros [-> ?]%orb_false_iff. simpl. by apply IH.
  - intros [_ ?]%orb_false_iff. by apply IH.
  - intros [_ ?]%orb_false_iff. by apply IH.
Qed.

Lemma has_char_zeros c k : c ≠ "0"%char → has_char c (zeros k) = false.
Proof.
  intros Hc. induction k; simpl; [done|]. rewrite bool_decide_eq_false_2; done.
Qed.

Lemma pretty_N_char_not c x :
  Ascii.is_nat c = None → pretty_N_char x ≠ c.
Proof.
  intros Hc <-. unfold pretty_N_char in Hc. by repeat case_match.
Qed.

Lemma has_char_pretty_N_go c x s :
  Ascii.is_nat c = None → has_char c (pretty_N_go x s) = has_char c s.
Proof.
  intros Hc. revert s. induction (N.lt_wf_0 x) as [x _ IH]; intros s.
  destruct (decide (0 < x)%N) as [Hx|Hx].
  - rewrite pretty_N_go_step by done. rewrite IH by (by apply N.div_lt).
    simpl. rewrite bool_decide_eq_false_2; [done|]. by apply pretty_N_char_not.
  - assert (x = 0%N) as -> by lia. by rewrite pretty_N_go_0.
Qed.

Lemma has_char_show_N c n : Ascii.is_nat c = None → has_char c (show_N n) = false.
Proof.
  intros Hc. unfold show_N, pretty, pretty_N. case_decide.
  - simpl. rewrite bool_decide_eq_false_2; [done|]. by intros <-.
  - by rewrite has_char_pretty_N_go.
Qed.

Lemma has_char_hundredths c n :
  Ascii.is_nat c = None → c ≠ "."%char → has_char c (hundredths n) = false.
Proof.
  intros Hc Hd. unfold hundredths.
  assert (has_char c (zeros (3 - String.length (show_N n)) +:+ show_N n) = false) as Hm.
  { rewrite StringFacts.has_char_app, has_char_zeros, has_char_show_N; [done..|].
    by intros ->. }
  rewrite !StringFacts.has_char_app. rewrite !has_char_substring by done.
  simpl. by rewrite bool_decide_eq_false_2.
Qed.

(** [toFixed(2)] prints no comma. *)
Lemma toFixed2_no_comma x : has_char ","%char (toFixed2 x) = false.
Proof.
  unfold toFixed2. destruct (Prim2SF x) as [s|s| |s m e]; try done.
  - by destruct s.
  - rewrite StringFacts.has_char_app, has_char_hundredths by done. by destruct s.
Qed.

Lemma hundredths_nonempty n : hundredths n ≠ "".
Proof.
  unfold hundredths. intros H. apply (f_equal String.length) in H.
  rewrite !StringFacts.length_append in H. simpl in H. lia.
Qed.

(** [toFixed(2)] prints something. *)
Lemma toFixed2_nonempty x : toFixed2 x ≠ "".
Proof.
  unfold toFixed2. destruct (Prim2SF x) as [s|s| |s m e]; try done.
  - by destruct s.
  - pose proof (hundredths_nonempty (nearest_hundredth m e)).
    destruct s; simpl; [done|]. by destruct (hundredths _).
Qed.

Lemma length_substring n m s :
  (n + m ≤ String.length s)%nat → String.length (String.substring n m s) = m.
Proof.
  revert n m. induction s as [|a s IH]; intros [|n] [|m]; simpl; intros H; try lia.
  - f_equal. apply (IH 0%nat). simpl. lia.
  - apply (IH n 0%nat). lia.
  - apply (IH n (S m)). lia.
Qed.

Lemma length_zeros k : String.length (zeros k) = k.
Proof. induction k; simpl; by f_equal. Qed.

(** There is a digit before the point, and two digits follow it. *)
Lemma hundredths_shape n :
  ∃ a b, hundredths n = a +:+ "." +:+ b ∧ a ≠ "" ∧ String.length b = 2%nat.
Proof.
  unfold hundredths.
  set (m := zeros (3 - String.length (show_N n)) +:+ show_N n).
  assert (3 ≤ String.length m)%nat as Hm.
  { unfold m. rewrite StringFacts.length_append, length_zeros. lia. }
  eexists _, _. split; [reflexivity|]. split.
  - intros H. apply (f_equal String.length) in H.
    rewrite length_substring in H by (simpl; lia). simpl in H. lia.
  - apply length_substring. lia.
Qed.

(** [toFixed(2)] of a finite number prints a sign, digits, the point and two
    digits. *)
Lemma toFixed2_shape x :
  toFixed2 x ∈ ["NaN"; "Infinity"; "-Infinity"] ∨
  ∃ sign a b, toFixed2 x = sign +:+ a +:+ "." +:+ b ∧
              (sign = "" ∨ sign = "-") ∧ a ≠ "" ∧ String.length b = 2%nat.
Proof.
  unfold toFixed2. destruct (Prim2SF x) as [s|s| |s m e].
  - right. exists "", "0", "00". auto.
  - left. destruct s; set_solver.
  - left. set_solver.
  - right. destruct (hundredths_shape (nearest_hundredth m e)) as (a & b & -> & Ha & Hb).
    exists (if s then "-" else ""), a, b. split; [done|]. by destruct s; auto.
Qed.

End NumberFacts.

Module DiagnosticFacts.
Import JsString.

Lemma slice0_length n s : (String.length (slice0 n s) ≤ n)%nat.
Proof.
  revert s. induction n as [|n IH]; intros [|a s]; simpl; try lia.
  specialize (IH s). lia.
Qed.

Lemma slice0_has_char c n s : has_char c s = false → has_char c (slice0 n s) = false.
Proof.
  revert s. induction n as [|n IH]; intros [|a s]; simpl; try done.
  intros [-> ?]%orb_false_iff. simpl. by apply IH.
Qed.

(** No line feed is left by the replacement of line 109. *)
Lemma replaceNewlines_no_LF s : has_char "010"%char (replaceNewlines s) = false.
Proof.
  assert (∀ s, has_char "010"%char (replaceNewlines s) = false
               ∧ ∀ a, has_char "010"%char (replaceNewlines (String a s)) = false) as H;
    [|apply H].
  clear s. induction s as [|b s [IH1 IH2]].
  - split; [done|]. intros a. simpl. repeat case_decide; simpl; try done.
    + by rewrite bool_decide_eq_false_2.
    + by rewrite bool_decide_eq_false_2.
  - split; [apply IH2|]. intros a.
    change (replaceNewlines (String a (String b s))) with
      (if decide (a = "010"%char) then String " " (replaceNewlines (String b s))
       else if decide (a = "013"%char) then
              if decide (b = "010"%char) then String " " (replaceNewlines s)
              else String a (replaceNewlines (String b s))
            else String a (replaceNewlines (String b s))).
    repeat case_decide; cbn [has_char]; rewrite ?IH1, ?IH2; try done;
      by rewrite bool_decide_eq_false_2.
Qed.

(** A diagnostic has at most 300 characters and no line feed. *)
Lemma diagnostic_bounded e :
  (String.length (diagnostic e) ≤ 300)%nat ∧ has_char "010"%char (diagnostic e) = false.
Proof.
  unfold diagnostic. split; [apply slice0_length|].
  apply slice0_has_char, replaceNewlines_no_LF.
Qed.

Lemma json_escape_no_break a :
  has_char "010"%char (json_escape a) = false ∧ has_char "013"%char (json_escape a) = false.
Proof. by destruct a as [[] [] [] [] [] [] [] []]. Qed.

(** The text [JSON.stringify] gives has no line break in it. *)
Lemma JSON_stringify_no_break s :
  has_char "010"%char (JSON_stringify s) = false ∧
  has_char "013"%char (JSON_stringify s) = false.
Proof.
  unfold JSON_stringify.
  assert (has_char "010"%char (json_body s) = false ∧
          has_char "013"%char (json_body s) = false) as [H1 H2].
  { induction s as [|a s [IH1 IH2]]; [done|]. simpl.
    destruct (json_escape_no_break a) as [Ha1 Ha2].
    by rewrite !StringFacts.has_char_app, Ha1, Ha2, IH1, IH2. }
  rewrite !StringFacts.has_char_app. simpl. by rewrite H1, H2.
Qed.

End DiagnosticFacts.

Lemma deltaPct_field_described before after :
  deltaPct_field before after = delta_pct_described before after.
Proof.
  unfold deltaPct_field, delta_pct_described, pct.
  destruct after as [a|], before as [b|]; done.
Qed.

Lemma delta_pct_described_empty src out :
  delta_pct_described src out = "" ↔ src = None ∨ src = Some 0%N ∨ out = None.
Proof.
  unfold delta_pct_described. destruct src as [s|], out as [o|]; try (split; [eauto|done]).
  case_decide as Hs.
  - subst. split; eauto.
  - split.
    + intros H. by apply NumberFacts.toFixed2_nonempty in H.
    + intros [|[[= ->]|]]; done.
Qed.

Lemma delta_pct_described_no_comma src out :
  JsString.replaceAll ","%char " " (delta_pct_described src out) = delta_pct_described src out.
Proof.
  apply StringFacts.replaceAll_absent. unfold delta_pct_described.
  destruct src as [s|], out as [o|]; try done.
  case_decide; [done|]. apply NumberFacts.toFixed2_no_comma.
Qed.

(** ** Facts about the program's monad and [processOne] *)

Section AsyncFacts.
Context {A B : Type} (P : call → Prop).

Lemma extends_ret (a : A) : extends P (mret a).
Proof. intros h. exists []. by rewrite app_nil_r. Qed.

Lemma extends_throw e : extends P (@throw A e).
Proof. intros h. exists []. by rewrite app_nil_r. Qed.

Lemma extends_bind (m : Async A) (f : A → Async B) :
  extends P m → (∀ a, extends P (f a)) → extends P (m ≫= f).
Proof.
  intros Hm Hf h. unfold mbind, Async_bind.
  destruct (Hm h) as (c1 & H1 & HP1). destruct (m h) as [[a|e] h1]; simpl in *; subst h1.
  - destruct (Hf a (h ++ c1)) as (c2 & H2 & HP2). exists (c1 ++ c2).
    rewrite H2, app_assoc. split; [done|]. by apply Forall_app.
  - by exists c1.
Qed.

Lemma extends_try_catch (m : Async A) (handler : js_error → Async A) :
  extends P m → (∀ e, extends P (handler e)) → extends P (try_catch m handler).
Proof.
  intros Hm Hf h. unfold try_catch.
  destruct (Hm h) as (c1 & H1 & HP1). destruct (m h) as [[a|e] h1]; simpl in *; subst h1.
  - by exists c1.
  - destruct (Hf e (h ++ c1)) as (c2 & H2 & HP2). exists (c1 ++ c2).
    rewrite H2, app_assoc. split; [done|]. by apply Forall_app.
Qed.

Lemma extends_settle c (answer : list call → option js_error) :
  P c → extends P (λ h, settle c (answer h) h).
Proof.
  intros Hc h. exists [c]. unfold settle. destruct (answer h); simpl; auto.
Qed.

End AsyncFacts.

(** A loop whose body only adds calls that satisfy [P] only adds such
    calls. *)
Lemma extends_for_of {A} (P : call → Prop) (l : list A) (body : A → Async unit) :
  (∀ x, x ∈ l → extends P (body x)) → extends P (for_of l body).
Proof.
  induction l as [|x l IH]; intros Hb; simpl.
  - apply extends_ret.
  - apply extends_bind; [apply Hb; left|]. intros _. apply IH.
    intros y Hy. apply Hb. by right.
Qed.

Section ProgramFacts.
Variable cwd : string.
Variable env : Env.
Variable cfg : Config.

Lemma extends_fileSize P p : P (Stat p) → extends P (fileSize env p).
Proof. intros HP h. exists [Stat p]. simpl. auto. Qed.

Lemma extends_ensureDirFor P p : P (Mkdir (Path.dirname p)) → extends P (ensureDirFor env p).
Proof. intros HP. by apply (extends_settle P _ (λ h, on_mkdir env h _)). Qed.

Lemma extends_copyFile P s d : P (CopyFile s d) → extends P (copyFile env s d).
Proof. intros HP. by apply (extends_settle P _ (λ h, on_copyFile env h _ _)). Qed.

Lemma extends_appendCsv P p row :
  P (AppendFile p (row +:+ JsString.LF)) → extends P (appendCsv env p row).
Proof. intros HP. by apply (extends_settle P _ (λ h, on_appendFile env h _ _)). Qed.

Lemma extends_execFileAsync P cmd args :
  P (ExecFile cmd args) → extends P (execFileAsync env cmd args).
Proof.
  intros HP h. exists [ExecFile cmd args]. unfold execFileAsync.
  destruct (on_execFile env h cmd args); simpl; auto.
Qed.

(** The loop of lines 94-97 keeps the last format prefix and filters the
    others out. *)
Lemma scan_prefix_spec l fp clean :
  scan_prefix l fp clean =
  (from_option Some fp (last (omap format_prefix_of l)),
   clean ++ filter (λ a, format_prefix_of a = None) l).
Proof.
  revert fp clean. induction l as [|a l IH]; intros fp clean; simpl.
  - by rewrite filter_nil, app_nil_r.
  - destruct (format_prefix_of a) as [p|] eqn:Ha.
    + rewrite IH. rewrite filter_cons_False by (rewrite Ha; done). f_equal.
      change (list_omap arg string format_prefix_of l) with (omap format_prefix_of l).
      destruct (omap format_prefix_of l) as [|q qs] eqn:Hq; [done|].
      rewrite last_cons_cons. destruct (last (q :: qs)) eqn:E; [done|].
      by apply last_None in E.
    + rewrite IH. rewrite filter_cons_True by done. by rewrite <- app_assoc.
Qed.

Lemma format_prefix_nonempty a p : format_prefix_of a = Some p → p ≠ "".
Proof.
  destruct a as [s|n]; simpl; [|done].
  destruct (JsString.endsWith ":" s) eqn:He; [|done]. intros [= <-] ->. done.
Qed.

(** [runTool] runs the invocation of [tool_invocation], and throws when
    there is none. *)
Lemma runTool_invocation step inExt outFile src :
  runTool env cfg step inExt outFile src =
  match tool_invocation cfg step inExt outFile src with
  | Some (cmd, args) => execFileAsync env cmd args
  | None => throw (Error ("Unknown step: " +:+ name step))
  end.
Proof.
  unfold runTool, tool_invocation.
  repeat case_decide; try done.
  - rewrite scan_prefix_spec. simpl.
    destruct (last (omap format_prefix_of _)) as [p|] eqn:Hl; simpl; [|done].
    rewrite decide_False; [done|].
    apply last_Some_elem_of, list_elem_of_omap in Hl as (a & _ & Ha).
    by eapply format_prefix_nonempty.
  - rewrite scan_prefix_spec. simpl.
    destruct (last (omap format_prefix_of _)) as [p|] eqn:Hl; simpl; [|done].
    rewrite decide_False; [done|].
    apply last_Some_elem_of, list_elem_of_omap in Hl as (a & _ & Ha).
    by eapply format_prefix_nonempty.
Qed.

(** What [runStep] returns, by the answers to its calls: it throws only
    when the directory cannot be made. *)
Lemma runStep_cases inputAbs step h :
  let outFile := step_outFile cwd cfg inputAbs step in
  let d := Path.dirname outFile in
  let h2 := h ++ [Mkdir d; Stat inputAbs] in
  let before := on_stat env (h ++ [Mkdir d]) inputAbs in
  runStep cwd env cfg inputAbs (Path.resolve cwd [inputDir cfg]) (Path.resolve cwd [outputDir cfg]) step h =
  match on_mkdir env h d with
  | Some e => (Thrown e, h ++ [Mkdir d])
  | None =>
      match attempt env cfg step (extOf inputAbs) outFile inputAbs h2 with
      | (Returned (after, elapsedMs), h') =>
          (Returned (ok_outcome outFile (name step) before after elapsedMs), h')
      | (Thrown e, h') => (Returned (error_outcome outFile (name step) before e), h')
      end
  end.
Proof.
  intros outFile d h2 before. unfold runStep. fold (step_outFile cwd cfg inputAbs step). fold outFile.
  unfold mbind at 1, Async_bind at 1. unfold ensureDirFor, settle. fold d.
  destruct (on_mkdir env h d) as [e|]; [done|].
  unfold mbind at 1, Async_bind at 1. unfold fileSize at 1. fold before.
  replace ((h ++ [Mkdir d]) ++ [Stat inputAbs]) with h2 by (unfold h2; by rewrite <- app_assoc).
  unfold try_catch. unfold mbind at 1, Async_bind at 1.
  destruct (attempt env cfg step (extOf inputAbs) outFile inputAbs h2) as [[[after t]|e] h']; done.
Qed.

(** What the [try] block returns or throws, by the answers to its calls. *)
Lemma attempt_cases step inExt outFile src h :
  attempt env cfg step inExt outFile src h =
  if dryRun cfg then
    match on_copyFile env h src outFile with
    | Some e => (Thrown e, h ++ [CopyFile src outFile])
    | None => (Returned (on_stat env (h ++ [CopyFile src outFile]) outFile, 0%N),
               h ++ [CopyFile src outFile; Stat outFile])
    end
  else
    match tool_invocation cfg step inExt outFile src with
    | None => (Thrown (Error ("Unknown step: " +:+ name step)), h)
    | Some (cmd, args) =>
        match on_execFile env h cmd args with
        | inr e => (Thrown e, h ++ [ExecFile cmd args])
        | inl t => (Returned (on_stat env (h ++ [ExecFile cmd args]) outFile, t),
                    h ++ [ExecFile cmd args; Stat outFile])
        end
    end.
Proof.
  unfold attempt. destruct (dryRun cfg).
  - unfold mbind, Async_bind, copyFile, settle, fileSize, mret, Async_ret.
    destruct (on_copyFile env h src outFile); [done|]. by rewrite <- app_assoc.
  - rewrite runTool_invocation.
    destruct (tool_invocation cfg step inExt outFile src) as [[cmd args]|]; [|done].
    unfold mbind, Async_bind, execFileAsync, fileSize, mret, Async_ret.
    destruct (on_execFile env h cmd args); [|done]. by rewrite <- app_assoc.
Qed.

(** The body of the loop on a step, by whether the step applies. *)
Lemma stepBody_cases inputAbs step h :
  stepBody cwd env cfg inputAbs (Path.resolve cwd [inputDir cfg]) (Path.resolve cwd [outputDir cfg]) step h =
  if applicable inputAbs step then
    match runStep cwd env cfg inputAbs (Path.resolve cwd [inputDir cfg])
            (Path.resolve cwd [outputDir cfg]) step h with
    | (Returned o, h') =>
        if writePerFile cfg then appendCsv env (csvPath cfg) (csv_row (step_fields o)) h'
        else (Returned tt, h')
    | (Thrown e, h') => (Thrown e, h')
    end
  else (Returned tt, h).
Proof.
  unfold stepBody, applicable. destruct (enabled step); simpl; [|done].
  destruct (bool_decide _); simpl; [|done].
  unfold mbind, Async_bind.
  destruct (runStep _ _ _ _ _ _ _ _) as [[o|e] h']; [|done]. by destruct (writePerFile cfg).
Qed.

Lemma attempt_extends step inExt outFile src h :
  ∃ tail, (attempt env cfg step inExt outFile src h).2 = h ++ tail ∧
          mkdirs tail = [] ∧ appended tail = [].
Proof.
  rewrite attempt_cases. destruct (dryRun cfg).
  - destruct (on_copyFile _ _ _ _); eexists; simpl; done.
  - destruct (tool_invocation _ _ _ _ _) as [[cmd args]|].
    + destruct (on_execFile _ _ _ _); eexists; simpl; done.
    + exists []. by rewrite app_nil_r.
Qed.

Lemma runStep_returns inputAbs step h :
  let outFile := step_outFile cwd cfg inputAbs step in
  on_mkdir env h (Path.dirname outFile) = None →
  ∃ o tail,
    runStep cwd env cfg inputAbs (Path.resolve cwd [inputDir cfg])
      (Path.resolve cwd [outputDir cfg]) step h
    = (Returned o, h ++ [Mkdir (Path.dirname outFile); Stat inputAbs] ++ tail) ∧
    mkdirs tail = [] ∧ appended tail = [] ∧
    so_stage o = name step ∧ so_outFile o = outFile.
Proof.
  intros outFile Hmk. rewrite runStep_cases. fold outFile. rewrite Hmk.
  destruct (attempt_extends step (extOf inputAbs) outFile inputAbs
              (h ++ [Mkdir (Path.dirname outFile); Stat inputAbs])) as (tail & Ht & ? & ?).
  destruct (attempt _ _ _ _ _ _ _) as [[[after t]|e] h']; simpl in Ht; subst h';
    eexists _, tail; rewrite <- app_assoc; done.
Qed.

(** Under an environment in which directories can be made and the log
    appended to, the loop runs every applicable step. *)
Lemma for_of_steps inputAbs :
  (∀ h p, on_mkdir env h p = None) →
  (∀ h p d, on_appendFile env h p d = None) →
  ∀ steps h, ∃ calls,
    for_of steps (stepBody cwd env cfg inputAbs (Path.resolve cwd [inputDir cfg])
                    (Path.resolve cwd [outputDir cfg])) h
    = (Returned tt, h ++ calls) ∧
    mkdirs calls = (λ s, Path.dirname (step_outFile cwd cfg inputAbs s))
                   <$> filter (λ s, applicable inputAbs s = true) steps.
Proof.
  intros Hmk Hap steps. induction steps as [|step steps IH]; intros h; simpl.
  - exists []. by rewrite app_nil_r.
  - unfold mbind at 1, Async_bind at 1. rewrite stepBody_cases.
    destruct (applicable inputAbs step) eqn:Happ.
    + rewrite filter_cons_True by done.
      destruct (runStep_returns inputAbs step h (Hmk _ _)) as (o & tail & -> & Hmt & _).
      destruct (writePerFile cfg).
      * unfold appendCsv, settle. rewrite Hap.
        match goal with |- context [for_of steps _ ?h1] =>
          destruct (IH h1) as (calls & -> & Hcalls) end.
        eexists. split; [f_equal; rewrite <- !app_assoc; reflexivity|].
        unfold mkdirs in *. rewrite !omap_app. simpl. rewrite Hmt, Hcalls. done.
      * match goal with |- context [for_of steps _ ?h1] =>
          destruct (IH h1) as (calls & -> & Hcalls) end.
        eexists. split; [f_equal; rewrite <- !app_assoc; reflexivity|].
        unfold mkdirs in *. rewrite !omap_app. simpl. rewrite Hmt, Hcalls. done.
    + rewrite filter_cons_False by (rewrite Happ; done). apply IH.
Qed.

Lemma tool_invocation_reads_original step inExt outFile inputAbs cmd args :
  tool_invocation cfg step inExt outFile inputAbs = Some (cmd, args) →
  reads_original inputAbs (ExecFile cmd args).
Proof.
  unfold tool_invocation. repeat case_decide; intros [= <- <-]; simpl; eauto.
Qed.

Lemma attempt_reads_original step inExt outFile inputAbs :
  extends (reads_original inputAbs) (attempt env cfg step inExt outFile inputAbs).
Proof.
  intros h. rewrite attempt_cases. destruct (dryRun cfg).
  - destruct (on_copyFile _ _ _ _); eexists; (split; [done|]);
      repeat first [apply Forall_nil_2 | apply Forall_cons_2; [done|]].
  - destruct (tool_invocation _ _ _ _ _) as [[cmd args]|] eqn:Ht.
    + apply tool_invocation_reads_original in Ht.
      destruct (on_execFile _ _ _ _); eexists; (split; [done|]);
        repeat first [apply Forall_nil_2 | apply Forall_cons_2; [done|]].
    + exists []. by rewrite app_nil_r.
Qed.

Lemma runStep_reads_original inputAbs inRoot outRoot step :
  extends (reads_original inputAbs) (runStep cwd env cfg inputAbs inRoot outRoot step).
Proof.
  unfold runStep. apply extends_bind; [by apply extends_ensureDirFor|]. intros _.
  apply extends_bind; [by apply extends_fileSize|]. intros before.
  apply extends_try_catch.
  - apply extends_bind; [apply attempt_reads_original|]. intros [after t]. apply extends_ret.
  - intros e. apply extends_ret.
Qed.

Lemma profile_args_missing step key :
  profile_missing cfg step key → profile_args cfg step key = [].
Proof.
  unfold profile_missing, profile_args. destruct (profiles cfg) as [ps|]; [|done].
  destruct (ps !! profile step) as [p|]; [|done]. by intros ->.
Qed.

(** The lines a step appends are its row. *)
Lemma stepBody_step_call inputAbs step :
  step ∈ pipeline cfg →
  extends (step_call cfg inputAbs)
    (stepBody cwd env cfg inputAbs (Path.resolve cwd [inputDir cfg])
       (Path.resolve cwd [outputDir cfg]) step).
Proof.
  intros Hin h. rewrite stepBody_cases.
  destruct (applicable inputAbs step) eqn:Happ; [|exists []; by rewrite app_nil_r].
  rewrite runStep_cases.
  destruct (on_mkdir env h _) as [e|].
  { eexists. split; [done|]. by apply Forall_cons_2. }
  match goal with |- context [attempt env cfg step ?a ?b ?c ?d] =>
    destruct (attempt_extends step a b c d) as (tail & Ht & _ & Htail);
    destruct (attempt env cfg step a b c d) as [[[after t]|e] h'] end;
    simpl in Ht; subst h'.
  - assert (Forall (step_call cfg inputAbs) tail) as HF.
    { clear -Htail. induction tail as [|c tail IH]; [done|].
      destruct c; simpl in Htail; try done; apply Forall_cons_2; try done; by apply IH. }
    destruct (writePerFile cfg) eqn:Hw.
    + unfold appendCsv, settle.
      assert (step_call cfg inputAbs (AppendFile (csvPath cfg)
        (csv_row (step_fields (ok_outcome (step_outFile cwd cfg inputAbs step) (name step)
           (on_stat env (h ++ [Mkdir (Path.dirname (step_outFile cwd cfg inputAbs step))]) inputAbs)
           after t)) +:+ JsString.LF))) as Hrow.
      { intros p d [= <- <-]. split; [done|]. split; [done|].
        eexists step, _. split; [done|]. split; [done|]. split; [|reflexivity]. done. }
      destruct (on_appendFile env _ _ _); simpl; eexists; rewrite <- !app_assoc;
        (split; [reflexivity|]);
        (apply Forall_cons_2; [done|]); (apply Forall_cons_2; [done|]);
        apply Forall_app; split; try done; by apply Forall_cons_2.
    + simpl. eexists. rewrite <- app_assoc. split; [reflexivity|].
      (apply Forall_cons_2; [done|]); (apply Forall_cons_2; [done|]). done.
  - assert (Forall (step_call cfg inputAbs) tail) as HF.
    { clear -Htail. induction tail as [|c tail IH]; [done|].
      destruct c; simpl in Htail; try done; apply Forall_cons_2; try done; by apply IH. }
    destruct (writePerFile cfg) eqn:Hw.
    + unfold appendCsv, settle.
      assert (step_call cfg inputAbs (AppendFile (csvPath cfg)
        (csv_row (step_fields (error_outcome (step_outFile cwd cfg inputAbs step) (name step)
           (on_stat env (h ++ [Mkdir (Path.dirname (step_outFile cwd cfg inputAbs step))]) inputAbs)
           e)) +:+ JsString.LF))) as Hrow.
      { intros p d [= <- <-]. split; [done|]. split; [done|].
        eexists step, _. split; [done|]. split; [done|]. split; [|reflexivity]. done. }
      destruct (on_appendFile env _ _ _); simpl; eexists; rewrite <- !app_assoc;
        (split; [reflexivity|]);
        (apply Forall_cons_2; [done|]); (apply Forall_cons_2; [done|]);
        apply Forall_app; split; try done; by apply Forall_cons_2.
    + simpl. eexists. rewrite <- app_assoc. split; [reflexivity|].
      (apply Forall_cons_2; [done|]); (apply Forall_cons_2; [done|]). done.
Qed.

End ProgramFacts.

Section RowOrder.
Variable cwd : string.
Variable env : Env.
Variable cfg : Config.

(** A loop over steps that returns made the directory of every applicable
    step and, with the rows of steps enabled, appended one row for each, in
    their order. *)
Lemma for_of_rows inputAbs steps :
  ∀ h h',
    for_of steps (stepBody cwd env cfg inputAbs (Path.resolve cwd [inputDir cfg])
                    (Path.resolve cwd [outputDir cfg])) h = (Returned tt, h') →
    ∃ calls os,
      h' = h ++ calls ∧
      Forall2 (λ o step, so_stage o = name step ∧
                         so_outFile o = step_outFile cwd cfg inputAbs step)
        os (filter (λ s, applicable inputAbs s = true) steps) ∧
      appended calls = (if writePerFile cfg then step_rows cfg os else []) ∧
      mkdirs calls = (λ s, Path.dirname (step_outFile cwd cfg inputAbs s))
                     <$> filter (λ s, applicable inputAbs s = true) steps.
Proof.
  induction steps as [|step steps IH]; intros h h'; simpl.
  - intros [= <-]. exists [], []. rewrite app_nil_r. repeat split; [constructor|].
    by destruct (writePerFile cfg).
  - unfold mbind at 1, Async_bind at 1. rewrite stepBody_cases.
    destruct (applicable inputAbs step) eqn:Happ.
    2:{ rewrite filter_cons_False by (rewrite Happ; done). apply IH. }
    rewrite filter_cons_True by done.
    destruct (on_mkdir env h (Path.dirname (step_outFile cwd cfg inputAbs step))) as [e|] eqn:Hmk.
    { rewrite runStep_cases, Hmk. done. }
    destruct (runStep_returns cwd env cfg inputAbs step h Hmk)
      as (o & tail & -> & Hmt & Hat & Hstage & Hout).
    destruct (writePerFile cfg) eqn:Hw.
    + unfold appendCsv, settle. destruct (on_appendFile env _ _ _); [done|].
      intros Hrest. destruct (IH _ _ Hrest) as (calls & os & -> & HF & Hrows & Hdirs).
      eexists _, (o :: os). split; [rewrite <- !app_assoc; reflexivity|].
      split; [by constructor|].
      unfold appended, mkdirs in *. repeat first [rewrite omap_app | progress simpl].
      rewrite Hat, Hmt, Hrows, Hdirs. done.
    + intros Hrest. destruct (IH _ _ Hrest) as (calls & os & -> & HF & Hrows & Hdirs).
      eexists _, (o :: os). split; [rewrite <- !app_assoc; reflexivity|].
      split; [by constructor|].
      unfold appended, mkdirs in *. repeat first [rewrite omap_app | progress simpl].
      rewrite Hat, Hmt, Hrows, Hdirs. done.
Qed.

End RowOrder.

(** ** Facts about the scheduler *)

Section SchedulerFacts.
Variable n : nat.

(** A sum over the workers when one of them changes. *)
Lemma sum_list_insert (f : worker_state → nat) ws w x y :
  ws !! w = Some x →
  (sum_list (f <$> <[w:=y]> ws) + f x = sum_list (f <$> ws) + f y)%nat.
Proof.
  revert w. induction ws as [|a ws IH]; intros [|w] Hw; simplify_eq/=; [lia|].
  specialize (IH _ Hw). lia.
Qed.

(** The indices in flight when one worker changes. *)
Lemma omap_insert_perm (f : worker_state → option nat) ws w x :
  ws !! w = Some x →
  ∃ R, omap f ws ≡ₚ option_list (f x) ++ R ∧
       ∀ y, omap f (<[w:=y]> ws) ≡ₚ option_list (f y) ++ R.
Proof.
  revert w. induction ws as [|a ws IH]; intros [|w] Hw; simplify_eq/=.
  - exists (omap f ws). split; [by destruct (f x)|]. intros y. by destruct (f y).
  - destruct (IH _ Hw) as (R & H1 & H2).
    exists (option_list (f a) ++ R). split.
    + destruct (f a); simpl; rewrite H1; [|done].
      by rewrite Permutation_middle.
    + intros y. destruct (f a); simpl; rewrite H2; [|done].
      by rewrite Permutation_middle.
Qed.

(** The invariant holds when the workers start. *)
Lemma sched_inv_init conc : sched_inv n conc (sched_init conc).
Proof.
  split; simpl.
  - by rewrite length_replicate.
  - done.
  - assert (sum_list (exit_of <$> replicate conc Claiming) = 0%nat) as ->; [|done].
    induction conc; simpl; done.
  - intros w i [? _]%lookup_replicate. done.
  - assert (in_flight (replicate conc Claiming) = []) as ->; [|done].
    induction conc; simpl; done.
Qed.

(** A turn keeps the invariant. *)
Lemma sched_inv_turn conc w b st st' :
  sched_inv n conc st → worker_turn n w b st = Some st' → sched_inv n conc st'.
Proof.
  intros [Hlen Hst Hidx Hex Hacc]. unfold worker_turn.
  destruct (workers st !! w) as [[|i|i]|] eqn:Hw; [| |done..].
  - destruct (omap_insert_perm in_flight_of _ _ _ Hw) as (R & HR1 & HR2).
    case_decide as Hn; intros [= <-]; split; cbn [idx workers started settled].
    + by rewrite length_insert.
    + rewrite Hst. f_equal. lia.
    + pose proof (sum_list_insert exit_of _ _ _ (Exited (idx st)) Hw) as Hs. simpl in Hs. lia.
    + intros w' i. destruct (decide (w = w')) as [<-|Hne].
      * rewrite list_lookup_insert_eq; [|by eapply lookup_lt_Some]. by intros [= <-].
      * rewrite list_lookup_insert_ne by done. apply Hex.
    + rewrite Hacc. unfold in_flight. rewrite HR1, (HR2 (Exited (idx st))). done.
    + by rewrite length_insert.
    + rewrite Hst. replace (min (S (idx st)) n) with (S (min (idx st) n)) by lia.
      rewrite seq_S. f_equal. simpl. f_equal. lia.
    + pose proof (sum_list_insert exit_of _ _ _ (Processing (idx st)) Hw) as Hs. simpl in Hs. lia.
    + intros w' i. destruct (decide (w = w')) as [<-|Hne].
      * rewrite list_lookup_insert_eq; [|by eapply lookup_lt_Some]. done.
      * rewrite list_lookup_insert_ne by done. apply Hex.
    + rewrite Hacc. unfold in_flight. rewrite HR1, (HR2 (Processing (idx st))). simpl.
      rewrite <- Permutation_cons_append. apply Permutation_middle.
  - destruct (omap_insert_perm in_flight_of _ _ _ Hw) as (R & HR1 & HR2).
    intros [= <-]; split; cbn [idx workers started settled].
    + by rewrite length_insert.
    + done.
    + pose proof (sum_list_insert exit_of _ _ _ Claiming Hw) as Hs. simpl in Hs. lia.
    + intros w' j. destruct (decide (w = w')) as [<-|Hne].
      * rewrite list_lookup_insert_eq; [|by eapply lookup_lt_Some]. done.
      * rewrite list_lookup_insert_ne by done. apply Hex.
    + rewrite Hacc. unfold in_flight. rewrite HR1, (HR2 Claiming). simpl.
      rewrite fmap_app. simpl. rewrite <- app_assoc. simpl.
      by rewrite <- Permutation_middle.
Qed.

(** A turn takes one off the turns left. *)
Lemma turns_left_turn w b st st' :
  worker_turn n w b st = Some st' → turns_left n st = S (turns_left n st').
Proof.
  unfold worker_turn, turns_left.
  destruct (workers st !! w) as [[|i|i]|] eqn:Hw; [| |done..].
  - case_decide as Hn; intros [= <-]; cbn [idx workers started settled].
    + pose proof (sum_list_insert weight _ _ _ (Exited (idx st)) Hw) as Hs. simpl in Hs. lia.
    + pose proof (sum_list_insert weight _ _ _ (Processing (idx st)) Hw) as Hs. simpl in Hs. lia.
  - intros [= <-]; cbn [idx workers started settled].
    pose proof (sum_list_insert weight _ _ _ Claiming Hw) as Hs. simpl in Hs. lia.
Qed.

Lemma sched_run_inv conc choices st st' :
  sched_inv n conc st → sched_run n choices st = Some st' →
  sched_inv n conc st' ∧ turns_left n st = (length choices + turns_left n st')%nat.
Proof.
  revert st. induction choices as [|[w b] choices IH]; intros st Hinv; simpl.
  - by intros [= <-].
  - destruct (worker_turn n w b st) as [st1|] eqn:Ht; [|done]. intros Hrun.
    destruct (IH st1 (sched_inv_turn _ _ _ _ _ Hinv Ht) Hrun) as [? Hm].
    split; [done|]. rewrite (turns_left_turn _ _ _ _ Ht). lia.
Qed.

Lemma exited_or_not (ws : list worker_state) :
  (∀ w s, ws !! w = Some s → ∃ i, s = Exited i) ∨
  (∃ w s, ws !! w = Some s ∧ (s = Claiming ∨ ∃ i, s = Processing i)).
Proof.
  induction ws as [|a ws [IH|(w & s & Hw & Hs)]].
  - left. intros w s. by rewrite lookup_nil.
  - destruct a as [|i|i].
    + right. exists 0%nat, Claiming. eauto.
    + right. exists 0%nat, (Processing i). eauto.
    + left. intros [|w] s; simpl; [intros [= <-]; eauto | apply IH].
  - right. exists (S w), s. eauto.
Qed.

(** A worker that has not left its loop can take a turn. *)
Lemma sched_progress st :
  ¬ all_exited st → ∃ w b st', worker_turn n w b st = Some st'.
Proof.
  intros Hne. destruct (exited_or_not (workers st)) as [Hall|(w & s & Hw & Hs)]; [done|].
  exists w, true. unfold worker_turn. rewrite Hw.
  destruct Hs as [->|[i ->]]; [case_decide|]; eauto.
Qed.

(** From every state the workers can all leave their loops. *)
Lemma sched_completes st :
  ∃ choices st', sched_run n choices st = Some st' ∧ all_exited st'.
Proof.
  remember (turns_left n st) as k eqn:Hk. revert st Hk.
  induction k as [k IH] using lt_wf_ind. intros st ->.
  destruct (exited_or_not (workers st)) as [Hall|(w & s & Hw & Hs)].
  - exists [], st. done.
  - assert (∃ st1, worker_turn n w true st = Some st1) as [st1 Ht].
    { unfold worker_turn. rewrite Hw.
      destruct Hs as [->|[i ->]]; [case_decide|]; eauto. }
    destruct (IH (turns_left n st1)) with (st := st1) as (choices & st' & Hrun & Hex); [|done|].
    { rewrite (turns_left_turn _ _ _ _ Ht). lia. }
    exists ((w, true) :: choices), st'. simpl. by rewrite Ht.
Qed.

End SchedulerFacts.

(** Reading a list at every index in turn gives the list. *)
Lemma omap_lookup_seq (pre l : list string) :
  omap (λ i, (pre ++ l) !! i) (seq (length pre) (length l)) = l.
Proof.
  revert pre. induction l as [|x l IH]; intros pre; simpl; [done|].
  rewrite lookup_app_r by lia. rewrite Nat.sub_diag. simpl. f_equal.
  specialize (IH (pre ++ [x])). rewrite length_app in IH. simpl in IH.
  rewrite <- app_assoc in IH. simpl in IH.
  by replace (length pre + 1)%nat with (S (length pre)) in IH by lia.
Qed.

(** * The statements of the specification *)

Import JsString StringFacts PathFacts SegmentFacts ResolveFacts ExtFacts.
Import DiscoveryFacts NumberFacts DiagnosticFacts.

(** The concurrency level is at least 1, whatever the configuration says. *)
Lemma conc_of_ge_1 cfg : (1 ≤ conc_of cfg)%nat.
Proof. unfold conc_of. destruct (concurrency cfg) as [c|]; [case_decide|]; lia. Qed.

(** C1. With [conc >= 1] workers over the task list, whatever the order of
    the workers' turns and whether each [processOne] fulfils or rejects:
    the run can end; it takes at most [2 * length tasks + conc] turns; at
    every moment no index is both settled and in flight or in flight at two
    workers; a run that has not ended has a next turn; and when every worker
    has left its loop, [processOne] was called on the tasks one by one in
    the order of the list, each call settled once, [idx] counts every claim,
    and every worker left on an index past the list. *)
Theorem every_task_processed_exactly_once (tasks : list string) (conc : nat) :
  (1 ≤ conc)%nat →
  (∃ choices st,
     sched_run (length tasks) choices (sched_init conc) = Some st ∧ all_exited st) ∧
  ∀ choices st,
    sched_run (length tasks) choices (sched_init conc) = Some st →
    (length choices ≤ 2 * length tasks + conc)%nat ∧
    NoDup ((settled st).*1 ++ in_flight (workers st)) ∧
    (¬ all_exited st → ∃ w b st', worker_turn (length tasks) w b st = Some st') ∧
    (all_exited st →
       processed_files tasks st = tasks ∧
       (settled st).*1 ≡ₚ seq 0 (length tasks) ∧
       idx st = (length tasks + conc)%nat ∧
       ∀ w s, workers st !! w = Some s → ∃ i, s = Exited i ∧ (length tasks ≤ i)%nat).
Proof.
  intros Hconc. split; [apply sched_completes|].
  intros choices st Hrun.
  destruct (sched_run_inv _ _ _ _ _ (sched_inv_init _ conc) Hrun)
    as [[Hlen Hst Hidx Hex Hacc] Hm].
  split; [|split; [|split]].
  - unfold turns_left in Hm. simpl in Hm.
    assert (sum_list (weight <$> replicate conc Claiming) = conc) as Hs.
    { clear. induction conc as [|c IHc]; simpl; [done|]. f_equal. apply IHc. }
    lia.
  - rewrite <- Hacc, Hst. apply NoDup_seq.
  - apply sched_progress.
  - intros Hall.
    assert (sum_list (exit_of <$> workers st) = conc) as Hs.
    { rewrite <- Hlen. clear -Hall. unfold all_exited in Hall.
      induction (workers st) as [|a ws IH]; simpl; [done|].
      destruct (Hall 0%nat a eq_refl) as [i ->]. simpl. f_equal.
      apply IH. intros w s Hw. apply (Hall (S w) s Hw). }
    assert (length tasks ≤ idx st)%nat as Hge.
    { destruct (workers st) as [|a ws] eqn:Hws; [simpl in *; lia|].
      destruct (Hall 0%nat a) as [i ->]; [by rewrite Hws|].
      pose proof (Hex 0%nat i eq_refl) as Hi. simpl in Hidx. lia. }
    assert (in_flight (workers st) = []) as Hfl.
    { clear -Hall. unfold all_exited in Hall.
      induction (workers st) as [|a ws IH]; simpl; [done|].
      destruct (Hall 0%nat a eq_refl) as [i ->]. simpl.
      apply IH. intros w s Hw. apply (Hall (S w) s Hw). }
    replace (min (idx st) (length tasks)) with (length tasks) in * by lia.
    split; [|split; [|split]].
    + unfold processed_files. rewrite Hst. apply (omap_lookup_seq [] tasks).
    + rewrite Hfl, List.app_nil_r in Hacc. by rewrite <- Hacc, Hst.
    + lia.
    + intros w s Hw. destruct (Hall w s Hw) as [i ->]. eauto.
Qed.

Lemma every_task_processed_exactly_once_witness :
  ∃ st,
    sched_run 3 [(0, true); (1, true); (1, false); (1, true); (0, true); (0, true);
                 (1, true); (1, true)]%nat
      (sched_init (conc_of (example_cfg [] false true))) = Some st ∧
    processed_files ["/in/a.png"; "/in/b.png"; "/in/c.jpg"] st
    = ["/in/a.png"; "/in/b.png"; "/in/c.jpg"].
Proof.
  assert (1 ≤ conc_of (example_cfg [] false true))%nat as Hconc by (vm_compute; lia).
  destruct (every_task_processed_exactly_once ["/in/a.png"; "/in/b.png"; "/in/c.jpg"]
              (conc_of (example_cfg [] false true)) Hconc) as [_ Hall].
  eexists. split; [apply sched_run_example|].
  destruct (Hall _ _ sched_run_example) as (_ & _ & _ & Hend).
  apply Hend. intros [|[|w]] s [= <-]; eauto.
Defined.

(** C2. In an environment in which directories can be made and
    the log appended to: [processOne] returns and makes the directory of
    every applicable step, in the order of the pipeline, whatever failed
    before; with the rows of steps enabled, an applicable step whose [try]
    block throws appends one row with an empty output size, status [error]
    and the diagnostic of the error; outside a dry run an unknown step name
    and a rejected tool throw in that block, in a dry run a rejected copy
    does; a diagnostic has at most 300 characters and no line feed, and
    the message field written from it has no line break; and a worker whose
    [processOne] settled, fulfilled or rejected, claims again.  With the
    rows of steps disabled the only line [processOne] appends is the row of
    the original, whatever the steps did.  An output that cannot be
    measured is no failure: a tool that fulfils is followed by a [stat] of
    the output, a step whose block returns has a row of status [ok], and
    when the [stat] gave no size the fields of the output size, of delta
    and of the percentage are empty.  In a dry run the name of the step is
    not looked at: when the copy is made the block returns, also for an
    unknown name. *)
Theorem step_failure_is_contained cwd env cfg inputAbs :
  (∀ h p, on_mkdir env h p = None) →
  (∀ h p d, on_appendFile env h p d = None) →
  (∀ h, ∃ calls,
     processOne cwd env cfg inputAbs h = (Returned tt, h ++ calls) ∧
     mkdirs calls = (λ s, Path.dirname (step_outFile cwd cfg inputAbs s))
                    <$> filter (λ s, applicable inputAbs s = true) (pipeline cfg)) ∧
  (∀ step h e h',
     applicable inputAbs step = true → writePerFile cfg = true →
     let outFile := step_outFile cwd cfg inputAbs step in
     let h1 := h ++ [Mkdir (Path.dirname outFile)] in
     attempt env cfg step (extOf inputAbs) outFile inputAbs (h1 ++ [Stat inputAbs])
     = (Thrown e, h') →
     stepBody cwd env cfg inputAbs (Path.resolve cwd [inputDir cfg])
       (Path.resolve cwd [outputDir cfg]) step h =
     (Returned tt,
      h' ++ [AppendFile (csvPath cfg)
               (csv_row [outFile; name step; show_size (on_stat env h1 inputAbs); ""; ""; "";
                         "0"; "error"; JSON_stringify (diagnostic e)] +:+ LF)])) ∧
  (∀ step inExt outFile src h,
     dryRun cfg = false → profile_key_of step inExt = None →
     attempt env cfg step inExt outFile src h
     = (Thrown (Error ("Unknown step: " +:+ name step)), h)) ∧
  (∀ step inExt outFile src h cmd args e,
     dryRun cfg = false → tool_invocation cfg step inExt outFile src = Some (cmd, args) →
     on_execFile env h cmd args = inr e →
     attempt env cfg step inExt outFile src h = (Thrown e, h ++ [ExecFile cmd args])) ∧
  (∀ step inExt outFile src h e,
     dryRun cfg = true → on_copyFile env h src outFile = Some e →
     attempt env cfg step inExt outFile src h = (Thrown e, h ++ [CopyFile src outFile])) ∧
  (∀ e, (String.length (diagnostic e) ≤ 300)%nat ∧
        has_char "010"%char (diagnostic e) = false ∧
        has_char "010"%char (JSON_stringify (diagnostic e)) = false ∧
        has_char "013"%char (JSON_stringify (diagnostic e)) = false) ∧
  (∀ n w i fulfilled st,
     workers st !! w = Some (Processing i) →
     ∃ st', worker_turn n w fulfilled st = Some st' ∧ workers st' !! w = Some Claiming) ∧
  (writePerFile cfg = false →
   ∀ h, ∃ calls,
     processOne cwd env cfg inputAbs h = (Returned tt, h ++ calls) ∧
     appended calls
     = [(csvPath cfg, csv_row (original_fields inputAbs (on_stat env h inputAbs)) +:+ LF)]) ∧
  (∀ step inExt outFile src h cmd args t,
     dryRun cfg = false → tool_invocation cfg step inExt outFile src = Some (cmd, args) →
     on_execFile env h cmd args = inl t →
     attempt env cfg step inExt outFile src h
     = (Returned (on_stat env (h ++ [ExecFile cmd args]) outFile, t),
        h ++ [ExecFile cmd args; Stat outFile])) ∧
  (∀ step h after t h',
     applicable inputAbs step = true → writePerFile cfg = true →
     let outFile := step_outFile cwd cfg inputAbs step in
     let h1 := h ++ [Mkdir (Path.dirname outFile)] in
     let before := on_stat env h1 inputAbs in
     attempt env cfg step (extOf inputAbs) outFile inputAbs (h1 ++ [Stat inputAbs])
     = (Returned (after, t), h') →
     stepBody cwd env cfg inputAbs (Path.resolve cwd [inputDir cfg])
       (Path.resolve cwd [outputDir cfg]) step h =
     (Returned tt,
      h' ++ [AppendFile (csvPath cfg)
               (csv_row (step_fields (ok_outcome outFile (name step) before after t))
                +:+ LF)]) ∧
     step_fields (ok_outcome outFile (name step) before after t) !! 7%nat = Some "ok" ∧
     step_fields (ok_outcome outFile (name step) before None t)
     = [outFile; name step; show_size before; ""; ""; ""; JsNumber.show_N t; "ok";
        JSON_stringify ""]) ∧
  (∀ step inExt outFile src h,
     dryRun cfg = true → on_copyFile env h src outFile = None →
     attempt env cfg step inExt outFile src h
     = (Returned (on_stat env (h ++ [CopyFile src outFile]) outFile, 0%N),
        h ++ [CopyFile src outFile; Stat outFile])).
Proof.
  intros Hmk Hap. repeat apply conj.
  - intros h. unfold processOne. unfold mbind at 1, Async_bind at 1. unfold fileSize at 1.
    unfold mbind at 1, Async_bind at 1.
    destruct (for_of_steps cwd env cfg inputAbs Hmk Hap (pipeline cfg) (h ++ [Stat inputAbs]))
      as (calls & -> & Hcalls).
    unfold appendCsv, settle. rewrite Hap.
    eexists. split; [f_equal; rewrite <- !List.app_assoc; reflexivity|].
    unfold mkdirs in *. simpl. rewrite omap_app. simpl. by rewrite List.app_nil_r.
  - intros step h e h' Happ Hw outFile h1 Hatt.
    rewrite stepBody_cases, Happ, runStep_cases, Hmk. fold outFile.
    replace (h ++ [Mkdir (Path.dirname outFile); Stat inputAbs]) with (h1 ++ [Stat inputAbs])
      by (unfold h1; by rewrite <- List.app_assoc).
    rewrite Hatt, Hw. unfold appendCsv, settle. rewrite Hap.
    f_equal. f_equal. f_equal. f_equal. unfold step_fields, error_outcome; simpl.
    unfold js_or. case_decide as Hd; [by rewrite Hd|done].
  - intros step inExt outFile src h Hdry Hkey. rewrite attempt_cases, Hdry.
    assert (tool_invocation cfg step inExt outFile src = None) as ->; [|done].
    unfold profile_key_of in Hkey. unfold tool_invocation. by repeat case_decide.
  - intros step inExt outFile src h cmd args e Hdry Hinv Hex.
    by rewrite attempt_cases, Hdry, Hinv, Hex.
  - intros step inExt outFile src h e Hdry Hcp. by rewrite attempt_cases, Hdry, Hcp.
  - intros e. destruct (diagnostic_bounded e) as [Hlen Hlf].
    destruct (JSON_stringify_no_break (diagnostic e)) as [Hj1 Hj2]. done.
  - intros n w i fulfilled st Hw. unfold worker_turn. rewrite Hw. eexists. split; [done|].
    simpl. apply list_lookup_insert_eq. by eapply lookup_lt_Some.
  - intros Hw h. unfold processOne. unfold mbind at 1, Async_bind at 1. unfold fileSize at 1.
    unfold mbind at 1, Async_bind at 1.
    destruct (for_of_steps cwd env cfg inputAbs Hmk Hap (pipeline cfg) (h ++ [Stat inputAbs]))
      as (calls & Hfor & _).
    destruct (for_of_rows cwd env cfg inputAbs _ _ _ Hfor) as (calls' & os & Heq & _ & Hrows & _).
    apply app_inv_head in Heq as <-. rewrite Hfor, Hw in *.
    unfold appendCsv, settle. rewrite Hap.
    eexists. split; [f_equal; rewrite <- !List.app_assoc; reflexivity|].
    unfold appended in *. simpl. rewrite omap_app, Hrows. done.
  - intros step inExt outFile src h cmd args t Hdry Hinv Hex.
    by rewrite attempt_cases, Hdry, Hinv, Hex.
  - intros step h after t h' Happ Hw outFile h1 before Hatt. split; [|done].
    rewrite stepBody_cases, Happ, runStep_cases, Hmk. fold outFile.
    replace (h ++ [Mkdir (Path.dirname outFile); Stat inputAbs]) with (h1 ++ [Stat inputAbs])
      by (unfold h1; by rewrite <- List.app_assoc).
    rewrite Hatt, Hw. unfold appendCsv, settle. rewrite Hap. done.
  - intros step inExt outFile src h Hdry Hcp. by rewrite attempt_cases, Hdry, Hcp.
Qed.

(** Three runs in which nothing but the step goes wrong.  With the rows of
    steps disabled, a step whose tool fails leaves no row with status
    [error]: the only row is the one of the original.  With the rows
    enabled, a tool that fulfils without leaving an output that can be
    measured gives a row with status [ok] and an empty output size.  In a
    dry run a step of an unknown name copies the input and gives a row
    with status [ok]. *)
Lemma step_failure_counterexample :
  (∃ calls,
     processOne "/w" (example_env false true 100 60)
       (example_cfg [example_step "pngquant" "_q" ["png"]] false false) "/in/a.png" []
     = (Returned tt, calls) ∧
     ExecFile (Some "pngquant")
       [AStr "--quality"; AStr "60-80"; AStr "--output"; AStr "/out/a_q.png"; AStr "/in/a.png"]
     ∈ calls ∧
     appended calls = [("metrics.csv", "/in/a.png,ORIGINAL,100,100,0,0.00,,ok," +:+ LF)]) ∧
  (∃ calls,
     processOne "/w"
       {| on_stat := λ _ p, if decide (p = "/in/a.png") then Some 100%N else None;
          on_mkdir := λ _ _, None;
          on_copyFile := λ _ _ _, None;
          on_execFile := λ _ _ _, inl 5%N;
          on_appendFile := λ _ _ _, None |}
       (example_cfg [example_step "pngquant" "_q" ["png"]] false true) "/in/a.png" []
     = (Returned tt, calls) ∧
     appended calls
     = [("metrics.csv",
         "/out/a_q.png,pngquant,100,,,,5,ok," +:+ JSON_stringify "" +:+ LF);
        ("metrics.csv", "/in/a.png,ORIGINAL,100,100,0,0.00,,ok," +:+ LF)]) ∧
  (∃ calls,
     processOne "/w" (example_env false true 100 60)
       (example_cfg [example_step "nosuchtool" "_x" ["png"]] true true) "/in/a.png" []
     = (Returned tt, calls) ∧
     CopyFile "/in/a.png" "/out/a_x.png" ∈ calls ∧
     appended calls
     = [("metrics.csv",
         "/out/a_x.png,nosuchtool,100,60,-40,-40.00,0,ok," +:+ JSON_stringify "" +:+ LF);
        ("metrics.csv", "/in/a.png,ORIGINAL,100,100,0,0.00,,ok," +:+ LF)]).
Proof.
  split; [|split].
  - eexists. split; [vm_compute; reflexivity|]. split; [|reflexivity].
    do 3 apply list_elem_of_further. apply list_elem_of_here.
  - eexists. split; [vm_compute; reflexivity|]. vm_compute. reflexivity.
  - eexists. split; [vm_compute; reflexivity|]. split; [|vm_compute; reflexivity].
    do 3 apply list_elem_of_further. apply list_elem_of_here.
Qed.

Lemma step_failure_is_contained_witness :
  ∃ calls,
    processOne "/w" (example_env false true 100 60)
      (example_cfg [example_step "pngquant" "_q" ["png"]; example_step "mozjpeg" "_m" ["png"]]
         false true) "/in/a.png" []
    = (Returned tt, [] ++ calls) ∧
    mkdirs calls = ["/out"; "/out"].
Proof.
  destruct (step_failure_is_contained "/w" (example_env false true 100 60)
    (example_cfg [example_step "pngquant" "_q" ["png"]; example_step "mozjpeg" "_m" ["png"]]
       false true) "/in/a.png" (λ _ _, eq_refl) (λ _ _ _, eq_refl)) as [H _].
  destruct (H []) as (calls & Hrun & Hmk). exists calls. split; [exact Hrun|].
  rewrite Hmk. vm_compute. reflexivity.
Defined.

(** C3. For an absolute input path and an absolute input root,
    [outPathForStep] does not depend on the working directory, and its
    result is the path the specification describes with the extension the
    program takes: the forced extension if given and not empty, else the
    extension of the input in lower case.  The base name has no separator
    in it, so the joiner never shows. *)
Theorem outPathForStep_deterministic cwd cwd' inputAbs inRoot outRoot pt sfx forced :
  Path.isAbsolute inputAbs = true → Path.isAbsolute inRoot = true →
  outPathForStep cwd inputAbs inRoot outRoot pt sfx forced
  = outPathForStep_lowercase cwd' inputAbs inRoot outRoot pt sfx forced ∧
  JsString.join "__" (split Path.sep (baseNameNoExt (Path.relative cwd inRoot inputAbs)))
  = baseNameNoExt (Path.relative cwd inRoot inputAbs).
Proof.
  intros Hi Hr. split.
  - rewrite outPathForStep_described.
    unfold outPathForStep_lowercase, described_path.
    by rewrite (relative_absolute cwd cwd' inRoot inputAbs Hr Hi).
  - rewrite join_split_replaceAll. apply replaceAll_absent, baseNameNoExt_no_sep.
Qed.

(** The extension of [Photo.PNG] comes out as [png], not as the original
    [PNG]. *)
Lemma outPathForStep_spec_counterexample :
  outPathForStep "/w" "/in/Photo.PNG" "/in" "/out" false "_q" None = "/out/Photo_q.png" ∧
  outPathForStep_spec "/w" "/in/Photo.PNG" "/in" "/out" false "_q" None = "/out/Photo_q.PNG" ∧
  outPathForStep "/w" "/in/Photo.PNG" "/in" "/out" false "_q" None
  ≠ outPathForStep_spec "/w" "/in/Photo.PNG" "/in" "/out" false "_q" None.
Proof. vm_compute. repeat split. discriminate. Qed.

Lemma outPathForStep_deterministic_witness :
  outPathForStep "/w" "/in/sub/Photo.PNG" "/in" "/out" true "_q" None
  = outPathForStep_lowercase "/elsewhere" "/in/sub/Photo.PNG" "/in" "/out" true "_q" None.
Proof. apply (outPathForStep_deterministic "/w" "/elsewhere"); reflexivity. Defined.

(** C4. When [processOne] returns, that is when no directory
    creation and no log append failed, the calls it made are the [stat] of
    the input, the calls of the steps, and last the append of the row of
    the original: the input path, [ORIGINAL], the size the [stat] answered
    (empty when it failed) as source and as output size, delta [0],
    [0.00], no elapsed time, status [ok], no message.  Every line the steps
    appended is the row of an applicable step of the pipeline, and there is
    none when the rows of steps are disabled. *)
Theorem original_row_is_terminal cwd env cfg inputAbs h h' :
  processOne cwd env cfg inputAbs h = (Returned tt, h') →
  ∃ steps_calls,
    h' = h ++ Stat inputAbs :: steps_calls ++
         [AppendFile (csvPath cfg)
            (csv_row [inputAbs; "ORIGINAL"; show_size (on_stat env h inputAbs);
                      show_size (on_stat env h inputAbs); "0"; "0.00"; ""; "ok"; ""] +:+ LF)] ∧
    Forall (step_call cfg inputAbs) steps_calls.
Proof.
  unfold processOne. unfold mbind at 1, Async_bind at 1. unfold fileSize at 1.
  unfold mbind at 1, Async_bind at 1.
  destruct (extends_for_of (step_call cfg inputAbs) (pipeline cfg)
              (stepBody cwd env cfg inputAbs (Path.resolve cwd [inputDir cfg])
                 (Path.resolve cwd [outputDir cfg]))
              (λ s Hs, stepBody_step_call cwd env cfg inputAbs s Hs) (h ++ [Stat inputAbs]))
    as (mid & Hmid & HF).
  destruct (for_of _ _ _) as [[[]|e] h1]; simpl in Hmid; subst h1; [|done].
  unfold appendCsv, settle. destruct (on_appendFile env _ _ _); [done|].
  intros [= <-]. exists mid. split; [|done]. by rewrite <- !List.app_assoc.
Qed.

(** When the directory of a step's output cannot be made, [processOne]
    throws and no row is appended, the one of the original included. *)
Lemma original_row_counterexample :
  ∃ e calls,
    processOne "/w" (example_env true false 100 60)
      (example_cfg [example_step "pngquant" "_q" ["png"]] false true) "/in/a.png" []
    = (Thrown e, calls) ∧ appended calls = [].
Proof. eexists _, _. vm_compute. split; reflexivity. Qed.

Lemma original_row_is_terminal_witness :
  ∃ steps_calls,
    [ Stat "/in/a.png"; Mkdir "/out"; Stat "/in/a.png";
      ExecFile (Some "pngquant")
        [AStr "--quality"; AStr "60-80"; AStr "--output"; AStr "/out/a_q.png"; AStr "/in/a.png"];
      Stat "/out/a_q.png";
      AppendFile "metrics.csv"
        ("/out/a_q.png,pngquant,100,60,-40,-40.00,5,ok," +:+ String quote (String quote LF));
      AppendFile "metrics.csv" ("/in/a.png,ORIGINAL,100,100,0,0.00,,ok," +:+ LF) ]
    = [] ++ Stat "/in/a.png" :: steps_calls ++
      [AppendFile "metrics.csv" ("/in/a.png,ORIGINAL,100,100,0,0.00,,ok," +:+ LF)].
Proof.
  destruct (original_row_is_terminal "/w" (example_env false false 100 60)
    (example_cfg [example_step "pngquant" "_q" ["png"]] false true) "/in/a.png" [] _
    processOne_scenario) as (sc & H & _).
  exists sc. exact H.
Defined.

(** C5. Every line [processOne] appends is a step's row or the
    row of the original.  In a step's row the [delta_pct] field is empty
    when the source size is unavailable or zero and when the output size is
    unavailable, and else is [((out - src) / src) * 100] computed in
    binary64 and printed with two decimals: unless the value is not
    finite, a sign, digits, the point and exactly two digits; it has no
    comma, so it is written as it is.  In the row of the original the field
    is always [0.00]. *)
Theorem delta_pct_of_rows cwd env cfg inputAbs h :
  (∃ calls, (processOne cwd env cfg inputAbs h).2 = h ++ calls ∧
            Forall (row_delta_pct inputAbs) calls) ∧
  (∀ src out, delta_pct_described src out = "" ↔ src = None ∨ src = Some 0%N ∨ out = None) ∧
  (∀ src out, replaceAll ","%char " " (delta_pct_described src out)
              = delta_pct_described src out) ∧
  (∀ src out,
     delta_pct_described src out ∈ [""; "NaN"; "Infinity"; "-Infinity"] ∨
     ∃ sign a b, delta_pct_described src out = sign +:+ a +:+ "." +:+ b ∧
                 (sign = "" ∨ sign = "-") ∧ a ≠ "" ∧ String.length b = 2%nat).
Proof.
  split; [|split; [apply delta_pct_described_empty|
                   split; [apply delta_pct_described_no_comma|]]].
  2:{ intros src out. unfold delta_pct_described.
      destruct src as [s|], out as [o|]; try (left; apply list_elem_of_here).
      case_decide; [left; apply list_elem_of_here|].
      destruct (toFixed2_shape (PrimFloat.mul
        (PrimFloat.div (PrimFloat.sub (JsNumber.of_N o) (JsNumber.of_N s))
           (JsNumber.of_N s)) 100%float)) as [H'|H']; [left; by apply list_elem_of_further|by right]. }
  revert h. change (extends (row_delta_pct inputAbs) (processOne cwd env cfg inputAbs)).
  unfold processOne. apply extends_bind; [by apply extends_fileSize|]. intros origSize.
  apply extends_bind.
  - apply extends_for_of. intros step _. unfold stepBody.
    destruct (negb (enabled step)); [apply extends_ret|].
    destruct (negb (bool_decide _)); [apply extends_ret|].
    apply extends_bind.
    + unfold runStep. apply extends_bind; [by apply extends_ensureDirFor|]. intros _.
      apply extends_bind; [by apply extends_fileSize|]. intros before.
      apply extends_try_catch; [|intros e; apply extends_ret].
      apply extends_bind; [|intros [??]; apply extends_ret].
      intros h. destruct (attempt_extends env cfg step (extOf inputAbs)
        (outPathForStep cwd inputAbs (Path.resolve cwd [inputDir cfg])
           (Path.resolve cwd [outputDir cfg]) (preserveTree cfg) (js_or (suffix step) "")
           (forcedExt_of step)) inputAbs h) as (tail & Ht & _ & Happ).
      exists tail. split; [done|]. clear -Happ. induction tail as [|c tail IH]; [done|].
      destruct c; simpl in Happ; try done; apply Forall_cons_2; try done; by apply IH.
    + intros o. destruct (writePerFile cfg); [|apply extends_ret].
      apply extends_appendCsv. intros p d [= <- <-]. left. exists o. split; [done|].
      simpl. by rewrite deltaPct_field_described.
  - intros _. apply extends_appendCsv. intros p d [= <- <-]. right. by exists origSize.
Qed.

(** The row of the original of an empty file: the source size is [0] and
    [delta_pct] is [0.00], not empty. *)
Lemma delta_pct_original_counterexample :
  processOne "/w" (example_env false false 0 0) (example_cfg [] false true) "/in/a.png" []
  = (Returned tt,
     [Stat "/in/a.png";
      AppendFile "metrics.csv" ("/in/a.png,ORIGINAL,0,0,0,0.00,,ok," +:+ LF)]) ∧
  original_fields "/in/a.png" (Some 0%N) !! 2%nat = Some "0" ∧
  original_fields "/in/a.png" (Some 0%N) !! 5%nat = Some "0.00".
Proof. vm_compute. repeat split. Qed.

(** C6. A file [walk] yields becomes a task exactly when the lower-cased
    extension of its path relative to the input root is in the allow-list
    and no exclude pattern occurs in that relative path as a substring; the
    test of the extension looks at the extension up to case only. *)
Theorem task_selection cwd cfg entries abs :
  let inRoot := Path.resolve cwd [inputDir cfg] in
  let rel := Path.relative cwd inRoot abs in
  (abs ∈ discover cwd cfg entries ↔
     abs ∈ walk inRoot (recursive cfg) entries ∧
     toLowerCase (slice1 (Path.extname rel)) ∈ includeExt cfg ∧
     ∀ pat, pat ∈ excludePatterns cfg → ¬ ∃ pre post, rel = pre +:+ pat +:+ post) ∧
  (∀ rel', toLowerCase (Path.extname rel') = toLowerCase (Path.extname rel) →
     (extOf rel' ∈ includeExt cfg ↔ extOf rel ∈ includeExt cfg)).
Proof.
  intros inRoot rel. split.
  - unfold discover. rewrite list_elem_of_filter. fold inRoot rel.
    rewrite matchFile_spec. tauto.
  - intros rel' Heq. unfold extOf. by rewrite !toLowerCase_slice1, Heq.
Qed.

(** The tool of a step gets the source at the place [source_argument]
    reads. *)
Lemma source_argument_invocation cfg step inExt outFile src cmd args :
  tool_invocation cfg step inExt outFile src = Some (cmd, args) →
  source_argument step args = Some (AStr src).
Proof.
  unfold tool_invocation, source_argument.
  repeat case_decide; intros [= <- <-]; try done.
  - change [AStr "--output"; AStr outFile; AStr src]
      with ([AStr "--output"; AStr outFile] ++ [AStr src]).
    by rewrite List.app_assoc, last_snoc.
  - change [AStr "-outfile"; AStr outFile; AStr src]
      with ([AStr "-outfile"; AStr outFile] ++ [AStr src]).
    by rewrite List.app_assoc, last_snoc.
Qed.

(** C7. Every copy [processOne] makes copies the input file, and every tool
    it runs gets the input file as its source, whatever steps ran before
    and whatever they produced: a copy or a run of a tool is made for an
    applicable step of the pipeline, with the output path of that step as
    its output, and the file at the place of the source is the input file
    and no other.  So a step reads what another step wrote exactly when
    the output path of that step is the path of the input. *)
Theorem steps_read_the_original cwd env cfg inputAbs h :
  ∃ calls, (processOne cwd env cfg inputAbs h).2 = h ++ calls ∧
           Forall (reads_original inputAbs) calls ∧
           Forall (transforms_original cwd cfg inputAbs) calls ∧
           ∀ c, c ∈ calls →
             match c with
             | CopyFile _ _ | ExecFile _ _ =>
                 ∃ step, step ∈ pipeline cfg ∧ made_for cwd cfg inputAbs step c ∧
                         ∀ other, takes_source step (step_outFile cwd cfg inputAbs other) c ↔
                                  step_outFile cwd cfg inputAbs other = inputAbs
             | _ => True
             end.
Proof.
  assert (extends (reads_original inputAbs) (processOne cwd env cfg inputAbs)) as H1.
  { unfold processOne. apply extends_bind; [by apply extends_fileSize|]. intros origSize.
    apply extends_bind; [|intros _; by apply extends_appendCsv].
    apply extends_for_of. intros step _. unfold stepBody.
    destruct (negb (enabled step)); [apply extends_ret|].
    destruct (negb (bool_decide _)); [apply extends_ret|].
    apply extends_bind; [apply runStep_reads_original|]. intros o.
    destruct (writePerFile cfg); [by apply extends_appendCsv|apply extends_ret]. }
  assert (extends (transforms_original cwd cfg inputAbs) (processOne cwd env cfg inputAbs))
    as H2.
  { unfold processOne. apply extends_bind; [by apply extends_fileSize|]. intros origSize.
    apply extends_bind; [|intros _; by apply extends_appendCsv].
    apply extends_for_of. intros step Hin. unfold stepBody.
    destruct (enabled step) eqn:Hen; simpl; [|apply extends_ret].
    destruct (bool_decide (extOf inputAbs ∈ matchExt step)) eqn:Hext; simpl;
      [|apply extends_ret].
    assert (applicable inputAbs step = true) as Happ
      by (unfold applicable; by rewrite Hen, Hext).
    apply extends_bind; [|intros o; destruct (writePerFile cfg);
                           [by apply extends_appendCsv|apply extends_ret]].
    unfold runStep. fold (step_outFile cwd cfg inputAbs step).
    apply extends_bind; [by apply extends_ensureDirFor|]. intros _.
    apply extends_bind; [by apply extends_fileSize|]. intros before.
    apply extends_try_catch; [|intros e; apply extends_ret].
    apply extends_bind; [|intros [??]; apply extends_ret].
    intros h'. rewrite attempt_cases.
    assert (transforms_original cwd cfg inputAbs
              (CopyFile inputAbs (step_outFile cwd cfg inputAbs step))) as Hcopy.
    { exists step. repeat split; done. }
    destruct (dryRun cfg).
    - destruct (on_copyFile _ _ _ _); eexists; (split; [done|]);
        repeat first [apply Forall_nil_2 | apply Forall_cons_2]; done.
    - destruct (tool_invocation _ _ _ _ _) as [[cmd args]|] eqn:Ht;
        [|exists []; by rewrite app_nil_r].
      assert (transforms_original cwd cfg inputAbs (ExecFile cmd args)) as Hexec.
      { exists step. split; [done|]. split; [done|]. split; [by exists inputAbs|].
        intros p. simpl. rewrite (source_argument_invocation _ _ _ _ _ _ _ Ht).
        split; [by intros [= ->]|by intros ->]. }
      destruct (on_execFile _ _ _ _); eexists; (split; [done|]);
        repeat first [apply Forall_nil_2 | apply Forall_cons_2]; done. }
  destruct (H1 h) as (calls & Heq & HF1). destruct (H2 h) as (calls' & Heq' & HF2).
  rewrite Heq in Heq'. apply app_inv_head in Heq' as <-.
  exists calls. split; [done|]. split; [done|]. split; [done|].
  intros c Hc. rewrite Forall_forall in HF2. specialize (HF2 c Hc).
  destruct c as [| |src dst|cmd args|]; try done;
    destruct HF2 as (step & Hin & _ & Hmade & Hsrc); exists step;
    (split; [done|]); (split; [done|]); intros other; apply Hsrc.
Qed.

(** With the output directory the input directory and an empty suffix, the
    output path of the first step is the path of the input: pngquant
    writes over the input, and magick then reads what pngquant wrote. *)
Lemma steps_read_the_original_counterexample :
  let first :=
    {| name := "pngquant"; enabled := true; matchExt := ["png"];
       suffix := None; profile := "default" |} in
  let second :=
    {| name := "imagemagick_compress"; enabled := true; matchExt := ["png"];
       suffix := Some "_im"; profile := "default" |} in
  let cfg :=
    {| inputDir := "/in"; outputDir := "/in";
       tools := <["pngquant" := "pngquant"]> (<["magick" := "magick"]> ∅);
       includeExt := ["png"]; excludePatterns := [];
       pipeline := [first; second];
       profiles := None;
       recursive := true; preserveTree := true; dryRun := false; concurrency := None;
       writePerFile := false; csvPath := "metrics.csv" |} in
  step_outFile "/w" cfg "/in/a.png" first = "/in/a.png" ∧
  ∃ calls,
    processOne "/w" (example_env false false 100 60) cfg "/in/a.png" [] = (Returned tt, calls) ∧
    calls !! 3%nat
    = Some (ExecFile (Some "pngquant") [AStr "--output"; AStr "/in/a.png"; AStr "/in/a.png"]) ∧
    calls !! 7%nat
    = Some (ExecFile (Some "magick") [AStr "convert"; AStr "/in/a.png"; AStr "/in/a_im.png"]).
Proof.
  split; [vm_compute; reflexivity|].
  eexists. split; [vm_compute; reflexivity|]. split; reflexivity.
Qed.

(** C8. An argument is a format prefix exactly when it is a string that
    ends with a colon.  The [imagemagick_compress] step runs the tool on
    [convert], the source, the arguments of the profile that are no format
    prefix, in their order, and the output path with the last format prefix
    of the profile, if there is one, put before it.  The [pngquant] and
    [mozjpeg] steps pass every argument of their profile as it is. *)
Theorem format_prefix_only_for_imagemagick env cfg step inExt outFile src :
  (∀ a p, format_prefix_of a = Some p ↔ a = AStr p ∧ ∃ s, p = s +:+ ":") ∧
  (name step = "imagemagick_compress" →
     let profileArgs :=
       profile_args cfg step
         (if decide (inExt = "png") then "imagemagick_png" else "imagemagick_jpg") in
     runTool env cfg step inExt outFile src =
     execFileAsync env (tools cfg !! "magick")
       ([AStr "convert"; AStr src]
        ++ filter (λ a, format_prefix_of a = None) profileArgs
        ++ [AStr (from_option (λ p, p +:+ outFile) outFile
                    (last (omap format_prefix_of profileArgs)))])) ∧
  (name step = "pngquant" →
     runTool env cfg step inExt outFile src =
     execFileAsync env (tools cfg !! "pngquant")
       (profile_args cfg step "pngquant" ++ [AStr "--output"; AStr outFile; AStr src])) ∧
  (name step = "mozjpeg" →
     runTool env cfg step inExt outFile src =
     execFileAsync env (tools cfg !! "mozjpeg")
       (profile_args cfg step "mozjpeg" ++ [AStr "-outfile"; AStr outFile; AStr src])).
Proof.
  split; [|split; [|split]].
  - intros a p. destruct a as [s|n]; simpl.
    + destruct (endsWith ":" s) eqn:He.
      * apply endsWith_spec in He as [pre ->]. split.
        -- intros [= <-]. eauto.
        -- intros [[= <-] _]. done.
      * split; [done|]. intros [[= ->] [pre ->]].
        assert (endsWith ":" (pre +:+ ":") = true) as Ht; [|congruence].
        apply endsWith_spec. eauto.
    + split; [done|]. by intros [? _].
  - intros Hn profileArgs. rewrite runTool_invocation. unfold tool_invocation.
    rewrite Hn. simpl. done.
  - intros Hn. rewrite runTool_invocation. unfold tool_invocation. by rewrite Hn.
  - intros Hn. rewrite runTool_invocation. unfold tool_invocation. by rewrite Hn.
Qed.




(** C10. Outside a dry run, for a step of a known tool whose profile is
    missing from the configuration or has no entry for the tool, and whose
    output directory can be made: the tool is run with the arguments that
    name the output and the source and no other, and the outcome of the
    step is the one of the tool: status [ok] with the elapsed time when the
    tool fulfils, status [error] with the tool's diagnostic when it
    rejects. *)
Theorem missing_profile_is_no_arguments cwd env cfg inputAbs step key h :
  dryRun cfg = false →
  profile_key_of step (extOf inputAbs) = Some key →
  profile_missing cfg step key →
  on_mkdir env h (Path.dirname (step_outFile cwd cfg inputAbs step)) = None →
  let outFile := step_outFile cwd cfg inputAbs step in
  let args := path_arguments step outFile inputAbs in
  let h1 := h ++ [Mkdir (Path.dirname outFile)] in
  let h2 := h1 ++ [Stat inputAbs] in
  profile_args cfg step key = [] ∧
  ∃ cmd,
    tool_invocation cfg step (extOf inputAbs) outFile inputAbs = Some (cmd, args) ∧
    runStep cwd env cfg inputAbs (Path.resolve cwd [inputDir cfg])
      (Path.resolve cwd [outputDir cfg]) step h =
    match on_execFile env h2 cmd args with
    | inl elapsedMs =>
        (Returned (ok_outcome outFile (name step) (on_stat env h1 inputAbs)
                     (on_stat env (h2 ++ [ExecFile cmd args]) outFile) elapsedMs),
         h2 ++ [ExecFile cmd args; Stat outFile])
    | inr e =>
        (Returned (error_outcome outFile (name step) (on_stat env h1 inputAbs) e),
         h2 ++ [ExecFile cmd args])
    end.
Proof.
  intros Hdry Hkey Hmiss Hmk. cbv zeta.
  split; [by apply profile_args_missing|].
  assert (∃ cmd, tool_invocation cfg step (extOf inputAbs) (step_outFile cwd cfg inputAbs step)
                   inputAbs
                 = Some (cmd, path_arguments step (step_outFile cwd cfg inputAbs step) inputAbs))
    as [cmd Hinv].
  { unfold profile_key_of in Hkey. unfold tool_invocation, path_arguments.
    repeat case_decide; simplify_eq; rewrite (profile_args_missing _ _ _ Hmiss); eauto. }
  exists cmd. split; [done|].
  rewrite runStep_cases. rewrite Hmk. rewrite attempt_cases, Hdry, Hinv.
  rewrite <- !List.app_assoc. simpl.
  by destruct (on_execFile env _ cmd _).
Qed.

Lemma missing_profile_is_no_arguments_witness :
  runStep "/w" (example_env false false 100 60)
    (example_cfg [] false true) "/in/a.png" "/in" "/out"
    {| name := "mozjpeg"; enabled := true; matchExt := ["png"]; suffix := Some "_m";
       profile := "absent" |} []
  = (Returned (ok_outcome "/out/a_m.jpg" "mozjpeg" (Some 100%N) (Some 60%N) 5),
     [Mkdir "/out"; Stat "/in/a.png";
      ExecFile (Some "cjpeg") [AStr "-outfile"; AStr "/out/a_m.jpg"; AStr "/in/a.png"];
      Stat "/out/a_m.jpg"]).
Proof.
  destruct (missing_profile_is_no_arguments "/w" (example_env false false 100 60)
              (example_cfg [] false true) "/in/a.png"
              {| name := "mozjpeg"; enabled := true; matchExt := ["png"]; suffix := Some "_m";
                 profile := "absent" |} "mozjpeg" [])
    as (_ & cmd & Hinv & Hrun);
    [reflexivity|reflexivity|vm_compute; exact I|reflexivity|].
  vm_compute in Hinv. injection Hinv as <-. exact Hrun.
Defined.

(** * Further properties of the code *)

(** ** Discovery: [walk], [extOf], [baseNameNoExt], [matchFile] *)

Module WalkFacts.

Lemma length_flat_map {A B} (f : A → list B) l :
  length (flat_map f l) = sum_list ((λ x, length (f x)) <$> l).
Proof. induction l as [|x l IH]; simpl; [done|]. by rewrite length_app, IH. Qed.

Lemma walk_entry_count dir e : length (walk_entry dir true e) = count_files e.
Proof.
  revert dir. induction e as [n|n sub IH] using dirent_rect'; intros dir; simpl; [done|].
  rewrite length_flat_map. f_equal.
  apply Forall_fmap_ext. eapply Forall_impl; [exact IH|]. intros e He. apply He.
Qed.

Lemma sublist_flat_map {A B} (f g : A → list B) l :
  (∀ x, f x `sublist_of` g x) → flat_map f l `sublist_of` flat_map g l.
Proof.
  intros H. induction l as [|x l IH]; simpl; [done|]. by apply sublist_app.
Qed.

Lemma fmap_flat_map {A B C} (g : B → C) (f : A → list B) l :
  g <$> flat_map f l = flat_map (λ x, g <$> f x) l.
Proof. induction l as [|x l IH]; simpl; [done|]. by rewrite fmap_app, IH. Qed.

Lemma flat_map_ext_Forall {A B} (f g : A → list B) l :
  Forall (λ x, f x = g x) l → flat_map f l = flat_map g l.
Proof. induction 1 as [|x l Hx _ IH]; simpl; [done|]. by rewrite Hx, IH. Qed.

(** The paths a recursive [walk] yields for an entry are the paths of the
    files below it. *)
Lemma walk_entry_files e :
  ∀ S, valid_names S → valid_entry e = true →
    walk_entry (rooted S) true e = (λ names, rooted (S ++ names)) <$> files_below e.
Proof.
  induction e as [n|n sub IH] using dirent_rect'; intros S HS Hv; simpl in *.
  - by rewrite join_under.
  - apply andb_true_iff in Hv as [Hn Hsub]. rewrite join_under by done.
    rewrite <- list_fmap_compose, fmap_flat_map. apply flat_map_ext_Forall.
    rewrite forallb_forall in Hsub. rewrite Forall_forall in IH |- *.
    intros e He. rewrite (IH e He (S ++ [n])).
    + apply list_fmap_ext. intros _ names _. simpl. by rewrite <- List.app_assoc.
    + apply Forall_app. split; [done|by apply Forall_cons_2].
    + apply Hsub. by apply list_elem_of_In.
Qed.

Lemma yield_each_returned {A B} (f : B → list string * bool) (g : A → B)
    (h : A → list string) l :
  Forall (λ x, f (g x) = (h x, true)) l → yield_each f (g <$> l) = (flat_map h l, true).
Proof. induction 1 as [|x l Hx _ IH]; csimpl; [done|]. by rewrite Hx, IH. Qed.

Lemma yield_each_app {A} (f : A → list string * bool) l1 l2 :
  yield_each f (l1 ++ l2)
  = let (ys, returned) := yield_each f l1 in
    if returned then let (zs, returned') := yield_each f l2 in (ys ++ zs, returned')
    else (ys, false).
Proof.
  induction l1 as [|x l1 IH]; simpl; [by destruct (yield_each f l2)|].
  destruct (f x) as [ys []]; [|done]. rewrite IH.
  destruct (yield_each f l1) as [zs []]; [|done].
  destruct (yield_each f l2) as [ws r]. by rewrite List.app_assoc.
Qed.

(** Where [readdir] fulfils everywhere the generator returns, and yields
    what [walk] gives. *)
Lemma walk_node_readable rec e :
  ∀ dir, walk_node dir rec (readable e) = (walk_entry dir rec e, true).
Proof.
  induction e as [n|n sub IH] using dirent_rect'; intros dir; simpl; [done|].
  destruct rec; [|done]. apply yield_each_returned.
  eapply Forall_impl; [exact IH|]. intros e He. apply He.
Qed.

(** A [walk] that is not recursive gets through every entry. *)
Lemma walk_flat_returns dir nodes : (yield_each (walk_node dir false) nodes).2 = true.
Proof.
  induction nodes as [|e nodes IH]; simpl; [done|].
  assert ((walk_node dir false e).2 = true) as He by (by destruct e).
  destruct (walk_node dir false e) as [ys r]. simpl in He. subst r.
  by destruct (yield_each (walk_node dir false) nodes).
Qed.

(** What [walk] yields for an entry starts with the name of the entry. *)
Lemma walk_entry_names rec e :
  ∀ S p, valid_entry e = true → valid_names S →
    p ∈ walk_entry (rooted S) rec e →
    ∃ rest, valid_names rest ∧ p = rooted (S ++ name_of e :: rest).
Proof.
  intros S p Hv HS Hp. destruct e as [n|n sub]; simpl in *.
  - apply list_elem_of_singleton in Hp as ->. exists []. rewrite join_under by done. done.
  - apply andb_true_iff in Hv as [Hn Hsub]. destruct rec; [|by apply elem_of_nil in Hp].
    rewrite join_under in Hp by done.
    destruct (walk_under true sub (S ++ [n]) p Hsub) as (names & Hne & Hnames & ->); [|done|].
    { apply Forall_app. split; [done|by apply Forall_cons_2]. }
    exists names. split; [done|]. by rewrite <- List.app_assoc.
Qed.

Lemma NoDup_flat_map {A B K} (f : A → list B) (key : A → K) l :
  NoDup (key <$> l) →
  (∀ x, x ∈ l → NoDup (f x)) →
  (∀ x y b, x ∈ l → y ∈ l → b ∈ f x → b ∈ f y → key x = key y) →
  NoDup (flat_map f l).
Proof.
  induction l as [|x l IH]; simpl; [constructor|].
  intros [Hx Hl]%NoDup_cons Hf Hk. apply NoDup_app. split; [apply Hf; left|]. split.
  - intros b Hb (y & Hby & Hy)%list_elem_of_In%in_flat_map.
    apply list_elem_of_In in Hby, Hy. apply Hx.
    rewrite (Hk x y b); [by apply list_elem_of_fmap_2|left|by right|done|done].
  - apply IH; [done| |].
    + intros y Hy. apply Hf. by right.
    + intros y z b Hy Hz. apply Hk; by right.
Qed.

(** Two paths [walk] yields for entries of one directory are the same only
    when the entries have the same name. *)
Lemma walk_entry_same_name rec S x y b :
  valid_names S → valid_entry x = true → valid_entry y = true →
  b ∈ walk_entry (rooted S) rec x → b ∈ walk_entry (rooted S) rec y →
  name_of x = name_of y.
Proof.
  intros HS Hx Hy Hbx Hby.
  destruct (walk_entry_names rec x S b Hx HS Hbx) as (r1 & Hr1 & ->).
  destruct (walk_entry_names rec y S _ Hy HS Hby) as (r2 & Hr2 & Heq).
  assert (valid_name (name_of x) = true) as Hnx.
  { destruct x; simpl in *; [done|]. by apply andb_true_iff in Hx as [? _]. }
  assert (valid_name (name_of y) = true) as Hny.
  { destruct y; simpl in *; [done|]. by apply andb_true_iff in Hy as [? _]. }
  apply rooted_inj in Heq.
  - apply app_inv_head in Heq. by injection Heq.
  - apply valid_plain, Forall_app. split; [done|]. by apply Forall_cons_2.
  - apply valid_plain, Forall_app. split; [done|]. by apply Forall_cons_2.
Qed.

Lemma walk_entry_NoDup rec e :
  ∀ S, valid_names S → valid_entry e = true → distinct_names e = true →
    NoDup (walk_entry (rooted S) rec e).
Proof.
  induction e as [n|n sub IH] using dirent_rect'; intros S HS Hv Hd; simpl in *.
  - apply NoDup_singleton.
  - destruct rec; [|constructor].
    apply andb_true_iff in Hv as [Hn Hsub]. apply andb_true_iff in Hd as [Hnd Hdsub].
    apply bool_decide_eq_true in Hnd.
    rewrite forallb_forall in Hsub. rewrite forallb_forall in Hdsub.
    rewrite Forall_forall in IH.
    rewrite join_under by done.
    assert (valid_names (S ++ [n])) as HS'.
    { apply Forall_app. split; [done|by apply Forall_cons_2]. }
    apply (NoDup_flat_map _ name_of); [done| |].
    + intros x Hx. apply IH; [done|done| |]; [apply Hsub|apply Hdsub]; by apply list_elem_of_In.
    + intros x y b Hx Hy. apply walk_entry_same_name; [done| |];
        apply Hsub; by apply list_elem_of_In.
Qed.

End WalkFacts.

Import WalkFacts.

(** X1. Where [readdir] fulfils, a recursive [walk] yields for every file
    of the tree the path of that file, the directory walked followed by the
    names from there down to the file, once, in the order of the listings
    and a directory's files where the directory is listed; a [walk] that is
    not recursive yields the paths of the files the directory itself lists.
    So a recursive [walk] yields as many paths as the tree has files, and
    the paths of the other [walk] are among them, in the same order.  With
    a [readdir] that may reject, the generator returns with these paths
    where every [readdir] fulfils; it rejects at once when the [readdir] of
    the directory walked rejects; when the [readdir] of a directory listed
    rejects and those before it could be read, a recursive [walk] yields
    the paths found before that directory and then rejects; a [walk] that
    is not recursive reads no directory listed and returns. *)
Theorem walk_yields_each_file S entries :
  valid_names S →
  forallb valid_entry entries = true →
  walk (rooted S) true entries
  = (λ names, rooted (S ++ names)) <$> flat_map files_below entries ∧
  walk (rooted S) false entries = (λ n, rooted (S ++ [n])) <$> omap file_name entries ∧
  (∀ dir,
     length (walk dir true entries) = sum_list (count_files <$> entries) ∧
     walk dir false entries = omap (direct_file dir) entries ∧
     walk dir false entries `sublist_of` walk dir true entries) ∧
  (∀ dir rec, walk_gen dir rec (Some (readable <$> entries)) = (walk dir rec entries, true)) ∧
  (∀ dir rec, walk_gen dir rec None = ([], false)) ∧
  (∀ dir n more,
     walk_gen dir true (Some ((readable <$> entries) ++ DirNode n None :: more))
     = (walk dir true entries, false)) ∧
  (∀ dir nodes, (walk_gen dir false (Some nodes)).2 = true).
Proof.
  intros HS Hv. rewrite forallb_forall in Hv.
  assert (∀ dir rec, yield_each (walk_node dir rec) (readable <$> entries)
                     = (walk dir rec entries, true)) as Hgen.
  { intros dir rec. apply yield_each_returned, Forall_forall. intros e _.
    apply walk_node_readable. }
  unfold walk. repeat apply conj.
  - rewrite fmap_flat_map. apply flat_map_ext_Forall, Forall_forall. intros e He.
    apply walk_entry_files; [done|]. apply Hv. by apply list_elem_of_In.
  - clear Hgen. induction entries as [|[n|n sub] l IH]; csimpl; [done| |].
    + rewrite join_under; [|done|apply (Hv (File n)); by left].
      f_equal. apply IH. intros e He. apply Hv. by right.
    + apply IH. intros e He. apply Hv. by right.
  - intros dir. split; [|split].
    + rewrite length_flat_map. f_equal.
      apply Forall_fmap_ext, Forall_forall. intros e _. apply walk_entry_count.
    + clear. induction entries as [|[n|n sub] l IH]; simpl; [done| |done]. by rewrite IH.
    + apply sublist_flat_map. intros [n|n sub]; simpl; [done|]. apply sublist_nil_l.
  - done.
  - done.
  - intros dir n more. unfold walk_gen. rewrite yield_each_app, Hgen. simpl.
    unfold walk. by rewrite List.app_nil_r.
  - intros dir nodes. apply walk_flat_returns.
Qed.

Lemma walk_yields_each_file_witness :
  walk "/in" true [File "a.png"; Dir "sub" [File "b.jpg"; Dir "deep" [File "c.png"]]]
  = ["/in/a.png"; "/in/sub/b.jpg"; "/in/sub/deep/c.png"] ∧
  walk_gen "/in" true
    (Some [FileNode "a.png"; DirNode "sub" (Some [FileNode "b.jpg"]); DirNode "locked" None;
           FileNode "z.png"])
  = (["/in/a.png"; "/in/sub/b.jpg"], false).
Proof.
  destruct (walk_yields_each_file ["in"]
              [File "a.png"; Dir "sub" [File "b.jpg"; Dir "deep" [File "c.png"]]])
    as [Hpaths _]; [by repeat constructor|reflexivity|].
  destruct (walk_yields_each_file ["in"] [File "a.png"; Dir "sub" [File "b.jpg"]])
    as (_ & _ & _ & _ & _ & Hrej & _); [by repeat constructor|reflexivity|].
  split.
  - etrans; [exact Hpaths|]. vm_compute. reflexivity.
  - etrans; [exact (Hrej "/in" "locked" [FileNode "z.png"])|]. vm_compute. reflexivity.
Defined.

(** X2. A task is an absolute path in normal form below the input root:
    its path relative to the root is a list of entry names joined by
    separators, not empty and with no [".."] in it; and the extension
    [main] selects it by, the one of the relative path, is the extension
    [processOne] matches the steps against, the one of the absolute path. *)
Theorem tasks_lie_below_the_input_root cwd cfg entries abs :
  Path.isAbsolute cwd = true →
  forallb valid_entry entries = true →
  abs ∈ discover cwd cfg entries →
  ∃ names,
    names ≠ [] ∧ valid_names names ∧
    Path.relative cwd (Path.resolve cwd [inputDir cfg]) abs = join "/" names ∧
    Path.isAbsolute abs = true ∧ Path.resolve cwd [abs] = abs ∧
    extOf (Path.relative cwd (Path.resolve cwd [inputDir cfg]) abs) = extOf abs.
Proof.
  intros Hcwd Hentries [_ Hwalk]%list_elem_of_filter.
  destruct (resolve_rooted cwd (inputDir cfg) Hcwd) as (S & HS & HinRoot).
  rewrite HinRoot in *.
  destruct (walk_under _ _ _ _ Hentries HS Hwalk) as (names & Hne & Hnames & ->).
  exists names. rewrite relative_under by done.
  split; [done|]. split; [done|]. split; [done|]. split; [done|].
  split; [apply resolve_idem, Forall_app; done|].
  unfold extOf. f_equal. f_equal. apply extname_same_component.
  destruct (exists_last Hne) as (init & f & ->).
  apply Forall_app in Hnames as [Hinit Hf]. apply Forall_cons in Hf as [Hf _].
  destruct (proj1 (valid_name_spec f) Hf) as [Hfp _].
  destruct (last_component_join init f (valid_plain _ Hinit) Hfp) as [-> _].
  rewrite List.app_assoc. symmetry. apply last_component_join; [|done].
  apply valid_plain, Forall_app. done.
Qed.

Lemma tasks_lie_below_the_input_root_witness :
  ∃ names,
    names ≠ [] ∧
    Path.relative "/w" "/in" "/in/sub/Photo.PNG" = join "/" names.
Proof.
  destruct (tasks_lie_below_the_input_root "/w" (example_cfg [] false true)
              [File "a.png"; Dir "sub" [File "Photo.PNG"]] "/in/sub/Photo.PNG")
    as (names & Hne & _ & Hrel & _); [reflexivity|reflexivity| |].
  - apply (bool_decide_eq_true_1 _). vm_compute. reflexivity.
  - exists names. split; [exact Hne|exact Hrel].
Defined.

(** X3. When no directory lists a name twice, [walk] yields no path twice
    and no file is a task twice. *)
Theorem tasks_are_distinct cwd cfg entries :
  Path.isAbsolute cwd = true →
  forallb valid_entry entries = true →
  NoDup (name_of <$> entries) → forallb distinct_names entries = true →
  NoDup (walk (Path.resolve cwd [inputDir cfg]) (recursive cfg) entries) ∧
  NoDup (discover cwd cfg entries).
Proof.
  intros Hcwd Hv Hn Hd.
  destruct (resolve_rooted cwd (inputDir cfg) Hcwd) as (S & HS & HinRoot).
  assert (NoDup (walk (Path.resolve cwd [inputDir cfg]) (recursive cfg) entries)) as Hw.
  { rewrite HinRoot. unfold walk.
    rewrite forallb_forall in Hv. rewrite forallb_forall in Hd.
    apply (NoDup_flat_map _ name_of); [done| |].
    - intros x Hx. apply walk_entry_NoDup; [done| |]; [apply Hv|apply Hd]; by apply list_elem_of_In.
    - intros x y b Hx Hy. apply walk_entry_same_name; [done| |];
        apply Hv; by apply list_elem_of_In. }
  split; [done|]. unfold discover. by apply NoDup_filter.
Qed.

Lemma tasks_are_distinct_witness :
  NoDup (discover "/w" (example_cfg [] false true)
           [File "a.png"; Dir "sub" [File "a.png"; File "Photo.PNG"]; Dir "skip" [File "b.png"]]).
Proof.
  apply (tasks_are_distinct "/w" (example_cfg [] false true)); [reflexivity|reflexivity| |reflexivity].
  apply (bool_decide_eq_true_1 _). vm_compute. reflexivity.
Defined.

Module CaseFacts.

Lemma toLowerCase_append a b : toLowerCase (a +:+ b) = toLowerCase a +:+ toLowerCase b.
Proof. induction a as [|x a IH]; simpl; [done|]. by rewrite IH. Qed.

Lemma lower_char_sep a : lower_char a = Path.sep ↔ a = Path.sep.
Proof. rewrite lower_char_not_letter by (vm_compute; done). split; [by intros [? _]|].
  intros ->. split; [done|]. vm_compute. intros [H _]. by apply H. Qed.

Lemma lower_char_dot a : lower_char a = dot ↔ a = dot.
Proof. rewrite lower_char_not_letter by (vm_compute; done). split; [by intros [? _]|].
  intros ->. split; [done|]. vm_compute. intros [H _]. by apply H. Qed.

Lemma toLowerCase_nil s : toLowerCase s = "" ↔ s = "".
Proof. by destruct s. Qed.

Lemma split_toLowerCase s :
  split Path.sep (toLowerCase s) = toLowerCase <$> split Path.sep s.
Proof.
  induction s as [|a s IH]; simpl; [done|]. rewrite IH.
  destruct (decide (a = Path.sep)) as [->|Ha].
  - by rewrite decide_True.
  - rewrite decide_False by (by rewrite lower_char_sep).
    pose proof (split_nonnil Path.sep s). by destruct (split Path.sep s).
Qed.

Lemma segments_toLowerCase s :
  Path.segments (toLowerCase s) = toLowerCase <$> Path.segments s.
Proof.
  unfold Path.segments. rewrite split_toLowerCase.
  induction (split Path.sep s) as [|x l IH]; [done|].
  rewrite fmap_cons. destruct (decide (x = "")) as [->|Hx].
  - rewrite !filter_cons_False by naive_solver. apply IH.
  - rewrite !filter_cons_True; [|done|by rewrite toLowerCase_nil].
    by rewrite fmap_cons, IH.
Qed.

Lemma last_component_toLowerCase s :
  Path.last_component (toLowerCase s) = toLowerCase (Path.last_component s).
Proof.
  unfold Path.last_component. rewrite segments_toLowerCase.
  induction (Path.segments s) as [|x [|y l] IH]; [done|done|]. apply IH.
Qed.

Lemma last_dot_toLowerCase c :
  Path.last_dot (toLowerCase c)
  = (λ se, (toLowerCase se.1, toLowerCase se.2)) <$> Path.last_dot c.
Proof.
  induction c as [|a c IH]; simpl; [done|]. rewrite IH.
  destruct (Path.last_dot c) as [[stem ext]|]; simpl; [done|].
  destruct (decide (a = dot)) as [->|Ha].
  - by rewrite decide_True.
  - by rewrite decide_False by (by rewrite lower_char_dot).
Qed.

Lemma toLowerCase_dotdot c : toLowerCase c = ".." ↔ c = "..".
Proof.
  split; [|by intros ->].
  destruct c as [|a [|b [|??]]]; simpl; [done|done| |done].
  intros [= Ha%(proj1 (lower_char_dot _)) Hb%(proj1 (lower_char_dot _))]. by subst.
Qed.

(** The extension of the lower-cased path is the lower-cased extension. *)
Lemma extname_toLowerCase p : Path.extname (toLowerCase p) = toLowerCase (Path.extname p).
Proof.
  unfold Path.extname. rewrite last_component_toLowerCase, last_dot_toLowerCase.
  destruct (Path.last_dot (Path.last_component p)) as [[stem ext]|]; simpl; [|done].
  rewrite (bool_decide_ext (toLowerCase stem = "") (stem = "") (toLowerCase_nil stem)).
  rewrite (bool_decide_ext _ _ (toLowerCase_dotdot (Path.last_component p))).
  by destruct (_ || _).
Qed.

(** An extension starts with a dot, has no other, and has no separator. *)
Lemma extname_shape p :
  Path.extname p = "" ∨
  ∃ e, Path.extname p = String dot e ∧ has_char dot e = false ∧ has_char Path.sep e = false.
Proof.
  unfold Path.extname.
  destruct (Path.last_dot (Path.last_component p)) as [[stem ext]|] eqn:Hd; [|by left].
  destruct (_ || _); [by left|]. right.
  destruct (last_dot_Some _ _ _ Hd) as [Hc (e & -> & He)]. exists e. split; [done|]. split; [done|].
  pose proof (last_component_no_sep p) as Hs. rewrite Hc, has_char_app in Hs.
  apply orb_false_iff in Hs as [_ Hs]. by simpl in Hs.
Qed.

(** A name is its stem followed by its extension. *)
Lemma stem_extname p : baseNameNoExt p +:+ Path.extname p = Path.last_component p.
Proof.
  rewrite baseNameNoExt_stem. unfold Path.extname.
  destruct (Path.last_dot (Path.last_component p)) as [[stem ext]|] eqn:Hd.
  - destruct (last_dot_Some _ _ _ Hd) as [Hc _].
    destruct (_ || _).
    + rewrite strip_suffix_empty. simpl. apply append_nil_r.
    + rewrite Hc, strip_suffix_app. simpl. done.
  - rewrite strip_suffix_empty. simpl. apply append_nil_r.
Qed.

End CaseFacts.

Import CaseFacts.

(** On a string of code units below 128 [toLowerCase] is the function of
    JavaScript, and the extension of such a path is such a string. *)
Module AsciiFacts.

Lemma ascii_only_split c s :
  ascii_only s = true → Forall (λ x, ascii_only x = true) (split c s).
Proof.
  induction s as [|a s IH]; simpl; [by repeat constructor|].
  intros [Ha Hs]%andb_true_iff. specialize (IH Hs). case_decide.
  - by apply Forall_cons_2.
  - destruct (split c s) as [|x xs]; [by repeat constructor; simpl; rewrite Ha|].
    apply Forall_cons in IH as [Hx Hxs]. apply Forall_cons_2; [|done].
    simpl. by rewrite Ha, Hx.
Qed.

Lemma ascii_only_last_component p :
  ascii_only p = true → ascii_only (Path.last_component p) = true.
Proof.
  intros Hp. unfold Path.last_component, Path.segments.
  assert (Forall (λ x, ascii_only x = true)
            (filter (λ s, s ≠ "") (split Path.sep p))) as H.
  { apply Forall_forall. intros x [_ Hx]%list_elem_of_filter.
    pose proof (ascii_only_split Path.sep p Hp) as HF. rewrite Forall_forall in HF.
    by apply HF. }
  induction H as [|x l Hx Hl IH]; [done|]. destruct l; [done|]. apply IH.
Qed.

Lemma ascii_only_last_dot c stem ext :
  Path.last_dot c = Some (stem, ext) → ascii_only c = true → ascii_only ext = true.
Proof.
  revert stem ext. induction c as [|a c IH]; intros stem ext; simpl; [done|].
  intros H [Ha Hc]%andb_true_iff. destruct (Path.last_dot c) as [[st e]|].
  - injection H as <- <-. by eapply IH.
  - case_decide; [|done]. injection H as <- <-. simpl. by rewrite Ha, Hc.
Qed.

Lemma ascii_only_extname p : ascii_only p = true → ascii_only (Path.extname p) = true.
Proof.
  intros Hp. unfold Path.extname.
  destruct (Path.last_dot (Path.last_component p)) as [[stem ext]|] eqn:Hd; [|done].
  destruct (_ || _); [done|]. eapply ascii_only_last_dot; [done|].
  by apply ascii_only_last_component.
Qed.

Lemma lower_char_ascii c :
  (N_of_ascii c <? 128)%N = true → (N_of_ascii (lower_char c) <? 128)%N = true.
Proof.
  unfold lower_char. destruct (_ && _) eqn:H; [|done].
  apply andb_true_iff in H as [H1 H2]. apply N.leb_le in H1, H2. intros _.
  rewrite N_ascii_embedding by lia. apply N.ltb_lt. lia.
Qed.

Lemma ascii_only_toLowerCase s : ascii_only s = true → ascii_only (toLowerCase s) = true.
Proof.
  induction s as [|a s IH]; simpl; [done|]. intros [Ha Hs]%andb_true_iff.
  by rewrite lower_char_ascii, IH.
Qed.

Lemma ascii_only_extOf p : ascii_only p = true → ascii_only (extOf p) = true.
Proof.
  intros Hp. unfold extOf. apply ascii_only_toLowerCase.
  pose proof (ascii_only_extname p Hp) as H. destruct (Path.extname p); [done|].
  simpl in *. by apply andb_true_iff in H as [_ H].
Qed.

End AsciiFacts.

Import AsciiFacts.

(** X4. For a path of code units below 128, on which [toLowerCase] is the
    function of JavaScript: [extOf] gives a text of such code units, in
    lower case, with no dot and no separator in it, and it gives the same
    text for the path in lower case. *)
Theorem extOf_is_a_lower_case_extension p :
  ascii_only p = true →
  ascii_only (extOf p) = true ∧
  toLowerCase (extOf p) = extOf p ∧
  has_char dot (extOf p) = false ∧
  has_char Path.sep (extOf p) = false ∧
  extOf (toLowerCase p) = extOf p.
Proof.
  intros Hp. split; [by apply ascii_only_extOf|].
  assert (has_char dot (extOf p) = false ∧ has_char Path.sep (extOf p) = false) as [Hdot Hsep].
  { unfold extOf. rewrite !has_char_toLowerCase by (vm_compute; done).
    destruct (extname_shape p) as [->|(e & -> & ? & ?)]; done. }
  split; [apply toLowerCase_idem|]. split; [done|]. split; [done|].
  unfold extOf. by rewrite extname_toLowerCase, !toLowerCase_slice1, toLowerCase_idem.
Qed.

Lemma extOf_is_a_lower_case_extension_witness :
  extOf "/in/sub/Photo.PNG" = "png" ∧
  extOf (toLowerCase "/in/sub/Photo.PNG") = extOf "/in/sub/Photo.PNG".
Proof.
  split; [reflexivity|].
  by destruct (extOf_is_a_lower_case_extension "/in/sub/Photo.PNG" eq_refl) as (_ & _ & _ & _ & H).
Defined.

(** X5. What [baseNameNoExt] gives followed by the extension is the last
    component of the path; it is not empty when the path has a last
    component, and it has no separator. *)
Theorem name_and_extension_make_the_file_name p :
  baseNameNoExt p +:+ Path.extname p = Path.last_component p ∧
  (Path.last_component p ≠ "" → baseNameNoExt p ≠ "") ∧
  has_char Path.sep (baseNameNoExt p) = false.
Proof.
  split; [apply stem_extname|]. split; [|apply baseNameNoExt_no_sep].
  intros Hne Hb. pose proof (stem_extname p) as Hs. rewrite Hb in Hs. simpl in Hs.
  unfold Path.extname in Hs.
  destruct (Path.last_dot (Path.last_component p)) as [[stem ext]|] eqn:Hd; [|done].
  destruct (last_dot_Some _ _ _ Hd) as [Hc _].
  destruct (bool_decide (stem = "")) eqn:Hst; simpl in Hs; [done|].
  apply bool_decide_eq_false in Hst. destruct (bool_decide _); [done|].
  rewrite Hc in Hs. apply (f_equal String.length) in Hs. rewrite length_append in Hs.
  destruct stem; [done|]. simpl in Hs. lia.
Qed.

Module MatchFacts.

(** The name of a directory on a relative path is followed by a separator
    in it. *)
Lemma join_directory_occurs pre d post :
  post ≠ [] → ∃ a b, join "/" (pre ++ d :: post) = a +:+ (d +:+ "/") +:+ b.
Proof.
  intros Hpost. induction pre as [|x pre (a & b & IH)]; simpl app.
  - destruct post as [|y post]; [done|]. exists "", (join "/" (y :: post)).
    rewrite join_cons. simpl. by rewrite <- append_assoc.
  - destruct (pre ++ d :: post) as [|y t] eqn:Ht; [by destruct pre|].
    rewrite join_cons, IH. exists (x +:+ String Path.sep a), b.
    rewrite <- !append_assoc. simpl. done.
Qed.

Lemma matchFile_excluded rel cfg pat :
  pat ∈ excludePatterns cfg → includes pat rel = true → matchFile rel cfg = false.
Proof.
  intros Hpat Hinc. unfold matchFile. destruct (negb (bool_decide _)); [done|].
  apply negb_false_iff, existsb_exists. exists pat. split; [by apply list_elem_of_In|done].
Qed.

Lemma sublist_filter_impl {A} (P Q : A → Prop) `{∀ x, Decision (P x)} `{∀ x, Decision (Q x)}
    (l : list A) :
  (∀ x, P x → Q x) → filter P l `sublist_of` filter Q l.
Proof.
  intros HPQ. induction l as [|x l IH]; [done|].
  destruct (decide (P x)) as [HP|HP].
  - rewrite !filter_cons_True by auto. by apply sublist_skip.
  - rewrite (filter_cons_False P) by done. destruct (decide (Q x)).
    + rewrite filter_cons_True by done. by apply sublist_cons.
    + by rewrite filter_cons_False.
Qed.

End MatchFacts.

Import MatchFacts.

(** X6. [matchFile] rejects every path when each extension of the
    allow-list has an upper-case letter or a dot in it (so when the list is
    empty), when the empty pattern is excluded, and it rejects every path
    below a directory [d] when the pattern [d/] is excluded. *)
Theorem matchFile_rejects rel cfg :
  (∀ e, e ∈ includeExt cfg → toLowerCase e ≠ e ∨ has_char dot e = true) ∨
  "" ∈ excludePatterns cfg ∨
  (∃ pre d post, rel = join "/" (pre ++ d :: post) ∧ post ≠ [] ∧
                 d +:+ "/" ∈ excludePatterns cfg) →
  matchFile rel cfg = false.
Proof.
  intros [Hinc|[Hempty|(pre & d & post & -> & Hpost & Hpat)]].
  - unfold matchFile. rewrite bool_decide_eq_false_2; [done|]. intros Hin.
    destruct (Hinc _ Hin) as [H|H].
    + apply H, toLowerCase_idem.
    + unfold extOf in H. rewrite has_char_toLowerCase in H by (vm_compute; done).
      unfold Path.extname in H.
      destruct (Path.last_dot _) as [[stem ext]|] eqn:Hd; [|done].
      destruct (last_dot_Some _ _ _ Hd) as [_ (e & -> & He)].
      destruct (_ || _); simpl in H; congruence.
  - apply (matchFile_excluded rel cfg ""); [done|]. by destruct rel.
  - apply (matchFile_excluded _ cfg (d +:+ "/")); [done|].
    apply includes_spec. by apply join_directory_occurs.
Qed.

Lemma matchFile_rejects_witness :
  matchFile "a/skip/deep/b.png" (example_cfg [] false true) = false.
Proof.
  apply matchFile_rejects. right. right. exists ["a"], "skip", ["deep"; "b.png"].
  split; [reflexivity|]. split; [discriminate|]. vm_compute. apply list_elem_of_here.
Defined.

(** X7. With fewer extensions allowed and more patterns excluded, the task
    list is what is left of the former one, in the same order. *)
Theorem narrowing_the_selection_removes_tasks cwd cfg cfg' entries :
  inputDir cfg' = inputDir cfg → recursive cfg' = recursive cfg →
  includeExt cfg' ⊆ includeExt cfg →
  excludePatterns cfg ⊆ excludePatterns cfg' →
  discover cwd cfg' entries `sublist_of` discover cwd cfg entries.
Proof.
  intros Hin Hrec Hinc Hexc. unfold discover. rewrite Hin, Hrec.
  apply sublist_filter_impl. intros abs.
  rewrite !matchFile_spec. intros [He Hp]. split; [by apply Hinc|].
  intros pat Hpat. apply Hp. by apply Hexc.
Qed.

Lemma narrowing_the_selection_removes_tasks_witness :
  discover "/w" (example_cfg [] false true) [File "a.png"; Dir "sub" [File "Photo.PNG"]]
  `sublist_of`
  discover "/w"
    {| inputDir := "/in"; outputDir := "/out"; tools := ∅; includeExt := ["png"; "jpg"; "jpeg"; "gif"];
       excludePatterns := []; pipeline := []; profiles := None; recursive := true;
       preserveTree := false; dryRun := false; concurrency := None; writePerFile := true;
       csvPath := "metrics.csv" |}
    [File "a.png"; Dir "sub" [File "Photo.PNG"]].
Proof.
  apply narrowing_the_selection_removes_tasks; [reflexivity|reflexivity| |].
  - intros e He. simpl in *. rewrite !elem_of_cons in He. rewrite !elem_of_cons. tauto.
  - intros e He. by apply elem_of_nil in He.
Defined.

(** ** Output paths: [outPathForStep] as [processOne] calls it *)

Module DirnameFacts.

Lemma rev_app_append s t : String.rev_app s t = String.rev s +:+ t.
Proof.
  revert t. unfold String.rev. induction s as [|a s IH]; intros t; simpl; [done|].
  rewrite (IH (String a t)), (IH (String a "")). by rewrite <- append_assoc.
Qed.

Lemma rev_cons a s : String.rev (String a s) = String.rev s +:+ String a "".
Proof. unfold String.rev at 1. simpl. apply rev_app_append. Qed.

Lemma rev_append s t : String.rev (s +:+ t) = String.rev t +:+ String.rev s.
Proof.
  induction s as [|a s IH]; simpl.
  - by rewrite append_nil_r.
  - by rewrite !rev_cons, IH, append_assoc.
Qed.

Lemma rev_involutive s : String.rev (String.rev s) = s.
Proof.
  induction s as [|a s IH]; [done|]. by rewrite rev_cons, rev_append, IH.
Qed.

Lemma has_char_rev c s : has_char c (String.rev s) = has_char c s.
Proof.
  induction s as [|a s IH]; [done|]. rewrite rev_cons, has_char_app, IH. simpl.
  rewrite orb_false_r. apply orb_comm.
Qed.

Lemma drop_seps_plain s : has_char Path.sep s = false → Path.drop_seps s = s.
Proof.
  destruct s as [|a s]; simpl; [done|]. intros [Ha _]%orb_false_iff.
  apply bool_decide_eq_false in Ha. by rewrite decide_False.
Qed.

Lemma drop_non_seps_plain s t :
  has_char Path.sep s = false →
  Path.drop_non_seps (s +:+ t) = Path.drop_non_seps t.
Proof.
  induction s as [|a s IH]; simpl; [done|]. intros [Ha Hs]%orb_false_iff.
  apply bool_decide_eq_false in Ha. rewrite decide_False by done. by apply IH.
Qed.

(** The directory of [a/f] is [a]. *)
Lemma dirname_snoc c0 a f :
  plain_name f = true → (c0 ≠ Path.sep ∨ a ≠ "") →
  Path.dirname (String c0 a +:+ String Path.sep f) = String c0 a.
Proof.
  intros [Hne Hf]%plain_name_spec Hca. simpl.
  rewrite rev_append, rev_cons, <- append_assoc. simpl.
  assert (has_char Path.sep (String.rev f) = false) as Hrf by by rewrite has_char_rev.
  assert (String.rev f ≠ "") as Hrne.
  { intros H. apply (f_equal String.rev) in H. by rewrite rev_involutive in H. }
  destruct (String.rev f) as [|x r] eqn:Hr; [done|].
  simpl in Hrf. apply orb_false_iff in Hrf as [Hx Hrf]. apply bool_decide_eq_false in Hx.
  cbn [String.append Path.drop_seps]. rewrite decide_False by done.
  cbn [Path.drop_non_seps]. rewrite ?decide_False by done.
  rewrite drop_non_seps_plain by done. simpl.
  rewrite rev_involutive.
  destruct Hca as [Hc|Ha].
  - by rewrite (bool_decide_eq_false_2 _ Hc).
  - rewrite (bool_decide_eq_false_2 (String.rev a = "")); [by rewrite andb_false_r|].
    intros H. apply (f_equal String.rev) in H. by rewrite rev_involutive in H.
Qed.

(** A name alone has the directory ["."]. *)
Lemma dirname_plain f : plain_name f = true → Path.dirname f = ".".
Proof.
  intros [Hne Hf]%plain_name_spec. destruct f as [|c0 rest]; [done|]. simpl in *.
  apply orb_false_iff in Hf as [Hc Hrest]. apply bool_decide_eq_false in Hc.
  assert (has_char Path.sep (String.rev rest) = false) as Hr by by rewrite has_char_rev.
  rewrite drop_seps_plain by done.
  rewrite <- (append_nil_r (String.rev rest)), drop_non_seps_plain by done. simpl.
  by rewrite (bool_decide_eq_false_2 _ Hc).
Qed.

Lemma dirname_root_name f : plain_name f = true → Path.dirname (String Path.sep f) = "/".
Proof.
  intros [Hne Hf]%plain_name_spec. simpl.
  assert (has_char Path.sep (String.rev f) = false) as Hr by by rewrite has_char_rev.
  rewrite drop_seps_plain by done.
  rewrite <- (append_nil_r (String.rev f)), drop_non_seps_plain by done. simpl. done.
Qed.

Lemma join_snoc_sep l f : l ≠ [] → join "/" (l ++ [f]) = join "/" l +:+ String Path.sep f.
Proof.
  induction l as [|x l IH]; [done|]. intros _. destruct l as [|y l]; [done|].
  change ((x :: y :: l) ++ [f]) with (x :: ((y :: l) ++ [f])).
  change ((y :: l) ++ [f]) with (y :: (l ++ [f])) at 1.
  rewrite join_cons. change (y :: (l ++ [f])) with ((y :: l) ++ [f]). rewrite IH by done.
  rewrite join_cons. by rewrite <- append_assoc.
Qed.

Lemma join_plain_nonempty l : plain_names l → l ≠ [] → ∃ c0 a, join "/" l = String c0 a ∧ c0 ≠ Path.sep.
Proof.
  intros Hl Hne. destruct l as [|x l]; [done|]. apply Forall_cons in Hl as [Hx _].
  apply plain_name_spec in Hx as [Hxne Hx]. destruct x as [|c0 x]; [done|].
  simpl in Hx. apply orb_false_iff in Hx as [Hc _]. apply bool_decide_eq_false in Hc.
  destruct l as [|y l]; simpl; eauto.
Qed.

(** The directory of a relative path of names is the path of the names
    before the last, ["."] when there is none. *)
Lemma dirname_relative init f :
  plain_names init → plain_name f = true →
  Path.dirname (join "/" (init ++ [f])) = if decide (init = []) then "." else join "/" init.
Proof.
  intros Hinit Hf. case_decide as Hi; [subst; by apply dirname_plain|].
  rewrite join_snoc_sep by done.
  destruct (join_plain_nonempty init Hinit Hi) as (c0 & a & -> & Hc).
  apply dirname_snoc; auto.
Qed.

(** The directory of an absolute path of names is the path of the names
    before the last. *)
Lemma dirname_rooted L f :
  plain_names L → plain_name f = true → Path.dirname (rooted (L ++ [f])) = rooted L.
Proof.
  intros HL Hf. unfold rooted. destruct (decide (L = [])) as [->|Hne].
  - by apply dirname_root_name.
  - rewrite join_snoc_sep by done.
    destruct (join_plain_nonempty L HL Hne) as (c0 & a & -> & Hc).
    apply (dirname_snoc Path.sep (String c0 a)); auto.
Qed.

End DirnameFacts.

Module OutPathFacts.
Import DirnameFacts.

(** Segments ["."] do not count. *)
Lemma normalizeSegs_dots b acc l :
  Path.normalizeSegs b acc l = Path.normalizeSegs b acc (filter (λ s, s ≠ ".") l).
Proof.
  revert acc. induction l as [|s l IH]; intros acc; [done|].
  destruct (decide (s = ".")) as [->|Hs].
  - rewrite filter_cons_False by naive_solver. simpl. apply IH.
  - rewrite filter_cons_True by done. simpl.
    repeat case_decide; try done; destruct acc; try case_decide; try done; apply IH.
Qed.

Lemma filter_valid_names l : valid_names l → filter (λ s, s ≠ ".") l = l.
Proof.
  induction 1 as [|x l Hx Hl IH]; [done|].
  apply valid_name_spec in Hx as (_ & Hd & _). by rewrite filter_cons_True, IH.
Qed.

(** [path.join(root, dir, name)] for an absolute [root] of names, a
    directory whose segments are names or ["."], and a name. *)
Lemma join_three O d n :
  valid_names O → valid_name n = true →
  valid_names (filter (λ s, s ≠ ".") (Path.segments d)) →
  Path.join [rooted O; d; n] = rooted (O ++ filter (λ s, s ≠ ".") (Path.segments d) ++ [n]).
Proof.
  intros HO Hn Hd. destruct (proj1 (valid_name_spec n) Hn) as [Hp _].
  destruct (proj1 (plain_name_spec n) Hp) as [Hne _].
  destruct (decide (d = "")) as [->|Hdne].
  { change (Path.segments "") with (@nil string). rewrite filter_nil. simpl.
    rewrite <- (join_under O n) by done. unfold Path.join.
    rewrite filter_cons_True by done. rewrite filter_cons_False by naive_solver. done. }
  unfold Path.join. rewrite !filter_cons_True, filter_nil by done.
  change (join "/" [rooted O; d; n])
    with (rooted O +:+ String Path.sep (d +:+ String Path.sep n)).
  unfold Path.normalize. rewrite decide_False by done.
  change (Path.isAbsolute (rooted O +:+ String Path.sep (d +:+ String Path.sep n))) with true.
  assert (endsWith "/" (rooted O +:+ String Path.sep (d +:+ String Path.sep n)) = false) as ->.
  { replace (rooted O +:+ String Path.sep (d +:+ String Path.sep n))
      with ((rooted O +:+ String Path.sep (d +:+ "/")) +:+ n).
    - by apply endsWith_sep_plain.
    - rewrite <- !append_assoc. simpl. f_equal. f_equal. by rewrite <- append_assoc. }
  unfold Path.normalizeString. rewrite normalizeSegs_filter.
  change (filter (λ s, s ≠ "") (split Path.sep ?p)) with (Path.segments p).
  rewrite !segments_app_sep.
  assert (Path.segments (rooted O) = O) as ->.
  { unfold rooted. rewrite segments_root. by apply segments_join, valid_plain. }
  rewrite (segments_plain n Hp).
  rewrite normalizeSegs_dots, !filter_app, (filter_valid_names O HO).
  rewrite (filter_valid_names [n]) by by apply Forall_cons_2.
  rewrite normalizeSegs_valid.
  2:{ apply Forall_app. split; [done|]. apply Forall_app. split; [done|by apply Forall_cons_2]. }
  simpl. rewrite decide_False; [done|].
  rewrite List.app_assoc. intros H. by apply join_nonempty in H.
Qed.

Lemma baseNameNoExt_same_component p q :
  Path.last_component p = Path.last_component q → baseNameNoExt p = baseNameNoExt q.
Proof.
  intros H. rewrite !baseNameNoExt_stem, (extname_same_component p q H). by rewrite H.
Qed.

Lemma extOf_same_component p q :
  Path.last_component p = Path.last_component q → extOf p = extOf q.
Proof. intros H. unfold extOf. by rewrite (extname_same_component p q H). Qed.

(** The last component of a path of names, absolute or relative, and of
    its last name alone. *)
Lemma last_component_names L f :
  valid_names (L ++ [f]) →
  Path.last_component (join "/" (L ++ [f])) = Path.last_component f ∧
  Path.last_component (rooted (L ++ [f])) = Path.last_component f.
Proof.
  intros [HL Hf]%Forall_app. apply Forall_cons in Hf as [Hf _].
  destruct (proj1 (valid_name_spec f) Hf) as [Hfp _].
  destruct (proj1 (plain_name_spec f) Hfp) as [Hne Hsep].
  rewrite (last_component_plain f) by done.
  apply last_component_join; [by apply valid_plain|done].
Qed.

(** The output path of a step for a file below the input root: the names
    of the output root, the directories of the file below the input root
    when the tree is preserved, and the file name the step gives. *)
Lemma step_outFile_shape cwd cfg S O init f step :
  valid_names S → valid_names O → valid_names (init ++ [f]) →
  Path.resolve cwd [inputDir cfg] = rooted S →
  Path.resolve cwd [outputDir cfg] = rooted O →
  has_char Path.sep (js_or (suffix step) "") = false →
  let filename := baseNameNoExt f +:+ js_or (suffix step) "" +:+ "." +:+
                  js_or (forcedExt_of step) (extOf f) in
  valid_name filename = true ∧
  step_outFile cwd cfg (rooted (S ++ init ++ [f])) step
  = rooted (O ++ (if preserveTree cfg then init else []) ++ [filename]).
Proof.
  intros HS HO Hnames HinRoot HoutRoot Hsfx filename.
  destruct (last_component_names init f Hnames) as [Hrel _].
  pose proof Hnames as [Hinit Hf]%Forall_app. apply Forall_cons in Hf as [Hf _].
  destruct (proj1 (valid_name_spec f) Hf) as [Hfp _].
  destruct (name_stem_ext f f) as (stem & e & Hstem & Hsne & Hssep & Hedot & Hesep & Hext & Hdot);
    [by apply last_component_plain; apply plain_name_spec in Hfp as [??]|done|].
  assert (valid_name filename = true) as Hvalid.
  { unfold filename. rewrite Hstem.
    set (sfx := js_or (suffix step) "") in *.
    assert (∀ e', has_char Path.sep e' = false → (stem = "." → e' ≠ "") →
                  valid_name (stem +:+ sfx +:+ "." +:+ e') = true) as Hv.
    { intros e' He1 He3.
      replace (stem +:+ sfx +:+ "." +:+ e') with ((stem +:+ sfx) +:+ String dot e')
        by (by rewrite <- append_assoc).
      by apply filename_valid. }
    unfold forcedExt_of. case_decide; simpl js_or.
    - by apply Hv.
    - rewrite Hext. apply Hv; [by rewrite has_char_toLowerCase|].
      intros Hs He. apply Hdot; [done|]. by apply toLowerCase_empty. }
  split; [done|].
  unfold step_outFile, outPathForStep. rewrite HinRoot, HoutRoot.
  rewrite relative_under by (done || by destruct init).
  rewrite join_split_replaceAll, (replaceAll_absent _ _ _ (baseNameNoExt_no_sep _)).
  rewrite (baseNameNoExt_same_component _ f Hrel), (extOf_same_component _ f Hrel).
  fold filename.
  set (dir := if preserveTree cfg then _ else _).
  assert (filter (λ s, s ≠ ".") (Path.segments dir) = if preserveTree cfg then init else [])
    as Hdir.
  { unfold dir. destruct (preserveTree cfg); [|done].
    rewrite dirname_relative by (by apply valid_plain || done).
    case_decide as Hi; [by subst|].
    rewrite segments_join by by apply valid_plain. by apply filter_valid_names. }
  rewrite join_three; [by rewrite Hdir|done|done|].
  rewrite Hdir. by destruct (preserveTree cfg).
Qed.

End OutPathFacts.

Module SuffixFacts.
Import DirnameFacts OutPathFacts.

Lemma append_inv_tail a b c : a +:+ c = b +:+ c → a = b.
Proof.
  intros H. apply (f_equal String.rev) in H. rewrite !rev_append in H.
  apply (inj (String.app _)) in H. apply (f_equal String.rev) in H.
  by rewrite !rev_involutive in H.
Qed.

(** The last name of an output path, for a file below the input root. *)
Lemma step_outFile_last cwd cfg S O init f step :
  valid_names S → valid_names O → valid_names (init ++ [f]) →
  Path.resolve cwd [inputDir cfg] = rooted S →
  Path.resolve cwd [outputDir cfg] = rooted O →
  has_char Path.sep (js_or (suffix step) "") = false →
  ∃ dirs,
    plain_names (dirs ++ [baseNameNoExt f +:+ js_or (suffix step) "" +:+ "." +:+
                          js_or (forcedExt_of step) (extOf f)]) ∧
    step_outFile cwd cfg (rooted (S ++ init ++ [f])) step
    = rooted (dirs ++ [baseNameNoExt f +:+ js_or (suffix step) "" +:+ "." +:+
                       js_or (forcedExt_of step) (extOf f)]).
Proof.
  intros HS HO Hnames HinRoot HoutRoot Hsfx.
  destruct (step_outFile_shape cwd cfg S O init f step HS HO Hnames HinRoot HoutRoot Hsfx)
    as [Hvalid Hout].
  exists (O ++ (if preserveTree cfg then init else [])). rewrite Hout, <- List.app_assoc.
  split; [|done]. apply valid_plain. apply Forall_app. split; [done|].
  apply Forall_app. split; [|by apply Forall_cons_2].
  apply Forall_app in Hnames as [Hinit _]. by destruct (preserveTree cfg).
Qed.

Lemma rooted_last_inj l1 x1 l2 x2 :
  plain_names (l1 ++ [x1]) → plain_names (l2 ++ [x2]) →
  rooted (l1 ++ [x1]) = rooted (l2 ++ [x2]) → x1 = x2.
Proof.
  intros H1 H2 Heq. apply rooted_inj in Heq; [|done..].
  by apply app_inj_tail in Heq as [_ ?].
Qed.

End SuffixFacts.

Import DirnameFacts OutPathFacts SuffixFacts.

(** X8. For a file [walk] found and a step whose suffix has no separator,
    the output path lies below the output root: its path relative to the
    root is the directories of the input below the input root when the
    tree is preserved, none otherwise, and the name of the input without
    its extension followed by the suffix, a dot and the extension; the
    directory [processOne] makes for it is the one of these directories. *)
Theorem output_lies_below_the_output_root cwd cfg entries inputAbs step :
  Path.isAbsolute cwd = true →
  forallb valid_entry entries = true →
  inputAbs ∈ walk (Path.resolve cwd [inputDir cfg]) (recursive cfg) entries →
  has_char Path.sep (js_or (suffix step) "") = false →
  ∃ O init f,
    valid_names O ∧ Path.resolve cwd [outputDir cfg] = rooted O ∧
    valid_names (init ++ [f]) ∧
    Path.relative cwd (Path.resolve cwd [inputDir cfg]) inputAbs = join "/" (init ++ [f]) ∧
    let kept := if preserveTree cfg then init else [] in
    let filename := baseNameNoExt f +:+ js_or (suffix step) "" +:+ "." +:+
                    js_or (forcedExt_of step) (extOf f) in
    valid_name filename = true ∧
    step_outFile cwd cfg inputAbs step = rooted (O ++ kept ++ [filename]) ∧
    Path.dirname (step_outFile cwd cfg inputAbs step) = rooted (O ++ kept) ∧
    Path.relative cwd (Path.resolve cwd [outputDir cfg]) (step_outFile cwd cfg inputAbs step)
    = join "/" (kept ++ [filename]).
Proof.
  intros Hcwd Hentries Hwalk Hsfx.
  destruct (resolve_rooted cwd (inputDir cfg) Hcwd) as (S & HS & HinRoot).
  destruct (resolve_rooted cwd (outputDir cfg) Hcwd) as (O & HO & HoutRoot).
  rewrite HinRoot in Hwalk |- *.
  destruct (walk_under _ _ _ _ Hentries HS Hwalk) as (names & Hne & Hnames & ->).
  destruct (exists_last Hne) as (init & f & ->).
  exists O, init, f. rewrite relative_under by done.
  destruct (step_outFile_shape cwd cfg S O init f step HS HO Hnames HinRoot HoutRoot Hsfx)
    as [Hvalid Hout].
  split; [done|]. split; [done|]. split; [done|]. split; [done|].
  cbv zeta. rewrite Hout, HoutRoot.
  pose proof Hnames as [Hinit _]%Forall_app.
  assert (valid_names (if preserveTree cfg then init else [])) as Hkept
    by by destruct (preserveTree cfg).
  split; [done|]. split; [done|]. split.
  - rewrite List.app_assoc. apply dirname_rooted.
    + apply valid_plain, Forall_app. done.
    + by apply valid_name_spec in Hvalid as [? _].
  - apply relative_under; [done| |by destruct (if preserveTree cfg then init else [])].
    apply Forall_app. split; [done|]. by apply Forall_cons_2.
Qed.

Lemma output_lies_below_the_output_root_witness :
  ∃ O init f,
    Path.resolve "/w" ["/out"] = rooted O ∧
    step_outFile "/w" (example_cfg [] false true) "/in/sub/Photo.PNG"
      (example_step "pngquant" "_q" ["png"])
    = rooted (O ++ (if false then init else []) ++
              [baseNameNoExt f +:+ "_q" +:+ "." +:+ extOf f]).
Proof.
  destruct (output_lies_below_the_output_root "/w" (example_cfg [] false true)
              [File "a.png"; Dir "sub" [File "Photo.PNG"]] "/in/sub/Photo.PNG"
              (example_step "pngquant" "_q" ["png"]))
    as (O & init & f & _ & HO & _ & _ & _ & Hout & _); [reflexivity|reflexivity| |reflexivity|].
  - apply (bool_decide_eq_true_1 _). vm_compute. reflexivity.
  - exists O, init, f. split; [exact HO|exact Hout].
Defined.

Module CollisionFacts.

(** A name is split at its last dot in one way only. *)
Lemma append_dot_inj x e y e' :
  has_char dot e = false → has_char dot e' = false →
  x +:+ String dot e = y +:+ String dot e' → x = y ∧ e = e'.
Proof.
  intros He He' Heq. apply (f_equal Path.last_dot) in Heq.
  rewrite !last_dot_app in Heq by done. by injection Heq as -> ->.
Qed.

(** The extension a step gives has no dot. *)
Lemma step_ext_no_dot step f : has_char dot (js_or (forcedExt_of step) (extOf f)) = false.
Proof.
  unfold forcedExt_of. case_decide; [done|]. simpl.
  unfold extOf. rewrite has_char_toLowerCase by (vm_compute; done).
  destruct (extname_shape f) as [->|(e & -> & ? & ?)]; done.
Qed.

End CollisionFacts.

Import CollisionFacts.

(** X9. For files [walk] found and a step whose suffix has no separator,
    two files get the same output path exactly when they have the same
    name without extension, the same extension up to case unless the step
    is [mozjpeg], and, when the tree is preserved, the same directory.
    When the tree is not preserved, files of different directories
    collide. *)
Theorem outputs_collide_exactly_for_like_names cwd cfg entries a b step :
  Path.isAbsolute cwd = true →
  forallb valid_entry entries = true →
  a ∈ walk (Path.resolve cwd [inputDir cfg]) (recursive cfg) entries →
  b ∈ walk (Path.resolve cwd [inputDir cfg]) (recursive cfg) entries →
  has_char Path.sep (js_or (suffix step) "") = false →
  step_outFile cwd cfg a step = step_outFile cwd cfg b step ↔
  baseNameNoExt a = baseNameNoExt b ∧
  (name step = "mozjpeg" ∨ extOf a = extOf b) ∧
  (preserveTree cfg = true → Path.dirname a = Path.dirname b).
Proof.
  intros Hcwd Hentries Ha Hb Hsfx.
  destruct (resolve_rooted cwd (inputDir cfg) Hcwd) as (S & HS & HinRoot).
  destruct (resolve_rooted cwd (outputDir cfg) Hcwd) as (O & HO & HoutRoot).
  rewrite HinRoot in Ha, Hb.
  destruct (walk_under _ _ _ _ Hentries HS Ha) as (na & Hnea & Hna & ->).
  destruct (walk_under _ _ _ _ Hentries HS Hb) as (nb & Hneb & Hnb & ->).
  destruct (exists_last Hnea) as (ia & fa & ->). destruct (exists_last Hneb) as (ib & fb & ->).
  destruct (step_outFile_shape cwd cfg S O ia fa step HS HO Hna HinRoot HoutRoot Hsfx)
    as [Hva ->].
  destruct (step_outFile_shape cwd cfg S O ib fb step HS HO Hnb HinRoot HoutRoot Hsfx)
    as [Hvb ->].
  pose proof Hna as [Hia Hfa]%Forall_app. pose proof Hnb as [Hib Hfb]%Forall_app.
  assert (∀ i f, valid_names (i ++ [f]) →
            baseNameNoExt (rooted (S ++ i ++ [f])) = baseNameNoExt f ∧
            extOf (rooted (S ++ i ++ [f])) = extOf f ∧
            Path.dirname (rooted (S ++ i ++ [f])) = rooted (S ++ i)) as Hparts.
  { intros i f Hif. pose proof Hif as [Hi Hf]%Forall_app.
    assert (Path.last_component (rooted (S ++ i ++ [f])) = Path.last_component f) as Hl.
    { rewrite List.app_assoc. apply last_component_names.
      rewrite <- List.app_assoc. by apply Forall_app. }
    split; [by apply baseNameNoExt_same_component|]. split; [by apply extOf_same_component|].
    rewrite List.app_assoc. apply dirname_rooted.
    - apply valid_plain, Forall_app. done.
    - apply Forall_cons in Hf as [Hf _]. by apply valid_name_spec in Hf as [? _]. }
  destruct (Hparts ia fa Hna) as (-> & -> & ->). destruct (Hparts ib fb Hnb) as (-> & -> & ->).
  assert (rooted (S ++ ia) = rooted (S ++ ib) ↔ ia = ib) as Hdirs.
  { split; [|by intros ->]. intros H. apply rooted_inj in H.
    - by apply app_inv_head in H.
    - apply valid_plain, Forall_app. done.
    - apply valid_plain, Forall_app. done. }
  rewrite Hdirs.
  set (ea := js_or (forcedExt_of step) (extOf fa)) in *.
  set (eb := js_or (forcedExt_of step) (extOf fb)) in *.
  set (sfx := js_or (suffix step) "") in *.
  assert (has_char dot ea = false) as Hea by apply step_ext_no_dot.
  assert (has_char dot eb = false) as Heb by apply step_ext_no_dot.
  assert (ea = eb ↔ name step = "mozjpeg" ∨ extOf fa = extOf fb) as Hext.
  { unfold ea, eb, forcedExt_of. case_decide as Hm; simpl.
    - split; [by left|done].
    - split; [by right|]. by intros [?|?]. }
  split.
  - intros Heq. apply rooted_inj in Heq.
    2:{ apply valid_plain, Forall_app. split; [done|]. apply Forall_app.
        split; [by destruct (preserveTree cfg)|by apply Forall_cons_2]. }
    2:{ apply valid_plain, Forall_app. split; [done|]. apply Forall_app.
        split; [by destruct (preserveTree cfg)|by apply Forall_cons_2]. }
    apply app_inv_head in Heq. apply app_inj_tail in Heq as [Hkept Hname].
    rewrite (append_assoc (baseNameNoExt fa)), (append_assoc (baseNameNoExt fb)) in Hname.
    change ("." +:+ ea) with (String dot ea) in Hname.
    change ("." +:+ eb) with (String dot eb) in Hname.
    apply (append_dot_inj _ ea _ eb Hea Heb) in Hname as [Hstem He].
    apply append_inv_tail in Hstem.
    split; [done|]. split; [by apply Hext|]. intros Hpt. by rewrite Hpt in Hkept.
  - intros (Hstem & He & Hdir). apply Hext in He. rewrite Hstem, He.
    destruct (preserveTree cfg); [|done]. by rewrite Hdir.
Qed.

Lemma outputs_collide_exactly_for_like_names_witness :
  step_outFile "/w" (example_cfg [] false true) "/in/a.png" (example_step "pngquant" "_q" ["png"])
  = step_outFile "/w" (example_cfg [] false true) "/in/sub/a.PNG"
      (example_step "pngquant" "_q" ["png"]).
Proof.
  apply (outputs_collide_exactly_for_like_names "/w" (example_cfg [] false true)
           [File "a.png"; Dir "sub" [File "a.PNG"]]);
    [reflexivity|reflexivity| | |reflexivity|].
  - apply (bool_decide_eq_true_1 _). vm_compute. reflexivity.
  - apply (bool_decide_eq_true_1 _). vm_compute. reflexivity.
  - split; [reflexivity|]. split; [right; reflexivity|discriminate].
Defined.

(** X10. For a file [walk] found, the output path of a step with a suffix
    that is not empty is never the path of the input, even when the output
    root is the input root. *)
Theorem a_suffix_keeps_the_input cwd cfg entries inputAbs step :
  Path.isAbsolute cwd = true →
  forallb valid_entry entries = true →
  inputAbs ∈ walk (Path.resolve cwd [inputDir cfg]) (recursive cfg) entries →
  has_char Path.sep (js_or (suffix step) "") = false →
  js_or (suffix step) "" ≠ "" →
  step_outFile cwd cfg inputAbs step ≠ inputAbs.
Proof.
  intros Hcwd Hentries Hwalk Hsfx Hne Heq.
  destruct (resolve_rooted cwd (inputDir cfg) Hcwd) as (S & HS & HinRoot).
  destruct (resolve_rooted cwd (outputDir cfg) Hcwd) as (O & HO & HoutRoot).
  rewrite HinRoot in Hwalk.
  destruct (walk_under _ _ _ _ Hentries HS Hwalk) as (names & Hnn & Hnames & ->).
  destruct (exists_last Hnn) as (init & f & ->).
  destruct (step_outFile_last cwd cfg S O init f step HS HO Hnames HinRoot HoutRoot Hsfx)
    as (dirs & Hplain & Hout).
  rewrite Hout in Heq. rewrite (List.app_assoc S init [f]) in Heq.
  apply rooted_last_inj in Heq; [|done|].
  2:{ rewrite <- List.app_assoc. apply valid_plain, Forall_app. done. }
  apply Forall_app in Hnames as [_ Hf]. apply Forall_cons in Hf as [Hf _].
  destruct (proj1 (valid_name_spec f) Hf) as [Hfp _].
  destruct (proj1 (plain_name_spec f) Hfp) as [Hfne Hfsep].
  pose proof (stem_extname f) as Hf'. rewrite (last_component_plain f) in Hf' by done.
  rewrite <- Hf' in Heq at 3. apply (inj (String.app _)) in Heq.
  set (sfx := js_or (suffix step) "") in *.
  destruct (extname_shape f) as [He|(e & He & Hdot & _)]; rewrite He in Heq.
  - apply (f_equal String.length) in Heq. rewrite !length_append in Heq. simpl in Heq. lia.
  - destruct sfx as [|c sfx']; [done|]. simpl in Heq. injection Heq as _ Heq.
    rewrite <- Heq in Hdot. rewrite !has_char_app in Hdot. simpl in Hdot.
    by rewrite orb_true_r in Hdot.
Qed.

Lemma a_suffix_keeps_the_input_witness :
  step_outFile "/w"
    {| inputDir := "/in"; outputDir := "/in"; tools := ∅; includeExt := ["png"];
       excludePatterns := []; pipeline := []; profiles := None; recursive := true;
       preserveTree := true; dryRun := false; concurrency := None; writePerFile := true;
       csvPath := "metrics.csv" |} "/in/sub/a.png" (example_step "pngquant" "_q" ["png"])
  ≠ "/in/sub/a.png".
Proof.
  apply (a_suffix_keeps_the_input "/w" _ [File "a.png"; Dir "sub" [File "a.png"]]);
    [reflexivity|reflexivity| |reflexivity|discriminate].
  apply (bool_decide_eq_true_1 _). vm_compute. reflexivity.
Defined.

(** X11. Two steps with different suffixes, both or none of them the
    [mozjpeg] step, write different files for the same input. *)
Theorem steps_with_different_suffixes_write_different_files
    cwd cfg entries inputAbs step1 step2 :
  Path.isAbsolute cwd = true →
  forallb valid_entry entries = true →
  inputAbs ∈ walk (Path.resolve cwd [inputDir cfg]) (recursive cfg) entries →
  has_char Path.sep (js_or (suffix step1) "") = false →
  has_char Path.sep (js_or (suffix step2) "") = false →
  (name step1 = "mozjpeg" ↔ name step2 = "mozjpeg") →
  js_or (suffix step1) "" ≠ js_or (suffix step2) "" →
  step_outFile cwd cfg inputAbs step1 ≠ step_outFile cwd cfg inputAbs step2.
Proof.
  intros Hcwd Hentries Hwalk Hs1 Hs2 Hmoz Hne Heq.
  destruct (resolve_rooted cwd (inputDir cfg) Hcwd) as (S & HS & HinRoot).
  destruct (resolve_rooted cwd (outputDir cfg) Hcwd) as (O & HO & HoutRoot).
  rewrite HinRoot in Hwalk.
  destruct (walk_under _ _ _ _ Hentries HS Hwalk) as (names & Hnn & Hnames & ->).
  destruct (exists_last Hnn) as (init & f & ->).
  destruct (step_outFile_last cwd cfg S O init f step1 HS HO Hnames HinRoot HoutRoot Hs1)
    as (d1 & Hp1 & Ho1).
  destruct (step_outFile_last cwd cfg S O init f step2 HS HO Hnames HinRoot HoutRoot Hs2)
    as (d2 & Hp2 & Ho2).
  rewrite Ho1, Ho2 in Heq. apply rooted_last_inj in Heq; [|done..].
  apply (inj (String.app _)) in Heq.
  assert (forcedExt_of step1 = forcedExt_of step2) as Hforced.
  { unfold forcedExt_of. repeat case_decide; try done; tauto. }
  rewrite Hforced in Heq. by apply append_inv_tail in Heq.
Qed.

Lemma steps_with_different_suffixes_write_different_files_witness :
  step_outFile "/w" (example_cfg [] false true) "/in/a.png" (example_step "pngquant" "_q" ["png"])
  ≠ step_outFile "/w" (example_cfg [] false true) "/in/a.png"
      (example_step "imagemagick_compress" "_im" ["png"]).
Proof.
  apply (steps_with_different_suffixes_write_different_files "/w" _ [File "a.png"]);
    [reflexivity|reflexivity| |reflexivity|reflexivity| |discriminate].
  - apply (bool_decide_eq_true_1 _). vm_compute. reflexivity.
  - split; discriminate.
Defined.

(** ** The log: [writeCsvHeader] and the rows of [processOne] *)

Module RowFacts.

Lemma has_char_replaceAll c r s :
  has_char c r = false → has_char c (replaceAll c r s) = false.
Proof.
  intros Hr. induction s as [|a s IH]; simpl; [done|]. case_decide as Ha.
  - by rewrite has_char_app, Hr, IH.
  - simpl. by rewrite bool_decide_eq_false_2, IH.
Qed.

Lemma join_cons_sep c x y l :
  join (String c "") (x :: y :: l) = x +:+ String c (join (String c "") (y :: l)).
Proof. done. Qed.

(** Splitting what was joined gives the fields back, when no field holds
    the separator. *)
Lemma split_join c l :
  l ≠ [] → Forall (λ f, has_char c f = false) l → split c (join (String c "") l) = l.
Proof.
  intros Hne Hl. induction Hl as [|x l Hx Hl IH]; [done|].
  destruct l as [|y l]; [by apply split_no_char|].
  rewrite join_cons_sep, split_app_sep, IH by done. by rewrite split_no_char.
Qed.

Lemma length_split_app c a b :
  has_char c b = false → length (split c (a +:+ b)) = length (split c a).
Proof.
  intros Hb. induction a as [|x a IH]; simpl.
  - by rewrite split_no_char.
  - case_decide; simpl; [by rewrite IH|].
    pose proof (split_nonnil c (a +:+ b)). pose proof (split_nonnil c a).
    destruct (split c (a +:+ b)), (split c a); simpl in *; try done.
Qed.

(** A row of nine fields has the columns of the header. *)
Lemma csv_row_columns cfg fields :
  length fields = 9%nat →
  row_of_columns cfg (AppendFile (csvPath cfg) (csv_row fields +:+ LF)).
Proof.
  intros Hlen p d [= <- <-]. split; [done|].
  exists (replaceAll ","%char " " <$> fields).
  assert (Forall (λ f, has_char ","%char f = false) (replaceAll ","%char " " <$> fields)) as HF.
  { apply Forall_fmap, Forall_forall. intros f _. by apply has_char_replaceAll. }
  split; [done|]. split; [done|].
  assert (split ","%char (join "," (replaceAll ","%char " " <$> fields))
          = replaceAll ","%char " " <$> fields) as Hsplit.
  { apply split_join; [|done]. by destruct fields. }
  split; [done|].
  unfold csv_row. rewrite length_split_app by done.
  rewrite Hsplit, length_fmap, Hlen. done.
Qed.

End RowFacts.

Import RowFacts.

(** X12. [writeCsvHeader] writes nothing but the header, to the log, and
    only when the log does not exist; the header names nine columns, and
    every line [processOne] appends goes to the log and is nine fields
    without a comma, joined by commas and ended by a line feed: splitting
    the line at the commas gives the fields back. *)
Theorem rows_have_the_columns_of_the_header cwd env cfg inputAbs h :
  (∀ existsSync on_writeFile p,
     Forall (λ c, ∀ q d, c = WriteFile q d →
                         existsSync p = false ∧ q = p ∧ d = csv_header)
       (writeCsvHeader existsSync on_writeFile p).2) ∧
  length (split ","%char csv_header) = 9%nat ∧
  ∃ calls, (processOne cwd env cfg inputAbs h).2 = h ++ calls ∧
           Forall (row_of_columns cfg) calls.
Proof.
  split.
  { intros existsSync on_writeFile p. unfold writeCsvHeader.
    destruct (existsSync p) eqn:He; [|destruct (on_writeFile p csv_header)]; simpl;
      repeat first [apply Forall_nil_2 | apply Forall_cons_2]; by intros q d [= <- <-]. }
  split; [done|].
  revert h. change (extends (row_of_columns cfg) (processOne cwd env cfg inputAbs)).
  assert (∀ c, (∀ p d, c ≠ AppendFile p d) → row_of_columns cfg c) as Hother.
  { intros c Hc p d ->. by destruct (Hc p d). }
  unfold processOne. apply extends_bind; [by apply extends_fileSize, Hother|]. intros origSize.
  apply extends_bind; [|intros _; by apply extends_appendCsv, csv_row_columns].
  apply extends_for_of. intros step _. unfold stepBody.
  destruct (negb (enabled step)); [apply extends_ret|].
  destruct (negb (bool_decide _)); [apply extends_ret|].
  apply extends_bind.
  - unfold runStep. apply extends_bind; [by apply extends_ensureDirFor, Hother|]. intros _.
    apply extends_bind; [by apply extends_fileSize, Hother|]. intros before.
    apply extends_try_catch; [|intros e; apply extends_ret].
    apply extends_bind; [|intros [??]; apply extends_ret].
    intros h. destruct (attempt_extends env cfg step (extOf inputAbs)
      (outPathForStep cwd inputAbs (Path.resolve cwd [inputDir cfg])
         (Path.resolve cwd [outputDir cfg]) (preserveTree cfg) (js_or (suffix step) "")
         (forcedExt_of step)) inputAbs h) as (tail & Ht & _ & Happ).
    exists tail. split; [done|]. clear -Happ Hother. induction tail as [|c tail IH]; [done|].
    destruct c; simpl in Happ; try done; (apply Forall_cons_2; [by apply Hother|by apply IH]).
  - intros o. destruct (writePerFile cfg); [|apply extends_ret].
    by apply extends_appendCsv, csv_row_columns.
Qed.

(** X13. When [processOne] returns, the lines it appended are, with the
    rows of steps enabled, one row for each applicable step, in the order
    of the pipeline and with the step's name and output path, and then the
    row of the original; with the rows of steps disabled, the row of the
    original alone. *)
Theorem rows_follow_the_pipeline cwd env cfg inputAbs h h' :
  processOne cwd env cfg inputAbs h = (Returned tt, h') →
  ∃ calls os,
    h' = h ++ calls ∧
    Forall2 (λ o step, so_stage o = name step ∧
                       so_outFile o = step_outFile cwd cfg inputAbs step)
      os (filter (λ s, applicable inputAbs s = true) (pipeline cfg)) ∧
    appended calls
    = (if writePerFile cfg then step_rows cfg os else [])
      ++ [(csvPath cfg, csv_row (original_fields inputAbs (on_stat env h inputAbs)) +:+ LF)] ∧
    length (appended calls)
    = ((if writePerFile cfg
        then length (filter (λ s, applicable inputAbs s = true) (pipeline cfg)) else 0) + 1)%nat.
Proof.
  unfold processOne. unfold mbind at 1, Async_bind at 1. unfold fileSize at 1.
  unfold mbind at 1, Async_bind at 1.
  destruct (for_of _ _ _) as [[[]|e] h1] eqn:Hfor; [|done].
  destruct (for_of_rows cwd env cfg inputAbs _ _ _ Hfor) as (calls & os & -> & HF & Hrows & _).
  unfold appendCsv, settle. destruct (on_appendFile env _ _ _); [done|].
  intros [= <-].
  exists (Stat inputAbs :: calls ++
            [AppendFile (csvPath cfg)
               (csv_row (original_fields inputAbs (on_stat env h inputAbs)) +:+ LF)]), os.
  split; [by rewrite <- !app_assoc|].
  split; [done|].
  assert (appended (Stat inputAbs :: calls ++
            [AppendFile (csvPath cfg)
               (csv_row (original_fields inputAbs (on_stat env h inputAbs)) +:+ LF)])
          = (if writePerFile cfg then step_rows cfg os else [])
            ++ [(csvPath cfg, csv_row (original_fields inputAbs (on_stat env h inputAbs)) +:+ LF)])
    as Happ.
  { unfold appended in *. simpl. rewrite omap_app. simpl. by rewrite Hrows. }
  split; [done|]. rewrite Happ, length_app. simpl.
  apply Forall2_length in HF. destruct (writePerFile cfg); [|done].
  unfold step_rows. by rewrite length_fmap, HF.
Qed.

Lemma rows_follow_the_pipeline_witness :
  ∃ (calls : list call) (os : list StepOutcome),
    [ Stat "/in/a.png"; Mkdir "/out"; Stat "/in/a.png";
      ExecFile (Some "pngquant")
        [AStr "--quality"; AStr "60-80"; AStr "--output"; AStr "/out/a_q.png"; AStr "/in/a.png"];
      Stat "/out/a_q.png";
      AppendFile "metrics.csv"
        ("/out/a_q.png,pngquant,100,60,-40,-40.00,5,ok," +:+ String quote (String quote LF));
      AppendFile "metrics.csv" ("/in/a.png,ORIGINAL,100,100,0,0.00,,ok," +:+ LF) ]
    = [] ++ calls ∧
    length (appended calls) = 2%nat ∧ length os = 1%nat.
Proof.
  destruct (rows_follow_the_pipeline "/w" (example_env false false 100 60)
    (example_cfg [example_step "pngquant" "_q" ["png"]] false true) "/in/a.png" [] _
    processOne_scenario) as (calls & os & Hcalls & HF & _ & Hlen).
  exists calls, os. split; [exact Hcalls|]. split; [exact Hlen|].
  apply Forall2_length in HF. exact HF.
Defined.

(** X14. A step whose directory was made ends as its [try] block ends.
    When the block returns an output size and an elapsed time, the outcome
    is the one of status [ok] with them and no message; when the block
    throws, the outcome is the one of status [error] with no output size,
    no elapsed time and, as its message, the diagnostic of the very error
    the block threw.  The outcome carries the name of the step in both
    cases.  In a dry run the elapsed time is always [0].  Without an
    output size the fields of the output size, of delta and of the
    percentage are empty, and the last field is the JSON text of the
    message. *)
Theorem a_step_ends_ok_or_in_error cwd env cfg inputAbs inRoot outRoot step h o h' :
  runStep cwd env cfg inputAbs inRoot outRoot step h = (Returned o, h') →
  let outFile := outPathForStep cwd inputAbs inRoot outRoot (preserveTree cfg)
                   (js_or (suffix step) "") (forcedExt_of step) in
  let h1 := h ++ [Mkdir (Path.dirname outFile)] in
  let before := on_stat env h1 inputAbs in
  on_mkdir env h (Path.dirname outFile) = None ∧
  ((∃ after t,
      attempt env cfg step (extOf inputAbs) outFile inputAbs (h1 ++ [Stat inputAbs])
      = (Returned (after, t), h') ∧
      o = ok_outcome outFile (name step) before after t) ∨
   (∃ e,
      attempt env cfg step (extOf inputAbs) outFile inputAbs (h1 ++ [Stat inputAbs])
      = (Thrown e, h') ∧
      o = error_outcome outFile (name step) before e ∧
      so_message o = diagnostic e)) ∧
  so_stage o = name step ∧
  ((so_status o = "ok" ∧ so_message o = "") ∨
   (so_status o = "error" ∧ so_after o = None ∧ so_elapsedMs o = 0%N ∧
    ∃ e, so_message o = diagnostic e)) ∧
  (dryRun cfg = true → so_elapsedMs o = 0%N) ∧
  (so_after o = None →
     step_fields o !! 3%nat = Some "" ∧ step_fields o !! 4%nat = Some "" ∧
     step_fields o !! 5%nat = Some "") ∧
  step_fields o !! 8%nat = Some (JSON_stringify (so_message o)).
Proof.
  intros Hrun outFile h1 before. revert Hrun.
  unfold runStep. fold outFile. unfold mbind at 1, Async_bind at 1. unfold ensureDirFor, settle.
  destruct (on_mkdir env h _) as [e|]; [done|]. fold h1.
  unfold mbind at 1, Async_bind at 1. unfold fileSize at 1. fold before.
  unfold try_catch. unfold mbind at 1, Async_bind at 1.
  pose proof (attempt_cases env cfg step (extOf inputAbs) outFile inputAbs
                (h1 ++ [Stat inputAbs])) as Hatt.
  destruct (attempt env cfg step (extOf inputAbs) outFile inputAbs (h1 ++ [Stat inputAbs]))
    as [[[after t]|e] h2].
  - intros [= <- <-]. split; [done|]. split; [left; by exists after, t|].
    simpl. split; [done|]. split; [by left|]. split.
    + intros Hdry. rewrite Hdry in Hatt. destruct (on_copyFile env _ _ _); [done|].
      by injection Hatt as _ <- _.
    + split; [by intros ->|]. done.
  - intros [= <- <-]. split; [done|]. split; [right; by exists e|].
    simpl. split; [done|]. split; [right; eauto|]. split; [done|].
    split; [done|]. unfold js_or. by case_decide as Hd; [rewrite Hd|].
Qed.

Lemma a_step_ends_ok_or_in_error_witness :
  ∃ e,
    attempt (example_env false true 100 60) (example_cfg [] false true)
      (example_step "pngquant" "_q" ["png"]) "png" "/out/a_q.png" "/in/a.png"
      [Mkdir "/out"; Stat "/in/a.png"]
    = (Thrown e,
       [Mkdir "/out"; Stat "/in/a.png";
        ExecFile (Some "pngquant")
          [AStr "--quality"; AStr "60-80"; AStr "--output"; AStr "/out/a_q.png";
           AStr "/in/a.png"]]) ∧
    so_message (error_outcome "/out/a_q.png" "pngquant" (Some 100%N) e)
    = "error: cannot decode image".
Proof.
  destruct (a_step_ends_ok_or_in_error "/w" (example_env false true 100 60)
              (example_cfg [] false true) "/in/a.png" "/in" "/out"
              (example_step "pngquant" "_q" ["png"]) []
              (error_outcome "/out/a_q.png" "pngquant" (Some 100%N)
                 {| stderr := Some ("error: cannot decode" +:+ LF +:+ "image");
                    message := Some "Command failed" |})
              [Mkdir "/out"; Stat "/in/a.png";
               ExecFile (Some "pngquant")
                 [AStr "--quality"; AStr "60-80"; AStr "--output"; AStr "/out/a_q.png";
                  AStr "/in/a.png"]])
    as (_ & [(after & t & _ & Ho)|(e & Hatt & Ho & Hmsg)] & _).
  - vm_compute. reflexivity.
  - discriminate Ho.
  - exists e. split; [exact Hatt|].
    change (diagnostic e = "error: cannot decode image"). rewrite <- Hmsg.
    vm_compute. reflexivity.
Defined.

Module TextFacts.

Lemma replaceNewlines_absent s : has_char "010"%char s = false → replaceNewlines s = s.
Proof.
  assert (∀ s, (has_char "010"%char s = false → replaceNewlines s = s) ∧
               ∀ a, has_char "010"%char (String a s) = false →
                    replaceNewlines (String a s) = String a s) as H; [|apply H].
  clear s. induction s as [|b s [IH1 IH2]].
  - split; [done|]. intros a. simpl. rewrite orb_false_r. intros Ha%bool_decide_eq_false.
    rewrite decide_False by done. by case_decide.
  - split; [apply IH2|]. intros a Ha.
    change (has_char "010"%char (String a (String b s)))
      with (bool_decide (a = "010"%char) || has_char "010"%char (String b s)) in Ha.
    apply orb_false_iff in Ha as [Ha Hs]. apply bool_decide_eq_false in Ha.
    pose proof Hs as Hs'. simpl in Hs'. apply orb_false_iff in Hs' as [Hb _].
    apply bool_decide_eq_false in Hb.
    change (replaceNewlines (String a (String b s))) with
      (if decide (a = "010"%char) then String " " (replaceNewlines (String b s))
       else if decide (a = "013"%char) then
              if decide (b = "010"%char) then String " " (replaceNewlines s)
              else String a (replaceNewlines (String b s))
            else String a (replaceNewlines (String b s))).
    rewrite decide_False by done. rewrite (decide_False (P := b = "010"%char)) by done.
    rewrite (IH2 b Hs). by case_decide.
Qed.

Lemma slice0_short n s : (String.length s ≤ n)%nat → slice0 n s = s.
Proof.
  revert s. induction n as [|n IH]; intros [|a s]; simpl; try done; [lia|].
  intros H. rewrite IH; [done|lia].
Qed.

End TextFacts.

Import TextFacts.

(** X15. The diagnostic of an error is the error's [stderr] when that is
    not empty, else its [message], else empty; a text of at most 300
    characters with no line feed is kept as it is. *)
Theorem short_errors_are_logged_as_they_are e s :
  has_char "010"%char s = false → (String.length s ≤ 300)%nat →
  (stderr e = Some s ∧ s ≠ "") ∨
  ((stderr e = None ∨ stderr e = Some "") ∧ (message e = Some s ∨ (message e = None ∧ s = ""))) →
  diagnostic e = s.
Proof.
  intros Hlf Hlen Hs. unfold diagnostic.
  assert (js_or (stderr e) (js_or (message e) "") = s) as ->.
  { unfold js_or. destruct Hs as [[-> Hne]|[Herr Hmsg]].
    - by rewrite decide_False.
    - assert ((match message e with Some s0 => if decide (s0 = "") then "" else s0 | None => "" end) = s)
        as Hm.
      { destruct Hmsg as [->|[-> ->]]; [|done]. by case_decide. }
      destruct Herr as [->| ->]; [done|]. by rewrite decide_True. }
  rewrite replaceNewlines_absent by done. by apply slice0_short.
Qed.

Lemma short_errors_are_logged_as_they_are_witness :
  diagnostic {| stderr := Some ""; message := Some "spawn pngquant ENOENT" |}
  = "spawn pngquant ENOENT".
Proof.
  apply short_errors_are_logged_as_they_are; [reflexivity|simpl; lia|].
  right. split; [by right|by left].
Defined.

Module DeltaFacts.
Import JsNumber.

Lemma pretty_N_go_length x s : (String.length s ≤ String.length (pretty_N_go x s))%nat.
Proof.
  revert s. induction (N.lt_wf_0 x) as [x _ IH]; intros s.
  assert (x = 0 ∨ 0 < x)%N as [->|?] by lia; [by rewrite pretty_N_go_0|].
  rewrite pretty_N_go_step by done.
  etrans; [|by eapply IH, N.div_lt]. simpl. lia.
Qed.

Lemma show_N_nonempty n : show_N n ≠ "".
Proof.
  unfold show_N, pretty, pretty_N. case_decide; [done|].
  assert (0 < n)%N as Hn by lia. rewrite pretty_N_go_step by done.
  intros Hp. pose proof (pretty_N_go_length (n `div` 10)
    (String (pretty_N_char (n `mod` 10)) "")) as Hl. rewrite Hp in Hl. simpl in Hl. lia.
Qed.

Lemma startsWith_char c s : has_char c s = false → startsWith (String c "") s = false.
Proof.
  destruct s as [|a s]; simpl; [done|]. intros [Ha _]%orb_false_iff.
  apply bool_decide_eq_false in Ha. by rewrite decide_False by congruence.
Qed.

(** The text of an integer: empty for none, ["0"] for zero only, a minus
    sign first for the negative ones only, and no comma. *)
Lemma show_Z_reads z :
  show_Z z ≠ "" ∧ (show_Z z = "0" ↔ z = 0%Z) ∧
  (startsWith "-" (show_Z z) = true ↔ (z < 0)%Z) ∧
  has_char ","%char (show_Z z) = false.
Proof.
  split; [|split; [|split]].
  - destruct z as [|p|p]; [done| |done]. apply (show_N_nonempty (Npos p)).
  - split; [|by intros ->]. intros H. by apply (inj (pretty : Z → string)).
  - destruct z as [|p|p]; [done| |done].
    change (show_Z (Z.pos p)) with (show_N (Npos p)).
    rewrite startsWith_char by (by apply has_char_show_N). split; [done|lia].
  - destruct z as [|p|p]; [done|by apply (has_char_show_N _ (Npos p))|].
    change (show_Z (Z.neg p)) with ("-" +:+ show_N (Npos p)).
    rewrite has_char_app. simpl. by apply (has_char_show_N _ (Npos p)).
Qed.

End DeltaFacts.

Import DeltaFacts.

(** X16. The delta field is empty exactly when a size is missing; with
    both sizes it is ["0"] exactly when they are equal and starts with a
    minus sign exactly when the output is smaller; it has no comma. *)
Theorem delta_tells_growth_from_shrinkage before after :
  (delta_field before after = "" ↔ before = None ∨ after = None) ∧
  (∀ b a, before = Some b → after = Some a →
     (delta_field before after = "0" ↔ a = b) ∧
     (startsWith "-" (delta_field before after) = true ↔ (a < b)%N)) ∧
  replaceAll ","%char " " (delta_field before after) = delta_field before after.
Proof.
  unfold delta_field. split; [|split].
  - destruct after as [a|], before as [b|]; try (split; [eauto|done]).
    destruct (show_Z_reads (Z.of_N a - Z.of_N b)) as (Hne & _). split; [done|].
    intros [|]; done.
  - intros b a -> ->.
    destruct (show_Z_reads (Z.of_N a - Z.of_N b)) as (_ & H0 & Hneg & _).
    rewrite H0, Hneg. split; split; lia.
  - apply replaceAll_absent. destruct after as [a|], before as [b|]; try done.
    apply show_Z_reads.
Qed.

(** ** The calls of [processOne] *)

(** X17. Every call [processOne] makes is a [stat] of the input or of the
    output of an applicable step of the pipeline, the making of the
    directory of such an output, a copy of the input to such an output (in
    a dry run only), the step's tool run on the input and such an output
    (outside a dry run only), or an append to the log of the
    configuration. *)
Theorem processOne_touches_only_its_files cwd env cfg inputAbs h :
  ∃ calls, (processOne cwd env cfg inputAbs h).2 = h ++ calls ∧
           Forall (footprint cwd cfg inputAbs) calls.
Proof.
  revert h. change (extends (footprint cwd cfg inputAbs) (processOne cwd env cfg inputAbs)).
  unfold processOne. apply extends_bind; [apply extends_fileSize; by left|]. intros origSize.
  apply extends_bind; [|intros _; by apply extends_appendCsv].
  apply extends_for_of. intros step Hin. unfold stepBody.
  destruct (enabled step) eqn:Hen; simpl; [|apply extends_ret].
  destruct (bool_decide (extOf inputAbs ∈ matchExt step)) eqn:Hext; simpl; [|apply extends_ret].
  assert (applicable inputAbs step = true) as Happ by (unfold applicable; by rewrite Hen, Hext).
  apply extends_bind; [|intros o; destruct (writePerFile cfg);
                         [by apply extends_appendCsv|apply extends_ret]].
  unfold runStep. fold (step_outFile cwd cfg inputAbs step).
  apply extends_bind; [apply extends_ensureDirFor; simpl; eauto 10|]. intros _.
  apply extends_bind; [apply extends_fileSize; by left|]. intros before.
  apply extends_try_catch; [|intros e; apply extends_ret].
  apply extends_bind; [|intros [??]; apply extends_ret].
  intros h. rewrite attempt_cases. destruct (dryRun cfg) eqn:Hdry.
  - destruct (on_copyFile _ _ _ _); eexists; (split; [done|]);
      repeat first [apply Forall_nil_2 | apply Forall_cons_2]; simpl; eauto 10.
  - destruct (tool_invocation _ _ _ _ _) as [[cmd args]|] eqn:Ht.
    + destruct (on_execFile _ _ _ _); eexists; (split; [done|]);
        repeat first [apply Forall_nil_2 | apply Forall_cons_2]; simpl; eauto 10.
    + exists []. by rewrite app_nil_r.
Qed.

Section SkipFacts.
Variable cwd : string.
Variable env : Env.
Variable cfg : Config.

(** The loop over the steps is the loop over the applicable ones. *)
Lemma for_of_applicable inputAbs steps h :
  for_of steps (stepBody cwd env cfg inputAbs (Path.resolve cwd [inputDir cfg])
                  (Path.resolve cwd [outputDir cfg])) h
  = for_of (filter (λ s, applicable inputAbs s = true) steps)
      (stepBody cwd env cfg inputAbs (Path.resolve cwd [inputDir cfg])
         (Path.resolve cwd [outputDir cfg])) h.
Proof.
  revert h. induction steps as [|step steps IH]; intros h; [done|].
  destruct (applicable inputAbs step) eqn:Happ.
  - rewrite filter_cons_True by done. simpl. unfold mbind, Async_bind.
    destruct (stepBody _ _ _ _ _ _ _ _) as [[[]|e] h1]; [apply IH|done].
  - rewrite filter_cons_False by (rewrite Happ; done). simpl.
    unfold mbind at 1, Async_bind at 1. rewrite stepBody_cases, Happ. apply IH.
Qed.

End SkipFacts.

(** X18. [processOne] does what it does on the pipeline of the applicable
    steps alone: a disabled step and a step that does not list the
    extension of the file cause no call.  When no step applies, the calls
    are the [stat] of the input and the append of the row of the
    original. *)
Theorem steps_that_do_not_apply_leave_no_trace cwd env cfg inputAbs h :
  processOne cwd env cfg inputAbs h
  = processOne cwd env
      (with_pipeline cfg (filter (λ s, applicable inputAbs s = true) (pipeline cfg)))
      inputAbs h ∧
  (Forall (λ s, applicable inputAbs s = false) (pipeline cfg) →
   processOne cwd env cfg inputAbs h
   = appendCsv env (csvPath cfg)
       (csv_row (original_fields inputAbs (on_stat env h inputAbs))) (h ++ [Stat inputAbs])).
Proof.
  assert (∀ steps h1,
    for_of steps (stepBody cwd env cfg inputAbs (Path.resolve cwd [inputDir cfg])
                    (Path.resolve cwd [outputDir cfg])) h1
    = for_of steps
        (stepBody cwd env
           (with_pipeline cfg (filter (λ s, applicable inputAbs s = true) (pipeline cfg)))
           inputAbs (Path.resolve cwd [inputDir cfg]) (Path.resolve cwd [outputDir cfg])) h1)
    as Hsame by (intros; reflexivity).
  split.
  - unfold processOne. unfold mbind at 1 3, Async_bind at 1 3. unfold fileSize at 1 2.
    unfold mbind at 1 2, Async_bind at 1 2.
    cbn [with_pipeline pipeline inputDir outputDir csvPath].
    rewrite for_of_applicable. by rewrite Hsame.
  - intros Hnone. unfold processOne. unfold mbind at 1, Async_bind at 1. unfold fileSize at 1.
    unfold mbind at 1, Async_bind at 1. rewrite for_of_applicable.
    assert (filter (λ s, applicable inputAbs s = true) (pipeline cfg) = []) as ->; [|done].
    revert Hnone. generalize (pipeline cfg). intros l Hnone.
    induction Hnone as [|s l Hs Hl IH]; [done|]. rewrite filter_cons_False; [done|].
    by rewrite Hs.
Qed.

Lemma steps_that_do_not_apply_leave_no_trace_witness :
  processOne "/w" (example_env false false 100 60)
    (example_cfg [example_step "mozjpeg" "_m" ["jpg"; "jpeg"]] false true) "/in/a.png" []
  = (Returned tt,
     [Stat "/in/a.png"; AppendFile "metrics.csv" ("/in/a.png,ORIGINAL,100,100,0,0.00,,ok," +:+ LF)]).
Proof.
  destruct (steps_that_do_not_apply_leave_no_trace "/w" (example_env false false 100 60)
    (example_cfg [example_step "mozjpeg" "_m" ["jpg"; "jpeg"]] false true) "/in/a.png" [])
    as [_ H].
  rewrite H; [reflexivity|].
  apply Forall_cons_2; [reflexivity|apply Forall_nil_2].
Defined.

Section BlameFacts.
Variable cwd : string.
Variable env : Env.
Variable cfg : Config.

Lemma blames_ret {A} (a : A) : blames env (mret a).
Proof. intros h. exists []. by rewrite app_nil_r. Qed.

Lemma blames_bind {A B} (m : Async A) (f : A → Async B) :
  blames env m → (∀ a, blames env (f a)) → blames env (m ≫= f).
Proof.
  intros Hm Hf h. unfold mbind, Async_bind. specialize (Hm h).
  destruct (m h) as [[a|e] h1]; [|done].
  destruct Hm as [c1 ->]. specialize (Hf a (h ++ c1)).
  destruct (f a (h ++ c1)) as [[b|e] h2].
  - destruct Hf as [c2 ->]. exists (c1 ++ c2). by rewrite app_assoc.
  - destruct Hf as (c2 & c & -> & Hfail). exists (c1 ++ c2), c.
    rewrite !app_assoc in *. done.
Qed.

Lemma blames_for_of {A} (l : list A) (body : A → Async unit) :
  (∀ x, blames env (body x)) → blames env (for_of l body).
Proof.
  intros Hb. induction l as [|x l IH]; simpl; [apply blames_ret|].
  apply blames_bind; [apply Hb|]. intros _. apply IH.
Qed.

Lemma blames_fileSize p : blames env (fileSize env p).
Proof. intros h. by exists [Stat p]. Qed.

Lemma blames_appendCsv p row : blames env (appendCsv env p row).
Proof.
  intros h. unfold appendCsv, settle.
  destruct (on_appendFile env h p _) as [e|] eqn:Ha.
  - exists [], (AppendFile p (row +:+ LF)). simpl. by rewrite app_nil_r.
  - by eexists.
Qed.

Lemma blames_runStep inputAbs step :
  blames env (runStep cwd env cfg inputAbs (Path.resolve cwd [inputDir cfg])
                (Path.resolve cwd [outputDir cfg]) step).
Proof.
  intros h. rewrite runStep_cases.
  destruct (on_mkdir env h _) as [e|] eqn:Hmk.
  - eexists [], _. simpl. rewrite app_nil_r. done.
  - match goal with |- context [attempt env cfg step ?a ?b ?c ?d] =>
      destruct (attempt_extends env cfg step a b c d) as (tail & Ht & _);
      destruct (attempt env cfg step a b c d) as [[[after t]|e] h'] end;
      simpl in Ht; subst h'; rewrite <- app_assoc; by eexists.
Qed.

Lemma blames_stepBody inputAbs step :
  blames env (stepBody cwd env cfg inputAbs (Path.resolve cwd [inputDir cfg])
                (Path.resolve cwd [outputDir cfg]) step).
Proof.
  unfold stepBody. destruct (negb (enabled step)); [apply blames_ret|].
  destruct (negb (bool_decide _)); [apply blames_ret|].
  apply blames_bind; [apply blames_runStep|]. intros o.
  destruct (writePerFile cfg); [apply blames_appendCsv|apply blames_ret].
Qed.

Lemma blames_processOne inputAbs : blames env (processOne cwd env cfg inputAbs).
Proof.
  unfold processOne. apply blames_bind; [apply blames_fileSize|]. intros origSize.
  apply blames_bind; [|intros _; apply blames_appendCsv].
  apply blames_for_of. intros step. apply blames_stepBody.
Qed.

End BlameFacts.

(** X19. When [processOne] rejects, its last call is the making of a
    directory or an append to the log, that call failed, and [processOne]
    rejects with its error: no failure of [stat], of a copy or of a tool
    reaches the caller. *)
Theorem processOne_rejects_for_the_directory_or_the_log cwd env cfg inputAbs h e h' :
  processOne cwd env cfg inputAbs h = (Thrown e, h') →
  ∃ calls c, h' = h ++ calls ++ [c] ∧ failed_call env (h ++ calls) c e.
Proof.
  intros Hrun. pose proof (blames_processOne cwd env cfg inputAbs h) as Hb.
  by rewrite Hrun in Hb.
Qed.

Lemma processOne_rejects_for_the_directory_or_the_log_witness :
  ∃ calls c,
    [Stat "/in/a.png"; Mkdir "/out"] = [] ++ calls ++ [c] ∧
    failed_call (example_env true false 100 60) ([] ++ calls) c
      (Error "EACCES: permission denied").
Proof.
  apply (processOne_rejects_for_the_directory_or_the_log "/w" (example_env true false 100 60)
           (example_cfg [example_step "pngquant" "_q" ["png"]] false true) "/in/a.png").
  vm_compute. reflexivity.
Defined.

(** ** The workers of [main] *)

Module RunFacts.

Lemma length_omap_le {A B} (f : A → option B) l : (length (omap f l) ≤ length l)%nat.
Proof. induction l as [|x l IH]; csimpl; [done|]. destruct (f x); simpl; lia. Qed.

(** Reading a list at the first [k] indices gives its first [k] elements. *)
Lemma omap_lookup_take {A} (l : list A) k :
  omap (λ i, l !! i) (seq 0 k) = take k l.
Proof.
  induction k as [|k IH]; [done|].
  rewrite seq_S, omap_app, IH. simpl.
  destruct (l !! k) as [x|] eqn:Hk.
  - by rewrite (take_S_r _ _ _ Hk).
  - apply lookup_ge_None in Hk. rewrite app_nil_r, !take_ge by lia. done.
Qed.

End RunFacts.

Import RunFacts.

(** X20. At every moment of a run of [conc] workers, at most [conc] files,
    and at most as many as there are tasks, are being processed; the files
    started so far are the first [idx] tasks, in the order of the list;
    and the claims in range are the calls settled and the calls in
    flight. *)
Theorem workers_bound_the_files_in_flight (tasks : list string) conc choices st :
  sched_run (length tasks) choices (sched_init conc) = Some st →
  (length (in_flight (workers st)) ≤ min conc (length tasks))%nat ∧
  processed_files tasks st = take (idx st) tasks ∧
  (length (settled st) + length (in_flight (workers st)) = min (idx st) (length tasks))%nat.
Proof.
  intros Hrun.
  destruct (sched_run_inv _ _ _ _ _ (sched_inv_init _ conc) Hrun)
    as [[Hlen Hst Hidx Hex Hacc] _].
  assert (length (settled st) + length (in_flight (workers st))
          = min (idx st) (length tasks))%nat as Hcount.
  { apply Permutation_length in Hacc.
    rewrite Hst, length_seq, length_app, length_fmap in Hacc. lia. }
  split; [|split; [|done]].
  - pose proof (length_omap_le in_flight_of (workers st)) as Hle.
    unfold in_flight in *. lia.
  - unfold processed_files. rewrite Hst, omap_lookup_take.
    destruct (decide (idx st ≤ length tasks)%nat).
    + by rewrite Nat.min_l.
    + rewrite Nat.min_r by lia. by rewrite !take_ge by lia.
Qed.

Lemma workers_bound_the_files_in_flight_witness :
  ∃ st,
    sched_run 3 [(0, true); (1, true); (1, false)]%nat (sched_init 2) = Some st ∧
    (length (in_flight (workers st)) ≤ 2)%nat.
Proof.
  eexists. split; [vm_compute; reflexivity|].
  apply (workers_bound_the_files_in_flight ["/in/a.png"; "/in/b.png"; "/in/c.jpg"] 2
           [(0, true); (1, true); (1, false)]%nat).
  vm_compute. reflexivity.
Defined.

Module OneWorkerFacts.

Lemma one_at_a_time_turn n w b st st' :
  one_at_a_time st → worker_turn n w b st = Some st' → one_at_a_time st'.
Proof.
  intros (s & Hw & Hst). unfold worker_turn. rewrite Hw.
  destruct w as [|w]; simpl; [|done].
  destruct s as [|i|i]; [| |done].
  - case_decide; intros [= <-]; unfold one_at_a_time; simpl.
    + eexists. split; [done|]. by rewrite Hst.
    + eexists. split; [done|]. rewrite Hst. simpl. by rewrite !app_nil_r.
  - intros [= <-]. unfold one_at_a_time. simpl.
    eexists. split; [done|]. rewrite Hst, fmap_app. simpl. by rewrite app_nil_r.
Qed.

Lemma one_at_a_time_run n choices st st' :
  one_at_a_time st → sched_run n choices st = Some st' → one_at_a_time st'.
Proof.
  revert st. induction choices as [|[w b] choices IH]; intros st Hone; simpl.
  - by intros [= <-].
  - destruct (worker_turn n w b st) as [st1|] eqn:Ht; [|done].
    apply IH. by eapply one_at_a_time_turn.
Qed.

Lemma seq_prefix k l r : seq 0 k = l ++ r → l = seq 0 (length l).
Proof.
  intros H. apply (f_equal (take (length l))) in H.
  rewrite take_app_length in H. rewrite <- H.
  assert (length l ≤ k)%nat as Hle.
  { apply (f_equal length) in H. rewrite length_take, length_seq in H. lia. }
  rewrite take_seq. rewrite Nat.min_l by lia.
  rewrite length_seq. done.
Qed.

End OneWorkerFacts.

Import OneWorkerFacts.

(** X21. With one worker the files are processed one after the other: at
    every moment the files started are the files settled, in the order of
    the list, followed by the one in flight if there is one, and the files
    settled are the first files of the list, none left out. *)
Theorem one_worker_takes_the_files_in_turn n choices st :
  sched_run n choices (sched_init 1) = Some st →
  started st = (settled st).*1 ++ in_flight (workers st) ∧
  (settled st).*1 = seq 0 (length (settled st)) ∧
  (length (in_flight (workers st)) ≤ 1)%nat.
Proof.
  intros Hrun.
  assert (one_at_a_time (sched_init 1)) as Hinit by (by exists Claiming).
  destruct (one_at_a_time_run _ _ _ _ Hinit Hrun) as (s & Hw & Hst).
  destruct (sched_run_inv _ _ _ _ _ (sched_inv_init n 1) Hrun) as [[_ Hseq _ _ _] _].
  rewrite Hw. split; [done|]. split.
  - rewrite Hst in Hseq. symmetry in Hseq. apply seq_prefix in Hseq.
    by rewrite length_fmap in Hseq.
  - destruct s; simpl; lia.
Qed.

Lemma one_worker_takes_the_files_in_turn_witness :
  ∃ st,
    sched_run 2 [(0, true); (0, false); (0, true)]%nat (sched_init 1) = Some st ∧
    started st = (settled st).*1 ++ in_flight (workers st).
Proof.
  eexists. split; [vm_compute; reflexivity|].
  apply (one_worker_takes_the_files_in_turn 2 [(0, true); (0, false); (0, true)]%nat).
  vm_compute. reflexivity.
Defined.

Section LoneWorkerFacts.
Variable cwd : string.
Variable env : Env.
Variable cfg : Config.

(** The first call of [processOne] is the [stat] of its file. *)
Lemma processOne_starts_with_stat f h :
  ∃ rest, (processOne cwd env cfg f h).2 = h ++ Stat f :: rest.
Proof.
  unfold processOne. unfold mbind at 1, Async_bind at 1. unfold fileSize at 1.
  match goal with |- context [mbind ?k ?m (h ++ [Stat f])] =>
    assert (blames env (mbind k m)) as Hb end.
  { apply blames_bind; [|intros _; apply blames_appendCsv].
    apply blames_for_of. intros step. apply blames_stepBody. }
  specialize (Hb (h ++ [Stat f])).
  match goal with |- context [mbind ?k ?m (h ++ [Stat f])] =>
    destruct (mbind k m (h ++ [Stat f])) as [[[]|e] h1] end.
  - destruct Hb as [calls ->]. exists calls. simpl. by rewrite <- app_assoc.
  - destruct Hb as (calls & c & -> & _). exists (calls ++ [c]). simpl.
    by rewrite <- app_assoc.
Qed.

(** One turn of the loop: the calls of [processOne], whether it returned
    or threw. *)
Lemma worker_alone_cons f tasks h :
  worker_alone cwd env cfg (f :: tasks) h
  = worker_alone cwd env cfg tasks (processOne cwd env cfg f h).2.
Proof.
  unfold worker_alone. simpl. unfold mbind, Async_bind, try_catch.
  by destruct (processOne cwd env cfg f h) as [[[]|e] h1].
Qed.

End LoneWorkerFacts.

(** X22. A worker that is alone never rejects and goes through every task,
    in the order of the list, whatever happened to the tasks before: its
    calls are, task after task, the calls [processOne] makes on the task
    from the calls made so far, the first of them the [stat] of the
    task. *)
Theorem a_lone_worker_goes_through_every_file cwd env cfg tasks h :
  ∃ parts,
    worker_alone cwd env cfg tasks h = (Returned tt, h ++ concat parts) ∧
    length parts = length tasks ∧
    ∀ i f part, tasks !! i = Some f → parts !! i = Some part →
      (∃ rest, part = Stat f :: rest) ∧
      (processOne cwd env cfg f (h ++ concat (take i parts))).2
      = (h ++ concat (take i parts)) ++ part.
Proof.
  revert h. induction tasks as [|f tasks IH]; intros h.
  - exists []. simpl. rewrite app_nil_r. split; [done|]. split; [done|]. by intros [|i].
  - rewrite worker_alone_cons.
    destruct (processOne_starts_with_stat cwd env cfg f h) as [rest Hf].
    destruct (IH (processOne cwd env cfg f h).2) as (parts & Hrun & Hlen & Hparts).
    exists ((Stat f :: rest) :: parts). rewrite Hrun, Hf. split; [|split].
    + simpl. by rewrite <- app_assoc.
    + simpl. by rewrite Hlen.
    + intros [|i] g part; simpl.
      * intros [= <-] [= <-]. split; [eauto|]. by rewrite app_nil_r.
      * intros Hg Hp. destruct (Hparts i g part Hg Hp) as [Hs Hcalls].
        split; [done|]. rewrite Hf in Hcalls.
        replace (h ++ Stat f :: rest ++ concat (take i parts))
          with ((h ++ Stat f :: rest) ++ concat (take i parts)); [done|].
        by rewrite <- app_assoc.
Qed.

Section LogFacts.
Variable cwd : string.
Variable env : Env.
Variable cfg : Config.
Hypothesis Hmk : ∀ h p, on_mkdir env h p = None.
Hypothesis Hap : ∀ h p d, on_appendFile env h p d = None.

(** Where directories can be made and the log appended to, [processOne]
    returns and appends the lines of its file. *)
Lemma processOne_log f h :
  ∃ calls group,
    processOne cwd env cfg f h = (Returned tt, h ++ calls) ∧
    appended calls = group ∧ rows_of_file cwd cfg f group.
Proof.
  unfold processOne. unfold mbind at 1, Async_bind at 1. unfold fileSize at 1.
  unfold mbind at 1, Async_bind at 1.
  destruct (for_of_steps cwd env cfg f Hmk Hap (pipeline cfg) (h ++ [Stat f]))
    as (calls & Hfor & _).
  destruct (for_of_rows cwd env cfg f _ _ _ Hfor) as (calls' & os & Heq & HF & Hrows & _).
  apply app_inv_head in Heq. subst calls'. rewrite Hfor.
  unfold appendCsv, settle. rewrite Hap.
  eexists (Stat f :: calls ++ [_]), _. split; [by rewrite <- !app_assoc|]. split; [done|].
  exists os, (on_stat env h f). split; [done|].
  unfold appended in *. simpl. rewrite omap_app. simpl. by rewrite Hrows.
Qed.

End LogFacts.

(** X23. Where directories can be made and the log appended to, a worker
    that is alone appends to the log, for each task in the order of the
    list, the rows of the applicable steps of the task, when the rows of
    steps are enabled, and then the row of the original of the task. *)
Theorem a_lone_worker_fills_the_log cwd env cfg tasks h :
  (∀ h p, on_mkdir env h p = None) →
  (∀ h p d, on_appendFile env h p d = None) →
  ∃ calls groups,
    worker_alone cwd env cfg tasks h = (Returned tt, h ++ calls) ∧
    appended calls = concat groups ∧
    Forall2 (rows_of_file cwd cfg) tasks groups.
Proof.
  intros Hmk Hap. revert h. induction tasks as [|f tasks IH]; intros h.
  - exists [], []. simpl. rewrite app_nil_r. split; [done|]. split; [done|]. constructor.
  - rewrite worker_alone_cons.
    destruct (processOne_log cwd env cfg Hmk Hap f h) as (c1 & group & -> & Hrows & Hgroup).
    destruct (IH (h ++ c1)) as (calls & groups & Hrun & Happ & HF).
    exists (c1 ++ calls), (group :: groups). simpl. rewrite Hrun. split; [|split].
    + by rewrite <- app_assoc.
    + unfold appended in *. by rewrite omap_app, Hrows, Happ.
    + by constructor.
Qed.

Lemma a_lone_worker_fills_the_log_witness :
  ∃ calls,
    worker_alone "/w" (example_env false true 100 60)
      (example_cfg [example_step "pngquant" "_q" ["png"]] false true)
      ["/in/a.png"; "/in/b.jpg"] []
    = (Returned tt, [] ++ calls) ∧
    length (appended calls) = 3%nat.
Proof.
  destruct (a_lone_worker_fills_the_log "/w" (example_env false true 100 60)
              (example_cfg [example_step "pngquant" "_q" ["png"]] false true)
              ["/in/a.png"; "/in/b.jpg"] [] (λ _ _, eq_refl) (λ _ _ _, eq_refl))
    as (calls & groups & Hrun & Happ & _).
  exists calls. split; [exact Hrun|].
  vm_compute in Hrun. injection Hrun as <-. reflexivity.
Defined.

Module ParallelFacts.

Lemma sched_run_app n c1 c2 st :
  sched_run n (c1 ++ c2) st = sched_run n c1 st ≫= sched_run n c2.
Proof.
  revert st. induction c1 as [|[w b] c1 IH]; intros st; simpl; [done|].
  destruct (worker_turn n w b st) as [st1|]; [apply IH|done].
Qed.

(** The workers claim one after the other: each gets the next file. *)
Lemma sched_run_claims n conc j :
  (j ≤ conc)%nat → (j ≤ n)%nat →
  sched_run n ((λ w, (w, true)) <$> seq 0 j) (sched_init conc) = Some (all_claimed conc j).
Proof.
  induction j as [|j IH]; intros Hc Hn.
  - simpl. unfold sched_init, all_claimed. simpl. by rewrite Nat.sub_0_r.
  - rewrite seq_S, fmap_app, sched_run_app, IH by lia. simpl.
    unfold worker_turn, all_claimed. cbn [workers idx started settled].
    assert (length (Processing <$> seq 0 j) = j) as Hlen by by rewrite length_fmap, length_seq.
    rewrite lookup_app_r by lia. rewrite Hlen, Nat.sub_diag.
    replace (conc - j)%nat with (S (conc - S j)) by lia. simpl.
    rewrite decide_False by lia. do 2 f_equal.
    + rewrite insert_app_r_alt by lia. rewrite Hlen, Nat.sub_diag. simpl.
      trans ((Processing <$> seq 0 (S j)) ++ replicate (conc - S j) Claiming); [|done].
      rewrite seq_S, fmap_app. simpl. by rewrite <- app_assoc.
    + change (0 :: seq 1 j)%nat with (seq 0 (S j)). by rewrite seq_S.
Qed.

Lemma in_flight_all_claimed conc j : in_flight (workers (all_claimed conc j)) = seq 0 j.
Proof.
  unfold in_flight, all_claimed. cbn [workers]. rewrite omap_app.
  assert (omap in_flight_of (replicate (conc - j) Claiming) = []) as ->.
  { induction (conc - j)%nat; [done|]. done. }
  rewrite app_nil_r. induction (seq 0 j) as [|x l IH]; [done|]. csimpl. by rewrite IH.
Qed.

End ParallelFacts.

Import ParallelFacts.

(** X24. The bound on the files in flight is reached: after as many turns
    as there are workers, or tasks if they are fewer, each of these
    workers is processing a file of its own and none has settled. *)
Theorem the_workers_run_side_by_side n conc :
  ∃ choices st,
    sched_run n choices (sched_init conc) = Some st ∧
    length choices = min conc n ∧
    in_flight (workers st) = seq 0 (min conc n) ∧
    settled st = [].
Proof.
  exists ((λ w, (w, true)) <$> seq 0 (min conc n)), (all_claimed conc (min conc n)).
  split; [apply sched_run_claims; lia|]. split; [by rewrite length_fmap, length_seq|].
  split; [apply in_flight_all_claimed|done].
Qed.

(** ** More on the steps and their rows *)

(** X25. A step that is disabled, and a step whose extensions each have
    an upper-case letter or a dot in them, applies to no file: the body of
    the loop makes no call for it. *)
Theorem steps_that_cannot_match_do_nothing cwd env cfg inputAbs inRoot outRoot step h :
  enabled step = false ∨
  (∀ e, e ∈ matchExt step → toLowerCase e ≠ e ∨ has_char dot e = true) →
  applicable inputAbs step = false ∧
  stepBody cwd env cfg inputAbs inRoot outRoot step h = (Returned tt, h).
Proof.
  intros Hno.
  assert (applicable inputAbs step = false) as Happ.
  { unfold applicable. destruct Hno as [->|Hext]; [done|].
    rewrite bool_decide_eq_false_2; [apply andb_false_r|]. intros Hin.
    destruct (Hext _ Hin) as [H|H].
    - apply H, toLowerCase_idem.
    - unfold extOf in H. rewrite has_char_toLowerCase in H by (vm_compute; done).
      destruct (extname_shape inputAbs) as [He|(e & He & Hd & _)]; rewrite He in H;
        simpl in H; congruence. }
  split; [done|]. unfold applicable in Happ. unfold stepBody.
  destruct (enabled step); [|done]. simpl in *. by rewrite Happ.
Qed.

Lemma steps_that_cannot_match_do_nothing_witness :
  stepBody "/w" (example_env false false 100 60) (example_cfg [] false true)
    "/in/a.png" "/in" "/out" (example_step "pngquant" "_q" [".png"; "PNG"]) []
  = (Returned tt, []).
Proof.
  apply steps_that_cannot_match_do_nothing. right. intros e He.
  apply elem_of_cons in He as [->|He]; [right; reflexivity|].
  apply elem_of_cons in He as [->|He]; [left; discriminate|].
  by apply elem_of_nil in He.
Defined.

Module LineFacts.
Import JsNumber.

Lemma has_char_replaceAll_other x c r s :
  has_char x r = false → has_char x s = false → has_char x (replaceAll c r s) = false.
Proof.
  intros Hr. induction s as [|a s IH]; simpl; [done|].
  intros [Ha Hs]%orb_false_iff. destruct (decide (a = c)).
  - by rewrite has_char_app, Hr, IH.
  - simpl. by rewrite Ha, IH.
Qed.

Lemma has_char_join x sep l :
  has_char x sep = false → Forall (λ f, has_char x f = false) l →
  has_char x (join sep l) = false.
Proof.
  intros Hsep Hl. induction Hl as [|f l Hf Hl IH]; [done|].
  destruct l as [|g l]; [done|].
  change (join sep (f :: g :: l)) with (f +:+ sep +:+ join sep (g :: l)).
  by rewrite !has_char_app, Hf, Hsep, IH.
Qed.

(** A row has no line feed when its fields have none. *)
Lemma csv_row_single_line fields :
  Forall (λ f, has_char "010"%char f = false) fields →
  has_char "010"%char (csv_row fields) = false.
Proof.
  intros Hf. unfold csv_row. apply has_char_join; [done|].
  apply Forall_fmap. eapply Forall_impl; [exact Hf|].
  intros f Hx. by apply has_char_replaceAll_other.
Qed.

Lemma show_size_single_line sz : has_char "010"%char (show_size sz) = false.
Proof. destruct sz as [n|]; [|done]. by apply has_char_show_N. Qed.

Lemma show_Z_single_line z : has_char "010"%char (show_Z z) = false.
Proof.
  destruct z as [|p|p]; [done|by apply (has_char_show_N _ (Npos p))|].
  change (show_Z (Z.neg p)) with ("-" +:+ show_N (Npos p)).
  rewrite has_char_app. simpl. by apply (has_char_show_N _ (Npos p)).
Qed.

Lemma toFixed2_single_line x : has_char "010"%char (toFixed2 x) = false.
Proof.
  unfold toFixed2. destruct (Prim2SF x) as [s|s| |s m e]; try done.
  - by destruct s.
  - rewrite has_char_app, has_char_hundredths by done. by destruct s.
Qed.

Lemma delta_fields_single_line before after :
  has_char "010"%char (delta_field before after) = false ∧
  has_char "010"%char (deltaPct_field before after) = false.
Proof.
  unfold delta_field, deltaPct_field, pct.
  destruct after as [a|], before as [b|]; try done.
  split; [apply show_Z_single_line|]. case_decide; [done|]. apply toFixed2_single_line.
Qed.

End LineFacts.

Import LineFacts.

(** X26. When the path of the input, the output path and the name of the
    step have no line feed in them, the row of the step and the row of the
    original have none: each is one line of the log. *)
Theorem rows_are_single_lines cwd env cfg inputAbs inRoot outRoot step h o h' sz :
  runStep cwd env cfg inputAbs inRoot outRoot step h = (Returned o, h') →
  has_char "010"%char inputAbs = false →
  has_char "010"%char (so_outFile o) = false →
  has_char "010"%char (name step) = false →
  has_char "010"%char (csv_row (step_fields o)) = false ∧
  has_char "010"%char (csv_row (original_fields inputAbs sz)) = false.
Proof.
  intros Hrun Hin Hout Hname. split.
  - assert (so_stage o = name step ∧ (so_status o = "ok" ∨ so_status o = "error")) as [Hst Hs].
    { revert Hrun. unfold runStep. unfold mbind at 1, Async_bind at 1.
      unfold ensureDirFor, settle. destruct (on_mkdir env h _) as [e|]; [done|].
      unfold mbind at 1, Async_bind at 1. unfold fileSize at 1.
      unfold try_catch. unfold mbind at 1, Async_bind at 1.
      destruct (attempt _ _ _ _ _ _ _) as [[[after t]|e] h1]; intros [= <- <-]; simpl; auto. }
    destruct (delta_fields_single_line (so_before o) (so_after o)) as [Hd Hp].
    destruct (JSON_stringify_no_break (js_or (Some (so_message o)) "")) as [Hj _].
    apply csv_row_single_line. unfold step_fields.
    repeat first [apply Forall_nil_2 | apply Forall_cons_2];
      try done; try apply show_size_single_line.
    + by rewrite Hst.
    + by apply has_char_show_N.
    + by destruct Hs as [-> | ->].
  - apply csv_row_single_line. unfold original_fields.
    repeat first [apply Forall_nil_2 | apply Forall_cons_2];
      try done; apply show_size_single_line.
Qed.

Lemma rows_are_single_lines_witness :
  has_char "010"%char
    (csv_row (step_fields (ok_outcome "/out/a_m.jpg" "mozjpeg" (Some 100%N) (Some 60%N) 5)))
  = false.
Proof.
  apply (rows_are_single_lines "/w" (example_env false false 100 60)
           (example_cfg [] false true) "/in/a.png" "/in" "/out"
           {| name := "mozjpeg"; enabled := true; matchExt := ["png"]; suffix := Some "_m";
              profile := "absent" |} []
           (ok_outcome "/out/a_m.jpg" "mozjpeg" (Some 100%N) (Some 60%N) 5)
           [Mkdir "/out"; Stat "/in/a.png";
            ExecFile (Some "cjpeg") [AStr "-outfile"; AStr "/out/a_m.jpg"; AStr "/in/a.png"];
            Stat "/out/a_m.jpg"] None);
    [vm_compute; reflexivity|reflexivity|reflexivity|reflexivity].
Defined.
